(** * RecoIL: 2D periodic table-lookup interpolation

    A shallow embedding of [src/irt/nufft/table/interp2_table1_for.cpp]:
    the three forward evaluators [interp2_table0_complex_per],
    [interp2_table0_real_per] and [interp2_table1_real_per].

    Modelling conventions, used throughout:
    - the code is embedded twice, with two models of its numbers.  In the
      exact model (the definitions that follow) a C [double] is an exact
      rational ([Qc], canonical fractions, so that equality of values is
      Leibniz equality) and a C [int] is an unbounded [Z]; a division
      whose divisor is zero is a fault ([DivByZero]) because the quotient
      is then converted to [int].  It carries the statements that do not
      depend on rounding: the loop structure, the index arithmetic, the
      faults, and evaluations at integer coordinates, where every step is
      exact in double precision as well.  In the binary64 model (module
      [B64]) a [double] is an IEEE-754 binary64 number with rounding,
      overflow, infinities and NaN, and a conversion to [int] is checked
      against the 32-bit range; it carries the statements that depend on
      them;
    - an array is a list; a read or a write outside the list is a fault
      ([OutOfRange]); a cell obtained from [malloc] holds no value until it
      is written, and reading it is a fault ([Uninitialised]);
    - a [for (jj = 0; jj < J; jj++, k++)] loop is the combinator [for_k],
      which threads the loop-carried variables through the body. *)

From Stdlib Require Import ZArith QArith Qcanon Qround List Bool Lia Lqa.
From Stdlib Require Import SpecFloat.
Import ListNotations.

Local Open Scope Z_scope.

(** ** Faults and the error monad *)

Inductive fault : Set :=
| DivByZero
| OutOfRange
| Uninitialised.

Inductive result (A : Type) : Type :=
| Ok (a : A)
| Err (e : fault).

Arguments Ok {A} a.
Arguments Err {A} e.

Definition bind {A B : Type} (m : result A) (f : A -> result B) : result B :=
  match m with
  | Ok a => f a
  | Err e => Err e
  end.

Notation "x <- m ;; f" := (bind m (fun x => f))
  (at level 61, m at next level, right associativity).
Notation "' pat <- m ;; f" := (bind m (fun x => match x with pat => f end))
  (at level 61, pat pattern, m at next level, right associativity).

Definition completes {A : Type} (r : result A) : Prop := exists a, r = Ok a.
Definition faults {A : Type} (r : result A) : Prop := exists e, r = Err e.

(** ** Numbers *)

Definition int := Z.
Definition double := Qc.

(** [(double) k] *)
Definition of_int (k : int) : double := Q2Qc (inject_Z k).

(** [floor(x)], assigned to an [int] *)
Definition floor (x : double) : int := Qfloor (this x).

Definition half : double := Q2Qc (1 # 2).

(** A complex value is kept by the source as a pair of doubles
    ([sum1r], [sum1i]). *)
Definition cplx := (double * double)%type.

Definition czero : cplx := (Q2Qc 0, Q2Qc 0).

(** ** Arrays *)

Definition rd {A : Type} (a : list A) (i : int) : result A :=
  if i <? 0 then Err OutOfRange
  else match nth_error a (Z.to_nat i) with
       | Some v => Ok v
       | None => Err OutOfRange
       end.

Fixpoint set_nth {A : Type} (a : list A) (n : nat) (v : A) : list A :=
  match a, n with
  | [], _ => []
  | _ :: r, O => v :: r
  | x :: r, S n' => x :: set_nth r n' v
  end.

Definition wr {A : Type} (a : list A) (i : int) (v : A) : result (list A) :=
  if (0 <=? i) && (i <? Z.of_nat (length a))
  then Ok (set_nth a (Z.to_nat i) v)
  else Err OutOfRange.

(** [memset(a, 0, M * sizeof( *a))] *)
Definition memset0 (a : list double) (M : int) : result (list double) :=
  if (0 <=? M) && (M <=? Z.of_nat (length a))
  then Ok (repeat (Q2Qc 0) (Z.to_nat M) ++ skipn (Z.to_nat M) a)
  else Err OutOfRange.

(** [malloc(M * sizeof(double))]: [M] cells, none of which holds a value. *)
Definition malloc (M : int) : list (option double) :=
  repeat None (Z.to_nat M).

(** Reading a cell of a [malloc]ed buffer. *)
Definition rd_cell (a : list (option double)) (i : int) : result double :=
  c <- rd a i ;;
  match c with
  | Some v => Ok v
  | None => Err Uninitialised
  end.

(** ** Loops *)

(** [for (jj = 0; jj < n; jj++, k++) s = body(k, s);] *)
Fixpoint for_k {St : Type} (n : nat) (k : int)
    (body : int -> St -> result St) (s : St) : result St :=
  match n with
  | O => Ok s
  | S n' => s' <- body k s ;; for_k n' (k + 1) body s'
  end.

(** A loop over a given list of indices: the part of an
    [omp for schedule(dynamic)] loop that one worker executes. *)
Fixpoint for_each {St : Type} (idx : list int)
    (body : int -> St -> result St) (s : St) : result St :=
  match idx with
  | [] => Ok s
  | i :: rest => s' <- body i s ;; for_each rest body s'
  end.

(** The indices [0, 1, ..., M-1]. *)
Definition iota (M : int) : list int := map Z.of_nat (seq 0 (Z.to_nat M)).

(** ** Pieces shared by the three evaluators *)

(** [const int ncenter = floor(J * L/2.);] *)
Definition ncenter (J L : int) : int :=
  floor (Qcdiv (of_int (J * L)) (of_int 2)).

(** [1 + floor(t - J / 2.)] *)
Definition koff (t : double) (J : int) : int :=
  1 + floor (Qcminus t (Qcdiv (of_int J) (of_int 2))).

(** [p = (t - k) * L] *)
Definition offset (t : double) (k L : int) : double :=
  Qcmult (Qcminus t (of_int k)) (of_int L).

(** [floor(k / (double) K)] *)
Definition wrap_of (k K : int) : result int :=
  if K =? 0 then Err DivByZero
  else Ok (floor (Qcdiv (of_int k) (of_int K))).

(** The two lines

      [const int wrap = floor(k / (double) K);]
      [const int kmod = k - K * wrap;]

    of the real-table evaluators; the pair is [(kmod, wrap)]. *)
Definition periodic (k K : int) : result (int * int) :=
  wrap <- wrap_of k K ;;
  Ok (k - K * wrap, wrap).

(** Modelled from the spec: the macro [mymod] of [def,table2.h], which is
    not part of the sources at hand.  The spec describes the periodic
    indexer as returning the index [kmod] with [k = kmod + K * wrap] and
    [wrap = floor(k/K)]; [mymod(k, K)] is its first component. *)
Definition mymod (k K : int) : result int :=
  '(kmod, _) <- periodic k K ;;
  Ok kmod.

(** Modelled from the spec: the macro [iround] of [def,table2.h], which is
    not part of the sources at hand.  The spec describes it as rounding to
    the nearest integer, ties away from zero. *)
Definition iround (x : double) : int :=
  if Qle_bool 0 (this x) then floor (Qcplus x half)
  else - floor (Qcplus (Qcopp x) half).

(** [if (flip && (wrap % 2)) coef = -coef;]   The flip arguments exist only
    when [Provide_flip] is defined: [None] is a build without it. *)
Definition flip_sign (flip : option int) (wrap : int) (coef : double) : double :=
  match flip with
  | Some f =>
      if negb (f =? 0) && negb (Z.rem wrap 2 =? 0) then Qcopp coef else coef
  | None => coef
  end.

(** 0th-order lookup: [n = iround(p); coef = h[n]] with [h] the table
    pointer advanced by [ncenter]. *)
Definition coef0 (h : list double) (nc : int) (t : double) (k L : int)
  : result double :=
  let p := offset t k L in
  let n := iround p in
  rd h (nc + n).

(** 1st-order lookup:

      [n = floor(p); alf = p - n; ph = h + n;]
      [coef = (1 - alf) * *ph + alf * *(ph+1);] *)
Definition coef1 (h : list double) (nc : int) (t : double) (k L : int)
  : result double :=
  let p := offset t k L in
  let n := floor p in
  let alf := Qcminus p (of_int n) in
  let ph := nc + n in
  a <- rd h ph ;;
  b <- rd h (ph + 1) ;;
  Ok (Qcplus (Qcmult (Qcminus (Q2Qc 1) alf) a) (Qcmult alf b)).

(** ** [interp2_table0_real_per]: 2D, 0th order, real table, periodic *)

Section Real0.
Variables (r_ck i_ck : list double) (K1 K2 : int).
Variables (r_h1 r_h2 : list double).
(** [flip1], [flip2]; [None] when [Provide_flip] is not defined. *)
Variable flips : option (int * int).
Variables (J1 J2 L1 L2 : int).

(** body of the [jj1] loop; [sum1] is [(sum1r, sum1i)] *)
Definition real0_j1 (t1 : double) (k12mod : int) (k1 : int) (sum1 : cplx)
  : result cplx :=
  let '(sum1r, sum1i) := sum1 in
  coef1r <- coef0 r_h1 (ncenter J1 L1) t1 k1 L1 ;;
  '(k1mod, wrap1) <- periodic k1 K1 ;;
  let kk := k12mod + k1mod in
  let coef1r := flip_sign (option_map fst flips) wrap1 coef1r in
  rck <- rd r_ck kk ;;
  ick <- rd i_ck kk ;;
  Ok (sum1r + coef1r * rck, sum1i + coef1r * ick)%Qc.

(** body of the [jj2] loop; [sum2] is [(sum2r, sum2i)] *)
Definition real0_j2 (t1 t2 : double) (koff1 : int) (k2 : int) (sum2 : cplx)
  : result cplx :=
  let '(sum2r, sum2i) := sum2 in
  coef2r <- coef0 r_h2 (ncenter J2 L2) t2 k2 L2 ;;
  '(k2mod, wrap2) <- periodic k2 K2 ;;
  let k12mod := k2mod * K1 in
  let coef2r := flip_sign (option_map snd flips) wrap2 coef2r in
  '(sum1r, sum1i) <- for_k (Z.to_nat J1) koff1 (real0_j1 t1 k12mod) czero ;;
  Ok (sum2r + coef2r * sum1r, sum2i + coef2r * sum1i)%Qc.

(** the two sums of one query point *)
Definition real0_point (t1 t2 : double) : result cplx :=
  let koff1 := koff t1 J1 in
  let k2 := koff t2 J2 in
  for_k (Z.to_nat J2) k2 (real0_j2 t1 t2 koff1) czero.

(** body of the [mm] loop.  The pointers [p_tm], [r_fm] and [i_fm] are
    advanced once per iteration, so each stands [mm] cells past its
    initial value: [p_tm[M]] is cell [mm + M], [*p_tm++] is cell [mm]. *)
Definition real0_mm (p_tm : list double) (M : int) (mm : int)
    (out : list double * list double) : result (list double * list double) :=
  let '(r_fm, i_fm) := out in
  t2 <- rd p_tm (mm + M) ;;
  t1 <- rd p_tm mm ;;
  '(sum2r, sum2i) <- real0_point t1 t2 ;;
  r_fm <- wr r_fm mm sum2r ;;
  i_fm <- wr i_fm mm sum2i ;;
  Ok (r_fm, i_fm).

Definition interp2_table0_real_per (p_tm : list double) (M : int)
    (r_fm i_fm : list double) : result (list double * list double) :=
  for_k (Z.to_nat M) 0 (real0_mm p_tm M) (r_fm, i_fm).
End Real0.

(** ** [interp2_table1_real_per]: 2D, 1st order, real table, periodic *)

Section Real1.
Variables (r_ck i_ck : list double) (K1 K2 : int).
Variables (r_h1 r_h2 : list double).
Variable flips : option (int * int).
Variables (J1 J2 L1 L2 : int).

Definition real1_j1 (t1 : double) (k12mod : int) (k1 : int) (sum1 : cplx)
  : result cplx :=
  let '(sum1r, sum1i) := sum1 in
  coef1r <- coef1 r_h1 (ncenter J1 L1) t1 k1 L1 ;;
  '(k1mod, wrap1) <- periodic k1 K1 ;;
  let kk := k12mod + k1mod in
  let coef1r := flip_sign (option_map fst flips) wrap1 coef1r in
  rck <- rd r_ck kk ;;
  ick <- rd i_ck kk ;;
  Ok (sum1r + coef1r * rck, sum1i + coef1r * ick)%Qc.

Definition real1_j2 (t1 t2 : double) (koff1 : int) (k2 : int) (sum2 : cplx)
  : result cplx :=
  let '(sum2r, sum2i) := sum2 in
  coef2r <- coef1 r_h2 (ncenter J2 L2) t2 k2 L2 ;;
  '(k2mod, wrap2) <- periodic k2 K2 ;;
  let k12mod := k2mod * K1 in
  let coef2r := flip_sign (option_map snd flips) wrap2 coef2r in
  '(sum1r, sum1i) <- for_k (Z.to_nat J1) koff1 (real1_j1 t1 k12mod) czero ;;
  Ok (sum2r + coef2r * sum1r, sum2i + coef2r * sum1i)%Qc.

Definition real1_point (t1 t2 : double) : result cplx :=
  let koff1 := koff t1 J1 in
  let k2 := koff t2 J2 in
  for_k (Z.to_nat J2) k2 (real1_j2 t1 t2 koff1) czero.

Definition real1_mm (p_tm : list double) (M : int) (mm : int)
    (out : list double * list double) : result (list double * list double) :=
  let '(r_fm, i_fm) := out in
  t2 <- rd p_tm (mm + M) ;;
  t1 <- rd p_tm mm ;;
  '(sum2r, sum2i) <- real1_point t1 t2 ;;
  r_fm <- wr r_fm mm sum2r ;;
  i_fm <- wr i_fm mm sum2i ;;
  Ok (r_fm, i_fm).

Definition interp2_table1_real_per (p_tm : list double) (M : int)
    (r_fm i_fm : list double) : result (list double * list double) :=
  for_k (Z.to_nat M) 0 (real1_mm p_tm M) (r_fm, i_fm).
End Real1.

(** ** [interp2_table0_complex_per]: 2D, 0th order, complex table, periodic *)

Section Complex0.
Variables (r_ck i_ck : list double) (K1 K2 : int).
Variables (r_h1 i_h1 r_h2 i_h2 : list double).
Variables (J1 J2 L1 L2 : int).

Definition complex0_j1 (t1 : double) (k12mod : int) (k1 : int) (sum1 : cplx)
  : result cplx :=
  let '(sum1r, sum1i) := sum1 in
  coef1r <- coef0 r_h1 (ncenter J1 L1) t1 k1 L1 ;;
  coef1i <- coef0 i_h1 (ncenter J1 L1) t1 k1 L1 ;;
  k1mod <- mymod k1 K1 ;;
  let kk := k12mod + k1mod in
  rck <- rd r_ck kk ;;
  ick <- rd i_ck kk ;;
  Ok (sum1r + (coef1r * rck - coef1i * ick),
      sum1i + (coef1r * ick + coef1i * rck))%Qc.

Definition complex0_j2 (t1 t2 : double) (koff1 : int) (k2 : int) (sum2 : cplx)
  : result cplx :=
  let '(sum2r, sum2i) := sum2 in
  coef2r <- coef0 r_h2 (ncenter J2 L2) t2 k2 L2 ;;
  coef2i <- coef0 i_h2 (ncenter J2 L2) t2 k2 L2 ;;
  k2mod <- mymod k2 K2 ;;
  let k12mod := k2mod * K1 in
  '(sum1r, sum1i) <- for_k (Z.to_nat J1) koff1 (complex0_j1 t1 k12mod) czero ;;
  Ok (sum2r + (coef2r * sum1r - coef2i * sum1i),
      sum2i + (coef2r * sum1i + coef2i * sum1r))%Qc.

Definition complex0_point (t1 t2 : double) : result cplx :=
  let koff1 := koff t1 J1 in
  let k2 := koff t2 J2 in
  for_k (Z.to_nat J2) k2 (complex0_j2 t1 t2 koff1) czero.

(** one iteration of the [omp for] loop, run by the worker that was
    handed index [mm]; it writes the worker's private buffers *)
Definition complex0_mm (p_tm : list double) (M : int) (mm : int)
    (priv : list (option double) * list (option double))
  : result (list (option double) * list (option double)) :=
  let '(r_fm_private, i_fm_private) := priv in
  t2 <- rd p_tm (M + mm) ;;
  t1 <- rd p_tm mm ;;
  '(sum2r, sum2i) <- complex0_point t1 t2 ;;
  r_fm_private <- wr r_fm_private mm (Some sum2r) ;;
  i_fm_private <- wr i_fm_private mm (Some sum2i) ;;
  Ok (r_fm_private, i_fm_private).

(** one iteration of the loop inside [omp critical] *)
Definition complex0_merge (priv : list (option double) * list (option double))
    (mm : int) (out : list double * list double)
  : result (list double * list double) :=
  let '(r_fm_private, i_fm_private) := priv in
  let '(r_fm, i_fm) := out in
  r <- rd r_fm mm ;;
  pr <- rd_cell r_fm_private mm ;;
  r_fm <- wr r_fm mm (r + pr)%Qc ;;
  i <- rd i_fm mm ;;
  pi <- rd_cell i_fm_private mm ;;
  i_fm <- wr i_fm mm (i + pi)%Qc ;;
  Ok (r_fm, i_fm).

(** One worker of the parallel region: allocate the private buffers,
    evaluate the indices it was handed, merge into the shared output. *)
Definition complex0_worker (p_tm : list double) (M : int) (idx : list int)
    (out : list double * list double) : result (list double * list double) :=
  priv <- for_each idx (complex0_mm p_tm M) (malloc M, malloc M) ;;
  for_k (Z.to_nat M) 0 (complex0_merge priv) out.

Fixpoint complex0_workers (p_tm : list double) (M : int)
    (sched : list (list int)) (out : list double * list double)
  : result (list double * list double) :=
  match sched with
  | [] => Ok out
  | idx :: rest =>
      out' <- complex0_worker p_tm M idx out ;;
      complex0_workers p_tm M rest out'
  end.

(** [sched] is the outcome of the dynamic schedule: one list of indices
    per worker.  The evaluation loops only read shared data and write
    private buffers, and the merges are serialised by the critical
    section, so the workers are run one after the other. *)
Definition interp2_table0_complex_per (sched : list (list int))
    (p_tm : list double) (M : int) (r_fm i_fm : list double)
  : result (list double * list double) :=
  r_fm <- memset0 r_fm M ;;
  i_fm <- memset0 i_fm M ;;
  complex0_workers p_tm M sched (r_fm, i_fm).
End Complex0.


(** ** The evaluator as the specification describes it

    A second set of definitions, written from the words of the
    specification (section 4.3): per query point a double sum over the
    window offsets [jj2] (outer) and [jj1] (inner), with
    [k_a = k_start_a + jj_a]; the results are written slot by slot.  The
    leaves (table sampler, periodic indexer, sign flip) are parameters. *)

Definition cadd (a b : cplx) : cplx :=
  (fst a + fst b, snd a + snd b)%Qc.

(** complex weight times complex coefficient *)
Definition cmul (w c : cplx) : cplx :=
  (fst w * fst c - snd w * snd c, fst w * snd c + snd w * fst c)%Qc.

(** real weight times complex coefficient *)
Definition smul (w : double) (c : cplx) : cplx :=
  (w * fst c, w * snd c)%Qc.

(** [acc + term j_1 + term j_2 + ...], left to right *)
Fixpoint sum_from (acc : cplx) (jjs : list nat) (term : nat -> result cplx)
  : result cplx :=
  match jjs with
  | [] => Ok acc
  | jj :: rest => v <- term jj ;; sum_from (cadd acc v) rest term
  end.

(** [sum_{jj = 0}^{n-1} term jj] *)
Definition sum_over (n : nat) (term : nat -> result cplx) : result cplx :=
  sum_from czero (seq 0 n) term.

(** the grid coefficient [c[kk]] *)
Definition grid_at (r_ck i_ck : list double) (kk : int) : result cplx :=
  r <- rd r_ck kk ;;
  i <- rd i_ck kk ;;
  Ok (r, i).

Section SeparableWindowEvaluator.
Context {W : Type}.
(** table sampler of each axis, at query coordinate [t] and neighbour [k] *)
Variables (sampler1 sampler2 : double -> int -> result W).
(** periodic indexer of each axis: [k |-> (kmod, wrap)] *)
Variables (indexer1 indexer2 : int -> result (int * int)).
(** optional sign flip of each axis, given the wrap count *)
Variables (flip1 flip2 : int -> W -> W).
Variable mul : W -> cplx -> cplx.
Variable c : int -> result cplx.
Variables (K1 J1 J2 : int).

(** contribution of the neighbour [k1] on the grid row [k2mod] *)
Definition spec_term1 (t1 : double) (k2mod : int) (k1 : int) : result cplx :=
  weight1 <- sampler1 t1 k1 ;;
  '(k1mod, wrap1) <- indexer1 k1 ;;
  let kk := k2mod * K1 + k1mod in
  ckk <- c kk ;;
  Ok (mul (flip1 wrap1 weight1) ckk).

(** contribution of the row [k2]: the axis-2 weight times the inner sum *)
Definition spec_term2 (t1 t2 : double) (k_start1 : int) (k2 : int)
  : result cplx :=
  weight2 <- sampler2 t2 k2 ;;
  '(k2mod, wrap2) <- indexer2 k2 ;;
  sum1 <- sum_over (Z.to_nat J1)
            (fun jj1 => spec_term1 t1 k2mod (k_start1 + Z.of_nat jj1)) ;;
  Ok (mul (flip2 wrap2 weight2) sum1).

Definition spec_point (t1 t2 : double) : result cplx :=
  let k_start1 := 1 + floor (t1 - of_int J1 / of_int 2)%Qc in
  let k_start2 := 1 + floor (t2 - of_int J2 / of_int 2)%Qc in
  sum_over (Z.to_nat J2)
    (fun jj2 => spec_term2 t1 t2 k_start1 (k_start2 + Z.of_nat jj2)).
End SeparableWindowEvaluator.

(** The three instantiations. *)

Definition no_flip {W : Type} (wrap : int) (w : W) : W := w.

Definition sampler0_complex (r_h i_h : list double) (J L : int)
    (t : double) (k : int) : result cplx :=
  re <- coef0 r_h (ncenter J L) t k L ;;
  im <- coef0 i_h (ncenter J L) t k L ;;
  Ok (re, im).

Definition spec_complex0_point (r_ck i_ck : list double) (K1 K2 : int)
    (r_h1 i_h1 r_h2 i_h2 : list double) (J1 J2 L1 L2 : int)
  : double -> double -> result cplx :=
  spec_point (sampler0_complex r_h1 i_h1 J1 L1) (sampler0_complex r_h2 i_h2 J2 L2)
    (fun k => periodic k K1) (fun k => periodic k K2)
    no_flip no_flip cmul (grid_at r_ck i_ck) K1 J1 J2.

Definition spec_real0_point (r_ck i_ck : list double) (K1 K2 : int)
    (r_h1 r_h2 : list double) (flips : option (int * int)) (J1 J2 L1 L2 : int)
  : double -> double -> result cplx :=
  spec_point (fun t k => coef0 r_h1 (ncenter J1 L1) t k L1)
    (fun t k => coef0 r_h2 (ncenter J2 L2) t k L2)
    (fun k => periodic k K1) (fun k => periodic k K2)
    (flip_sign (option_map fst flips)) (flip_sign (option_map snd flips))
    smul (grid_at r_ck i_ck) K1 J1 J2.

Definition spec_real1_point (r_ck i_ck : list double) (K1 K2 : int)
    (r_h1 r_h2 : list double) (flips : option (int * int)) (J1 J2 L1 L2 : int)
  : double -> double -> result cplx :=
  spec_point (fun t k => coef1 r_h1 (ncenter J1 L1) t k L1)
    (fun t k => coef1 r_h2 (ncenter J2 L2) t k L2)
    (fun k => periodic k K1) (fun k => periodic k K2)
    (flip_sign (option_map fst flips)) (flip_sign (option_map snd flips))
    smul (grid_at r_ck i_ck) K1 J1 J2.

(** For [m = 0 .. M-1]: the value of the query point [(p_tm[m], p_tm[M+m])]
    is written to slot [m] of the two output arrays. *)
Definition spec_slot (point : double -> double -> result cplx)
    (p_tm : list double) (M : int) (m : int)
    (out : list double * list double) : result (list double * list double) :=
  t2 <- rd p_tm (M + m) ;;
  t1 <- rd p_tm m ;;
  f <- point t1 t2 ;;
  r_fm <- wr (fst out) m (fst f) ;;
  i_fm <- wr (snd out) m (snd f) ;;
  Ok (r_fm, i_fm).

Definition spec_eval (point : double -> double -> result cplx)
    (p_tm : list double) (M : int) (r_fm i_fm : list double)
  : result (list double * list double) :=
  for_each (iota M) (spec_slot point p_tm M) (r_fm, i_fm).

(** The parallel evaluator clears the first [M] output slots first. *)
Definition spec_eval_cleared (point : double -> double -> result cplx)
    (p_tm : list double) (M : int) (r_fm i_fm : list double)
  : result (list double * list double) :=
  r_fm <- memset0 r_fm M ;;
  i_fm <- memset0 i_fm M ;;
  spec_eval point p_tm M r_fm i_fm.

(** ** Evaluation on a periodically replicated grid

    Written from the words of the specification (section 8, periodic
    wraparound correctness): the grid coefficients are replicated over all
    integer positions and the window is indexed by the neighbours
    [(k1, k2)] themselves, with no wraparound indexing. *)


Section NoWraparound.
Context {W : Type}.
Variables (sampler1 sampler2 : double -> int -> result W).
Variable mul : W -> cplx -> cplx.
Variable g : int -> int -> result cplx.
Variables (J1 J2 : int).



End NoWraparound.

(** The query points moved by [d1] along axis 1 and by [d2] along axis 2:
    the first [M] cells of [p_tm] are the axis-1 coordinates, the next [M]
    the axis-2 coordinates. *)
Definition shift_coords (d1 d2 : double) (M : int) (p_tm : list double)
  : list double :=
  map (fun t => (t + d1)%Qc) (firstn (Z.to_nat M) p_tm)
  ++ map (fun t => (t + d2)%Qc) (skipn (Z.to_nat M) p_tm).

(** The same for query points at integer coordinates [zs]. *)
Definition shift_ints (d1 d2 : int) (M : int) (zs : list int) : list int :=
  map (fun z => z + d1) (firstn (Z.to_nat M) zs)
  ++ map (fun z => z + d2) (skipn (Z.to_nat M) zs).

(** Integer coordinates and window widths small enough that every [int]
    of an evaluation fits 32 bits. *)
Definition int_ranged (zs : list int) (J1 J2 : int) : Prop :=
  Forall (fun z => - 2 ^ 30 <= z <= 2 ^ 30) zs /\ J1 <= 2 ^ 30 /\ J2 <= 2 ^ 30.

(** The sign flips are off: the build has no [Provide_flip], or both flags
    are zero. *)
Definition flips_off (flips : option (int * int)) : Prop :=
  flips = None \/ flips = Some (0, 0).

(** ** Data of the end-to-end example

    [K1 = K2 = 4], [J1 = J2 = 2], [L1 = L2 = 1], delta tables [[0,1,0]], a
    grid holding 1 at [(0,0)] and 0 elsewhere. *)

Definition delta_table : list double := [Q2Qc 0; Q2Qc 1; Q2Qc 0].
Definition zero_table : list double := [Q2Qc 0; Q2Qc 0; Q2Qc 0].
Definition delta_grid_r : list double := Q2Qc 1 :: repeat (Q2Qc 0) 15.
Definition delta_grid_i : list double := repeat (Q2Qc 0) 16.

(** ** Auxiliary definitions for the proofs *)

(** The values of the query points with the given indices, in order. *)
Fixpoint points_of (pt : int -> result cplx) (idx : list int)
  : result (list cplx) :=
  match idx with
  | [] => Ok []
  | m :: rest =>
      v <- pt m ;;
      vs <- points_of pt rest ;;
      Ok (v :: vs)
  end.

(** The query point [m] of the coordinate array [p_tm]. *)
Definition point_at (point : double -> double -> result cplx)
    (p_tm : list double) (M : int) (m : int) : result cplx :=
  t2 <- rd p_tm (M + m) ;;
  t1 <- rd p_tm m ;;
  point t1 t2.

(** Writing the value of point [m] to slot [m] of two arrays of cells. *)
Definition fill_slot {A : Type} (inj : double -> A) (pt : int -> result cplx)
    (m : int) (out : list A * list A) : result (list A * list A) :=
  v <- pt m ;;
  a <- wr (fst out) m (inj (fst v)) ;;
  b <- wr (snd out) m (inj (snd v)) ;;
  Ok (a, b).

(** ** Array sizes the evaluators are written for

    The comments of the source give the sizes: tables [[J*L+1, 1]], grids
    [[K1, K2]], query points [[M, 2]], outputs [[M, 1]]. *)

Definition table_sized (h : list double) (J L : int) : Prop :=
  0 < L /\ Z.even (J * L) = true /\ Z.of_nat (length h) = J * L + 1.

Definition grid_sized (ck : list double) (K1 K2 : int) : Prop :=
  0 < K1 /\ 0 < K2 /\ Z.of_nat (length ck) = K1 * K2.

Definition points_sized (p_tm : list double) (M : int) : Prop :=
  Z.of_nat (length p_tm) = 2 * M.

Definition output_sized (fm : list double) (M : int) : Prop :=
  0 <= M <= Z.of_nat (length fm).

(** ** Values with a sign *)

Definition cneg (v : cplx) : cplx := (- fst v, - snd v)%Qc.

(** [v] or [-v] *)
Definition csign (negate : bool) (v : cplx) : cplx :=
  if negate then cneg v else v.

Definition dsign (negate : bool) (x : double) : double :=
  if negate then (- x)%Qc else x.


(** Real and imaginary part exchanged. *)
Definition cswap {A : Type} (v : A * A) : A * A := (snd v, fst v).


(** * The evaluators in binary64 arithmetic

    The same three evaluators with a C [double] as an IEEE-754 binary64
    number ([spec_float] with 53 bits of precision and [emax = 1024]):
    every operation rounds to nearest, ties to even, and can overflow to
    an infinity or produce a NaN.  The conversion of a [double] to [int]
    is undefined in C when the value is a NaN, an infinity or outside the
    32-bit range; here it is a fault ([OutOfRange]).  The [int]
    arithmetic itself stays in [Z]: the products [J * L], [K * wrap] and
    [k2mod * K1] are bounded by the sizes of the tables and of the grid.
    Arrays, loops and faults are those of the exact model above. *)

Module B64.

Definition prec : Z := 53.
Definition emax : Z := 1024.

Definition double := spec_float.

Definition add (x y : double) : double := SFadd prec emax x y.
Definition sub (x y : double) : double := SFsub prec emax x y.
Definition mul (x y : double) : double := SFmul prec emax x y.
Definition div (x y : double) : double := SFdiv prec emax x y.
Definition neg (x : double) : double := SFopp x.

(** [0.0], also what [memset] to zero bytes leaves in a [double] *)
Definition zero : double := S754_zero false.

(** [(double) k]; exact for every 32-bit [k] *)
Definition of_int (k : int) : double := binary_normalize prec emax k 0 false.

(** [floor(x)], a [double] *)
Definition floor (x : double) : double :=
  match x with
  | S754_finite s m e =>
      if 0 <=? e then x
      else of_int (cond_Zopp s (Zpos m) / 2 ^ (- e))
  | _ => x
  end.

Definition in_int (v : Z) : result int :=
  if (- 2 ^ 31 <=? v) && (v <? 2 ^ 31) then Ok v else Err OutOfRange.

(** A [double] assigned to an [int]: the fraction is discarded. *)
Definition to_int (x : double) : result int :=
  match x with
  | S754_zero _ => Ok 0
  | S754_finite s m e =>
      in_int (if 0 <=? e then cond_Zopp s (Zpos m) * 2 ^ e
              else Z.quot (cond_Zopp s (Zpos m)) (2 ^ (- e)))
  | _ => Err OutOfRange
  end.

(** Modelled from the spec: the macro [iround] of [def,table2.h], which is
    not part of the sources at hand.  The spec describes it as rounding to
    the nearest integer, ties away from zero; the result is an [int]. *)
Definition iround (x : double) : result int :=
  match x with
  | S754_zero _ => Ok 0
  | S754_finite s m e =>
      in_int (cond_Zopp s
                (if 0 <=? e then Zpos m * 2 ^ e
                 else (Zpos m + 2 ^ (- e - 1)) / 2 ^ (- e)))
  | _ => Err OutOfRange
  end.

(** ** Pieces shared by the three evaluators *)

(** [const int ncenter = floor(J * L/2.);] *)
Definition ncenter (J L : int) : result int :=
  to_int (floor (div (of_int (J * L)) (of_int 2))).

(** [1 + floor(t - J / 2.)], assigned to an [int] *)
Definition koff (t : double) (J : int) : result int :=
  to_int (add (of_int 1) (floor (sub t (div (of_int J) (of_int 2))))).

(** [p = (t - k) * L] *)
Definition offset (t : double) (k L : int) : double :=
  mul (sub t (of_int k)) (of_int L).

(** [floor(k / (double) K)], assigned to an [int] *)
Definition wrap_of (k K : int) : result int :=
  to_int (floor (div (of_int k) (of_int K))).

(** [wrap = floor(k / (double) K); kmod = k - K * wrap;] *)
Definition periodic (k K : int) : result (int * int) :=
  wrap <- wrap_of k K ;;
  Ok (k - K * wrap, wrap).

(** Modelled from the spec: the macro [mymod] of [def,table2.h], the first
    component of the periodic indexer. *)
Definition mymod (k K : int) : result int :=
  '(kmod, _) <- periodic k K ;;
  Ok kmod.

(** [if (flip && (wrap % 2)) coef = -coef;] *)
Definition flip_sign (flip : option int) (wrap : int) (coef : double) : double :=
  match flip with
  | Some f =>
      if negb (f =? 0) && negb (Z.rem wrap 2 =? 0) then neg coef else coef
  | None => coef
  end.

(** [n = iround(p); coef = h[n]] with [h] advanced by [nc] *)
Definition coef0 (h : list double) (nc : int) (t : double) (k L : int)
  : result double :=
  let p := offset t k L in
  n <- iround p ;;
  rd h (nc + n).

(** [n = floor(p); alf = p - n;]: the pair [(n, alf)] *)
Definition split_offset (p : double) : result (int * double) :=
  n <- to_int (floor p) ;;
  Ok (n, sub p (of_int n)).

(** [ph = h + n; coef = (1 - alf) * *ph + alf * *(ph+1);] *)
Definition coef1 (h : list double) (nc : int) (t : double) (k L : int)
  : result double :=
  let p := offset t k L in
  '(n, alf) <- split_offset p ;;
  let ph := nc + n in
  a <- rd h ph ;;
  b <- rd h (ph + 1) ;;
  Ok (add (mul (sub (of_int 1) alf) a) (mul alf b)).

Definition cplx := (double * double)%type.

Definition czero : cplx := (zero, zero).

(** [memset(a, 0, M * sizeof( *a))] *)
Definition memset0 (a : list double) (M : int) : result (list double) :=
  if (0 <=? M) && (M <=? Z.of_nat (length a))
  then Ok (repeat zero (Z.to_nat M) ++ skipn (Z.to_nat M) a)
  else Err OutOfRange.

(** [malloc(M * sizeof(double))] *)
Definition malloc (M : int) : list (option double) :=
  repeat None (Z.to_nat M).

Definition rd_cell (a : list (option double)) (i : int) : result double :=
  c <- rd a i ;;
  match c with
  | Some v => Ok v
  | None => Err Uninitialised
  end.

(** ** [interp2_table0_real_per] *)

Section Real0.
Variables (r_ck i_ck : list double) (K1 K2 : int).
Variables (r_h1 r_h2 : list double).
Variable flips : option (int * int).
Variables (J1 J2 L1 L2 : int).

Section Centred.
(** the table pointers have been advanced by [ncenter1], [ncenter2] *)
Variables (ncenter1 ncenter2 : int).

Definition real0_j1 (t1 : double) (k12mod : int) (k1 : int) (sum1 : cplx)
  : result cplx :=
  let '(sum1r, sum1i) := sum1 in
  coef1r <- coef0 r_h1 ncenter1 t1 k1 L1 ;;
  '(k1mod, wrap1) <- periodic k1 K1 ;;
  let kk := k12mod + k1mod in
  let coef1r := flip_sign (option_map fst flips) wrap1 coef1r in
  rck <- rd r_ck kk ;;
  ick <- rd i_ck kk ;;
  Ok (add sum1r (mul coef1r rck), add sum1i (mul coef1r ick)).

Definition real0_j2 (t1 t2 : double) (koff1 : int) (k2 : int) (sum2 : cplx)
  : result cplx :=
  let '(sum2r, sum2i) := sum2 in
  coef2r <- coef0 r_h2 ncenter2 t2 k2 L2 ;;
  '(k2mod, wrap2) <- periodic k2 K2 ;;
  let k12mod := k2mod * K1 in
  let coef2r := flip_sign (option_map snd flips) wrap2 coef2r in
  '(sum1r, sum1i) <- for_k (Z.to_nat J1) koff1 (real0_j1 t1 k12mod) czero ;;
  Ok (add sum2r (mul coef2r sum1r), add sum2i (mul coef2r sum1i)).

Definition real0_point (t1 t2 : double) : result cplx :=
  koff1 <- koff t1 J1 ;;
  k2 <- koff t2 J2 ;;
  for_k (Z.to_nat J2) k2 (real0_j2 t1 t2 koff1) czero.

Definition real0_mm (p_tm : list double) (M : int) (mm : int)
    (out : list double * list double) : result (list double * list double) :=
  let '(r_fm, i_fm) := out in
  t2 <- rd p_tm (mm + M) ;;
  t1 <- rd p_tm mm ;;
  '(sum2r, sum2i) <- real0_point t1 t2 ;;
  r_fm <- wr r_fm mm sum2r ;;
  i_fm <- wr i_fm mm sum2i ;;
  Ok (r_fm, i_fm).
End Centred.

Definition interp2_table0_real_per (p_tm : list double) (M : int)
    (r_fm i_fm : list double) : result (list double * list double) :=
  ncenter1 <- ncenter J1 L1 ;;
  ncenter2 <- ncenter J2 L2 ;;
  for_k (Z.to_nat M) 0 (real0_mm ncenter1 ncenter2 p_tm M) (r_fm, i_fm).
End Real0.

(** ** [interp2_table1_real_per] *)

Section Real1.
Variables (r_ck i_ck : list double) (K1 K2 : int).
Variables (r_h1 r_h2 : list double).
Variable flips : option (int * int).
Variables (J1 J2 L1 L2 : int).

Section Centred.
Variables (ncenter1 ncenter2 : int).

Definition real1_j1 (t1 : double) (k12mod : int) (k1 : int) (sum1 : cplx)
  : result cplx :=
  let '(sum1r, sum1i) := sum1 in
  coef1r <- coef1 r_h1 ncenter1 t1 k1 L1 ;;
  '(k1mod, wrap1) <- periodic k1 K1 ;;
  let kk := k12mod + k1mod in
  let coef1r := flip_sign (option_map fst flips) wrap1 coef1r in
  rck <- rd r_ck kk ;;
  ick <- rd i_ck kk ;;
  Ok (add sum1r (mul coef1r rck), add sum1i (mul coef1r ick)).

Definition real1_j2 (t1 t2 : double) (koff1 : int) (k2 : int) (sum2 : cplx)
  : result cplx :=
  let '(sum2r, sum2i) := sum2 in
  coef2r <- coef1 r_h2 ncenter2 t2 k2 L2 ;;
  '(k2mod, wrap2) <- periodic k2 K2 ;;
  let k12mod := k2mod * K1 in
  let coef2r := flip_sign (option_map snd flips) wrap2 coef2r in
  '(sum1r, sum1i) <- for_k (Z.to_nat J1) koff1 (real1_j1 t1 k12mod) czero ;;
  Ok (add sum2r (mul coef2r sum1r), add sum2i (mul coef2r sum1i)).

Definition real1_point (t1 t2 : double) : result cplx :=
  koff1 <- koff t1 J1 ;;
  k2 <- koff t2 J2 ;;
  for_k (Z.to_nat J2) k2 (real1_j2 t1 t2 koff1) czero.

Definition real1_mm (p_tm : list double) (M : int) (mm : int)
    (out : list double * list double) : result (list double * list double) :=
  let '(r_fm, i_fm) := out in
  t2 <- rd p_tm (mm + M) ;;
  t1 <- rd p_tm mm ;;
  '(sum2r, sum2i) <- real1_point t1 t2 ;;
  r_fm <- wr r_fm mm sum2r ;;
  i_fm <- wr i_fm mm sum2i ;;
  Ok (r_fm, i_fm).
End Centred.

Definition interp2_table1_real_per (p_tm : list double) (M : int)
    (r_fm i_fm : list double) : result (list double * list double) :=
  ncenter1 <- ncenter J1 L1 ;;
  ncenter2 <- ncenter J2 L2 ;;
  for_k (Z.to_nat M) 0 (real1_mm ncenter1 ncenter2 p_tm M) (r_fm, i_fm).
End Real1.

(** ** [interp2_table0_complex_per] *)

Section Complex0.
Variables (r_ck i_ck : list double) (K1 K2 : int).
Variables (r_h1 i_h1 r_h2 i_h2 : list double).
Variables (J1 J2 L1 L2 : int).

Section Centred.
Variables (ncenter1 ncenter2 : int).

Definition complex0_j1 (t1 : double) (k12mod : int) (k1 : int) (sum1 : cplx)
  : result cplx :=
  let '(sum1r, sum1i) := sum1 in
  coef1r <- coef0 r_h1 ncenter1 t1 k1 L1 ;;
  coef1i <- coef0 i_h1 ncenter1 t1 k1 L1 ;;
  k1mod <- mymod k1 K1 ;;
  let kk := k12mod + k1mod in
  rck <- rd r_ck kk ;;
  ick <- rd i_ck kk ;;
  Ok (add sum1r (sub (mul coef1r rck) (mul coef1i ick)),
      add sum1i (add (mul coef1r ick) (mul coef1i rck))).

Definition complex0_j2 (t1 t2 : double) (koff1 : int) (k2 : int) (sum2 : cplx)
  : result cplx :=
  let '(sum2r, sum2i) := sum2 in
  coef2r <- coef0 r_h2 ncenter2 t2 k2 L2 ;;
  coef2i <- coef0 i_h2 ncenter2 t2 k2 L2 ;;
  k2mod <- mymod k2 K2 ;;
  let k12mod := k2mod * K1 in
  '(sum1r, sum1i) <- for_k (Z.to_nat J1) koff1 (complex0_j1 t1 k12mod) czero ;;
  Ok (add sum2r (sub (mul coef2r sum1r) (mul coef2i sum1i)),
      add sum2i (add (mul coef2r sum1i) (mul coef2i sum1r))).

Definition complex0_point (t1 t2 : double) : result cplx :=
  koff1 <- koff t1 J1 ;;
  k2 <- koff t2 J2 ;;
  for_k (Z.to_nat J2) k2 (complex0_j2 t1 t2 koff1) czero.

Definition complex0_mm (p_tm : list double) (M : int) (mm : int)
    (priv : list (option double) * list (option double))
  : result (list (option double) * list (option double)) :=
  let '(r_fm_private, i_fm_private) := priv in
  t2 <- rd p_tm (M + mm) ;;
  t1 <- rd p_tm mm ;;
  '(sum2r, sum2i) <- complex0_point t1 t2 ;;
  r_fm_private <- wr r_fm_private mm (Some sum2r) ;;
  i_fm_private <- wr i_fm_private mm (Some sum2i) ;;
  Ok (r_fm_private, i_fm_private).

Definition complex0_merge (priv : list (option double) * list (option double))
    (mm : int) (out : list double * list double)
  : result (list double * list double) :=
  let '(r_fm_private, i_fm_private) := priv in
  let '(r_fm, i_fm) := out in
  r <- rd r_fm mm ;;
  pr <- rd_cell r_fm_private mm ;;
  r_fm <- wr r_fm mm (add r pr) ;;
  i <- rd i_fm mm ;;
  pi <- rd_cell i_fm_private mm ;;
  i_fm <- wr i_fm mm (add i pi) ;;
  Ok (r_fm, i_fm).

Definition complex0_worker (p_tm : list double) (M : int) (idx : list int)
    (out : list double * list double) : result (list double * list double) :=
  priv <- for_each idx (complex0_mm p_tm M) (malloc M, malloc M) ;;
  for_k (Z.to_nat M) 0 (complex0_merge priv) out.

Fixpoint complex0_workers (p_tm : list double) (M : int)
    (sched : list (list int)) (out : list double * list double)
  : result (list double * list double) :=
  match sched with
  | [] => Ok out
  | idx :: rest =>
      out' <- complex0_worker p_tm M idx out ;;
      complex0_workers p_tm M rest out'
  end.
End Centred.

Definition interp2_table0_complex_per (sched : list (list int))
    (p_tm : list double) (M : int) (r_fm i_fm : list double)
  : result (list double * list double) :=
  ncenter1 <- ncenter J1 L1 ;;
  ncenter2 <- ncenter J2 L2 ;;
  r_fm <- memset0 r_fm M ;;
  i_fm <- memset0 i_fm M ;;
  complex0_workers ncenter1 ncenter2 p_tm M sched (r_fm, i_fm).
End Complex0.

(** ** Values *)

Definition is_zero (x : double) : bool :=
  match x with S754_zero _ => true | _ => false end.

(** neither an infinity nor a NaN *)
Definition is_finite (x : double) : bool :=
  match x with S754_zero _ | S754_finite _ _ _ => true | _ => false end.

(** The same number: equal, or two zeros (which may differ in sign). *)
Definition same_number (x y : double) : Prop :=
  x = y \/ (is_zero x = true /\ is_zero y = true).

(** A table of the same length with every sample [0.0]. *)
Definition zeros (h : list double) : list double := map (fun _ => zero) h.

Definition csame (v w : cplx) : Prop :=
  same_number (fst v) (fst w) /\ same_number (snd v) (snd w).

Definition cfinite (v : cplx) : Prop :=
  is_finite (fst v) = true /\ is_finite (snd v) = true.


(** ** Data of the examples *)

Definition one : double := of_int 1.
Definition two : double := of_int 2.

(** [1/2] *)
Definition half : double := div one two.

(** [3 * 2^1022], a finite number; twice as much is not *)
Definition huge : double := S754_finite false (3 * 2 ^ 51) 971.

(** [- (1 + 2^-52)], the first number below [-1] *)
Definition below_minus_one : double := S754_finite true (2 ^ 52 + 1) (- 52).



Definition delta_table : list double := [zero; one; zero].
Definition ones_table : list double := [one; one; one].
Definition tent_table : list double := [half; one; half].
Definition delta_grid_r : list double := one :: repeat zero 15.
Definition delta_grid_i : list double := repeat zero 16.

(** ** Auxiliary definitions for the proofs *)

Fixpoint points_of (pt : int -> result cplx) (idx : list int)
  : result (list cplx) :=
  match idx with
  | [] => Ok []
  | m :: rest =>
      v <- pt m ;;
      vs <- points_of pt rest ;;
      Ok (v :: vs)
  end.

Definition point_at (point : double -> double -> result cplx)
    (p_tm : list double) (M : int) (m : int) : result cplx :=
  t2 <- rd p_tm (M + m) ;;
  t1 <- rd p_tm m ;;
  point t1 t2.

Definition fill_slot {A : Type} (inj : double -> A) (pt : int -> result cplx)
    (m : int) (out : list A * list A) : result (list A * list A) :=
  v <- pt m ;;
  a <- wr (fst out) m (inj (fst v)) ;;
  b <- wr (snd out) m (inj (snd v)) ;;
  Ok (a, b).

End B64.
(** * Proofs *)

(** ** The error monad and the loops *)

Lemma bind_assoc {A B C : Type} (m : result A) (f : A -> result B)
    (g : B -> result C) :
  bind (bind m f) g = bind m (fun a => bind (f a) g).
Proof. destruct m; reflexivity. Qed.

Lemma bind_ext {A B : Type} (m : result A) (f g : A -> result B) :
  (forall a, f a = g a) -> bind m f = bind m g.
Proof. intros H; destruct m; simpl; auto. Qed.

Lemma for_k_ext {St : Type} (b b' : int -> St -> result St) :
  (forall k s, b k s = b' k s) ->
  forall n k s, for_k n k b s = for_k n k b' s.
Proof.
  intros Hb n; induction n as [|n IH]; intros k s; simpl; [reflexivity|].
  rewrite Hb. apply bind_ext. intros s'. apply IH.
Qed.

Lemma for_each_ext {St : Type} (b b' : int -> St -> result St) :
  (forall k s, b k s = b' k s) ->
  forall idx s, for_each idx b s = for_each idx b' s.
Proof.
  intros Hb idx; induction idx as [|i idx IH]; intros s; simpl; [reflexivity|].
  rewrite Hb. apply bind_ext. intros s'. apply IH.
Qed.

Lemma for_k_for_each {St : Type} (body : int -> St -> result St) :
  forall n j k s,
    for_k n (k + Z.of_nat j) body s
    = for_each (map (fun i => k + Z.of_nat i) (seq j n)) body s.
Proof.
  induction n as [|n IH]; intros j k s; simpl; [reflexivity|].
  apply bind_ext. intros s'.
  rewrite <- IH. f_equal. lia.
Qed.

Lemma for_k_iota {St : Type} (body : int -> St -> result St) n s :
  for_k n 0 body s = for_each (map Z.of_nat (seq 0 n)) body s.
Proof.
  change 0 with (0 + Z.of_nat 0) at 1. rewrite for_k_for_each.
  reflexivity.
Qed.

Lemma sum_from_ext (f g : nat -> result cplx) :
  (forall jj, f jj = g jj) ->
  forall jjs acc, sum_from acc jjs f = sum_from acc jjs g.
Proof.
  intros H jjs; induction jjs as [|jj jjs IH]; intros acc; simpl; [reflexivity|].
  rewrite H. apply bind_ext. intros v. apply IH.
Qed.

(** A loop whose body adds one term to the running sum is the sum of the
    terms over [k0, k0 + 1, ...]. *)
Lemma for_k_sum_from_gen (body : int -> cplx -> result cplx)
    (term : int -> result cplx) :
  (forall k s, body k s = v <- term k ;; Ok (cadd s v)) ->
  forall n j k0 s,
    for_k n k0 body s
    = sum_from s (seq j n) (fun jj => term (k0 + Z.of_nat jj - Z.of_nat j)).
Proof.
  intros Hb n; induction n as [|n IH]; intros j k0 s; simpl; [reflexivity|].
  rewrite Hb. replace (k0 + Z.of_nat j - Z.of_nat j) with k0 by lia.
  rewrite bind_assoc. apply bind_ext. intros v. simpl.
  rewrite (IH (S j)). apply sum_from_ext. intros jj. f_equal. lia.
Qed.

Lemma for_k_sum_over (body : int -> cplx -> result cplx)
    (term : int -> result cplx) :
  (forall k s, body k s = v <- term k ;; Ok (cadd s v)) ->
  forall n k0,
    for_k n k0 body czero = sum_over n (fun jj => term (k0 + Z.of_nat jj)).
Proof.
  intros Hb n k0. unfold sum_over.
  rewrite (for_k_sum_from_gen body term Hb n 0%nat).
  apply sum_from_ext. intros jj. f_equal. lia.
Qed.

Lemma sum_over_ext (f g : nat -> result cplx) n :
  (forall jj, f jj = g jj) -> sum_over n f = sum_over n g.
Proof. intros H. apply sum_from_ext, H. Qed.

(** ** The loop bodies add one term of the double sum *)

Lemma real0_j1_term r_ck i_ck K1 r_h1 flips J1 L1 t1 k2mod k1 s :
  real0_j1 r_ck i_ck K1 r_h1 flips J1 L1 t1 (k2mod * K1) k1 s
  = v <- spec_term1 (fun t k => coef0 r_h1 (ncenter J1 L1) t k L1)
          (fun k => periodic k K1) (flip_sign (option_map fst flips))
          smul (grid_at r_ck i_ck) K1 t1 k2mod k1 ;;
    Ok (cadd s v).
Proof.
  unfold real0_j1, spec_term1, grid_at. destruct s as [sr si].
  destruct (coef0 _ _ _ _ _); simpl; [|reflexivity].
  destruct (periodic k1 K1) as [[kmod wrap]|]; simpl; [|reflexivity].
  destruct (rd r_ck _); simpl; [|reflexivity].
  destruct (rd i_ck _); reflexivity.
Qed.

Lemma real1_j1_term r_ck i_ck K1 r_h1 flips J1 L1 t1 k2mod k1 s :
  real1_j1 r_ck i_ck K1 r_h1 flips J1 L1 t1 (k2mod * K1) k1 s
  = v <- spec_term1 (fun t k => coef1 r_h1 (ncenter J1 L1) t k L1)
          (fun k => periodic k K1) (flip_sign (option_map fst flips))
          smul (grid_at r_ck i_ck) K1 t1 k2mod k1 ;;
    Ok (cadd s v).
Proof.
  unfold real1_j1, spec_term1, grid_at. destruct s as [sr si].
  destruct (coef1 _ _ _ _ _); simpl; [|reflexivity].
  destruct (periodic k1 K1) as [[kmod wrap]|]; simpl; [|reflexivity].
  destruct (rd r_ck _); simpl; [|reflexivity].
  destruct (rd i_ck _); reflexivity.
Qed.

Lemma complex0_j1_term r_ck i_ck K1 r_h1 i_h1 J1 L1 t1 k2mod k1 s :
  complex0_j1 r_ck i_ck K1 r_h1 i_h1 J1 L1 t1 (k2mod * K1) k1 s
  = v <- spec_term1 (sampler0_complex r_h1 i_h1 J1 L1)
          (fun k => periodic k K1) no_flip
          cmul (grid_at r_ck i_ck) K1 t1 k2mod k1 ;;
    Ok (cadd s v).
Proof.
  unfold complex0_j1, spec_term1, sampler0_complex, grid_at, mymod.
  destruct s as [sr si].
  destruct (coef0 r_h1 _ _ _ _); simpl; [|reflexivity].
  destruct (coef0 i_h1 _ _ _ _); simpl; [|reflexivity].
  destruct (periodic k1 K1) as [[kmod wrap]|]; simpl; [|reflexivity].
  destruct (rd r_ck _); simpl; [|reflexivity].
  destruct (rd i_ck _); reflexivity.
Qed.

Lemma real0_j2_term r_ck i_ck K1 K2 r_h1 r_h2 flips J1 J2 L1 L2 t1 t2 koff1 k2 s :
  real0_j2 r_ck i_ck K1 K2 r_h1 r_h2 flips J1 J2 L1 L2 t1 t2 koff1 k2 s
  = v <- spec_term2 (fun t k => coef0 r_h1 (ncenter J1 L1) t k L1)
          (fun t k => coef0 r_h2 (ncenter J2 L2) t k L2)
          (fun k => periodic k K1) (fun k => periodic k K2)
          (flip_sign (option_map fst flips)) (flip_sign (option_map snd flips))
          smul (grid_at r_ck i_ck) K1 J1 t1 t2 koff1 k2 ;;
    Ok (cadd s v).
Proof.
  unfold real0_j2, spec_term2. destruct s as [sr si].
  destruct (coef0 _ _ _ _ _); simpl; [|reflexivity].
  destruct (periodic k2 K2) as [[kmod wrap]|]; simpl; [|reflexivity].
  rewrite (for_k_sum_over _ _ (real0_j1_term r_ck i_ck K1 r_h1 flips J1 L1 t1 kmod)).
  destruct (sum_over _ _) as [[s1r s1i]|]; reflexivity.
Qed.

Lemma real1_j2_term r_ck i_ck K1 K2 r_h1 r_h2 flips J1 J2 L1 L2 t1 t2 koff1 k2 s :
  real1_j2 r_ck i_ck K1 K2 r_h1 r_h2 flips J1 J2 L1 L2 t1 t2 koff1 k2 s
  = v <- spec_term2 (fun t k => coef1 r_h1 (ncenter J1 L1) t k L1)
          (fun t k => coef1 r_h2 (ncenter J2 L2) t k L2)
          (fun k => periodic k K1) (fun k => periodic k K2)
          (flip_sign (option_map fst flips)) (flip_sign (option_map snd flips))
          smul (grid_at r_ck i_ck) K1 J1 t1 t2 koff1 k2 ;;
    Ok (cadd s v).
Proof.
  unfold real1_j2, spec_term2. destruct s as [sr si].
  destruct (coef1 _ _ _ _ _); simpl; [|reflexivity].
  destruct (periodic k2 K2) as [[kmod wrap]|]; simpl; [|reflexivity].
  rewrite (for_k_sum_over _ _ (real1_j1_term r_ck i_ck K1 r_h1 flips J1 L1 t1 kmod)).
  destruct (sum_over _ _) as [[s1r s1i]|]; reflexivity.
Qed.

Lemma complex0_j2_term r_ck i_ck K1 K2 r_h1 i_h1 r_h2 i_h2 J1 J2 L1 L2
    t1 t2 koff1 k2 s :
  complex0_j2 r_ck i_ck K1 K2 r_h1 i_h1 r_h2 i_h2 J1 J2 L1 L2 t1 t2 koff1 k2 s
  = v <- spec_term2 (sampler0_complex r_h1 i_h1 J1 L1)
          (sampler0_complex r_h2 i_h2 J2 L2)
          (fun k => periodic k K1) (fun k => periodic k K2)
          no_flip no_flip cmul (grid_at r_ck i_ck) K1 J1 t1 t2 koff1 k2 ;;
    Ok (cadd s v).
Proof.
  unfold complex0_j2, spec_term2, sampler0_complex, mymod.
  destruct s as [sr si].
  destruct (coef0 r_h2 _ _ _ _); simpl; [|reflexivity].
  destruct (coef0 i_h2 _ _ _ _); simpl; [|reflexivity].
  destruct (periodic k2 K2) as [[kmod wrap]|]; simpl; [|reflexivity].
  rewrite (for_k_sum_over _ _ (complex0_j1_term r_ck i_ck K1 r_h1 i_h1 J1 L1 t1 kmod)).
  destruct (sum_over _ _) as [[s1r s1i]|]; reflexivity.
Qed.

(** ** One query point *)

Lemma real0_point_spec r_ck i_ck K1 K2 r_h1 r_h2 flips J1 J2 L1 L2 t1 t2 :
  real0_point r_ck i_ck K1 K2 r_h1 r_h2 flips J1 J2 L1 L2 t1 t2
  = spec_real0_point r_ck i_ck K1 K2 r_h1 r_h2 flips J1 J2 L1 L2 t1 t2.
Proof.
  unfold real0_point, spec_real0_point, spec_point, koff.
  apply (for_k_sum_over _ _
           (real0_j2_term r_ck i_ck K1 K2 r_h1 r_h2 flips J1 J2 L1 L2 t1 t2 _)).
Qed.

Lemma real1_point_spec r_ck i_ck K1 K2 r_h1 r_h2 flips J1 J2 L1 L2 t1 t2 :
  real1_point r_ck i_ck K1 K2 r_h1 r_h2 flips J1 J2 L1 L2 t1 t2
  = spec_real1_point r_ck i_ck K1 K2 r_h1 r_h2 flips J1 J2 L1 L2 t1 t2.
Proof.
  unfold real1_point, spec_real1_point, spec_point, koff.
  apply (for_k_sum_over _ _
           (real1_j2_term r_ck i_ck K1 K2 r_h1 r_h2 flips J1 J2 L1 L2 t1 t2 _)).
Qed.

Lemma complex0_point_spec r_ck i_ck K1 K2 r_h1 i_h1 r_h2 i_h2 J1 J2 L1 L2 t1 t2 :
  complex0_point r_ck i_ck K1 K2 r_h1 i_h1 r_h2 i_h2 J1 J2 L1 L2 t1 t2
  = spec_complex0_point r_ck i_ck K1 K2 r_h1 i_h1 r_h2 i_h2 J1 J2 L1 L2 t1 t2.
Proof.
  unfold complex0_point, spec_complex0_point, spec_point, koff.
  apply (for_k_sum_over _ _
           (complex0_j2_term r_ck i_ck K1 K2 r_h1 i_h1 r_h2 i_h2 J1 J2 L1 L2 t1 t2 _)).
Qed.

(** ** The sequential evaluators, slot by slot *)

Lemma real0_mm_slot r_ck i_ck K1 K2 r_h1 r_h2 flips J1 J2 L1 L2 p_tm M mm out :
  real0_mm r_ck i_ck K1 K2 r_h1 r_h2 flips J1 J2 L1 L2 p_tm M mm out
  = spec_slot (real0_point r_ck i_ck K1 K2 r_h1 r_h2 flips J1 J2 L1 L2)
      p_tm M mm out.
Proof.
  unfold real0_mm, spec_slot. destruct out as [r_fm i_fm].
  rewrite (Z.add_comm mm M).
  do 2 (apply bind_ext; intros ?).
  destruct (real0_point _ _ _ _ _ _ _ _ _ _ _ _ _) as [[fr fi]|]; reflexivity.
Qed.

Lemma real1_mm_slot r_ck i_ck K1 K2 r_h1 r_h2 flips J1 J2 L1 L2 p_tm M mm out :
  real1_mm r_ck i_ck K1 K2 r_h1 r_h2 flips J1 J2 L1 L2 p_tm M mm out
  = spec_slot (real1_point r_ck i_ck K1 K2 r_h1 r_h2 flips J1 J2 L1 L2)
      p_tm M mm out.
Proof.
  unfold real1_mm, spec_slot. destruct out as [r_fm i_fm].
  rewrite (Z.add_comm mm M).
  do 2 (apply bind_ext; intros ?).
  destruct (real1_point _ _ _ _ _ _ _ _ _ _ _ _ _) as [[fr fi]|]; reflexivity.
Qed.

Lemma spec_slot_ext (f g : double -> double -> result cplx) :
  (forall t1 t2, f t1 t2 = g t1 t2) ->
  forall p_tm M m out, spec_slot f p_tm M m out = spec_slot g p_tm M m out.
Proof.
  intros H p_tm M m out. unfold spec_slot.
  do 2 (apply bind_ext; intros ?). rewrite H. reflexivity.
Qed.

Lemma spec_eval_ext (f g : double -> double -> result cplx) :
  (forall t1 t2, f t1 t2 = g t1 t2) ->
  forall p_tm M r_fm i_fm,
    spec_eval f p_tm M r_fm i_fm = spec_eval g p_tm M r_fm i_fm.
Proof.
  intros H p_tm M r_fm i_fm. unfold spec_eval.
  apply for_each_ext. intros k s. apply spec_slot_ext, H.
Qed.

Lemma real0_eval_points r_ck i_ck K1 K2 r_h1 r_h2 flips J1 J2 L1 L2 p_tm M r_fm i_fm :
  interp2_table0_real_per r_ck i_ck K1 K2 r_h1 r_h2 flips J1 J2 L1 L2 p_tm M r_fm i_fm
  = spec_eval (real0_point r_ck i_ck K1 K2 r_h1 r_h2 flips J1 J2 L1 L2)
      p_tm M r_fm i_fm.
Proof.
  unfold interp2_table0_real_per, spec_eval, iota. rewrite for_k_iota.
  apply for_each_ext. intros k s. apply real0_mm_slot.
Qed.

Lemma real1_eval_points r_ck i_ck K1 K2 r_h1 r_h2 flips J1 J2 L1 L2 p_tm M r_fm i_fm :
  interp2_table1_real_per r_ck i_ck K1 K2 r_h1 r_h2 flips J1 J2 L1 L2 p_tm M r_fm i_fm
  = spec_eval (real1_point r_ck i_ck K1 K2 r_h1 r_h2 flips J1 J2 L1 L2)
      p_tm M r_fm i_fm.
Proof.
  unfold interp2_table1_real_per, spec_eval, iota. rewrite for_k_iota.
  apply for_each_ext. intros k s. apply real1_mm_slot.
Qed.

(** ** Arrays *)

Lemma set_nth_app_mid {A : Type} (pre : list A) x rest v :
  set_nth (pre ++ x :: rest) (length pre) v = pre ++ v :: rest.
Proof. induction pre as [|y pre IH]; simpl; [reflexivity|]. now rewrite IH. Qed.

Lemma wr_app_mid {A : Type} (pre : list A) x rest v :
  wr (pre ++ x :: rest) (Z.of_nat (length pre)) v = Ok (pre ++ v :: rest).
Proof.
  unfold wr. rewrite length_app. simpl length.
  replace ((0 <=? Z.of_nat (length pre))
           && (Z.of_nat (length pre) <? Z.of_nat (length pre + S (length rest))))
    with true by (symmetry; apply andb_true_iff; split;
                  [apply Z.leb_le | apply Z.ltb_lt]; lia).
  rewrite Nat2Z.id, set_nth_app_mid. reflexivity.
Qed.

Lemma rd_app_mid {A : Type} (pre : list A) x rest :
  rd (pre ++ x :: rest) (Z.of_nat (length pre)) = Ok x.
Proof.
  unfold rd. replace (Z.of_nat (length pre) <? 0) with false
    by (symmetry; apply Z.ltb_ge; lia).
  rewrite Nat2Z.id, nth_error_app2 by lia.
  rewrite Nat.sub_diag. reflexivity.
Qed.

Lemma app_cons_assoc {A : Type} (pre : list A) v rest :
  pre ++ v :: rest = (pre ++ [v]) ++ rest.
Proof. rewrite <- app_assoc. reflexivity. Qed.

(** Filling the slots [length pre, ..., length pre + n - 1] one by one. *)
Lemma fill_slots {A : Type} (inj : double -> A) (pt : int -> result cplx) :
  forall n pre_a mid_a post_a pre_b mid_b post_b,
    length pre_b = length pre_a ->
    length mid_a = n -> length mid_b = n ->
    for_each (map Z.of_nat (seq (length pre_a) n)) (fill_slot inj pt)
      (pre_a ++ mid_a ++ post_a, pre_b ++ mid_b ++ post_b)
    = vs <- points_of pt (map Z.of_nat (seq (length pre_a) n)) ;;
      Ok (pre_a ++ map inj (map fst vs) ++ post_a,
          pre_b ++ map inj (map snd vs) ++ post_b).
Proof.
  induction n as [|n IH]; intros pre_a mid_a post_a pre_b mid_b post_b Hb Ha Hm.
  - destruct mid_a; [|discriminate]. destruct mid_b; [|discriminate].
    reflexivity.
  - destruct mid_a as [|xa mid_a]; [discriminate|].
    destruct mid_b as [|xb mid_b]; [discriminate|].
    simpl in Ha, Hm. injection Ha as Ha. injection Hm as Hm.
    simpl. unfold fill_slot at 1. simpl fst; simpl snd.
    destruct (pt (Z.of_nat (length pre_a))) as [[vr vi]|e]; simpl; [|reflexivity].
    rewrite wr_app_mid. simpl.
    rewrite <- Hb at 1. rewrite wr_app_mid. simpl.
    rewrite (app_cons_assoc pre_a), (app_cons_assoc pre_b).
    replace (S (length pre_a)) with (length (pre_a ++ [inj vr]))
      by (rewrite length_app; simpl; lia).
    rewrite IH; [| rewrite !length_app; simpl; lia | assumption | assumption].
    destruct (points_of _ _) as [vs|e]; simpl; [|reflexivity].
    rewrite <- !app_cons_assoc. reflexivity.
Qed.

Lemma fill_slots_iota {A : Type} (inj : double -> A) (pt : int -> result cplx)
    M (a b post_a post_b : list A) :
  length a = Z.to_nat M -> length b = Z.to_nat M ->
  for_each (iota M) (fill_slot inj pt) (a ++ post_a, b ++ post_b)
  = vs <- points_of pt (iota M) ;;
    Ok (map inj (map fst vs) ++ post_a, map inj (map snd vs) ++ post_b).
Proof.
  intros Ha Hb.
  apply (fill_slots inj pt (Z.to_nat M) [] a post_a [] b post_b); auto.
Qed.

Lemma points_of_length pt idx vs :
  points_of pt idx = Ok vs -> length vs = length idx.
Proof.
  revert vs; induction idx as [|m idx IH]; intros vs H; simpl in H.
  - injection H as <-. reflexivity.
  - destruct (pt m); [|discriminate]. simpl in H.
    destruct (points_of pt idx) as [ws|]; [|discriminate]. simpl in H.
    injection H as <-. simpl. now rewrite (IH ws).
Qed.

Lemma iota_length M : length (iota M) = Z.to_nat M.
Proof. unfold iota. now rewrite length_map, length_seq. Qed.

(** ** The parallel evaluator with a single worker *)

Lemma spec_slot_fill point p_tm M m out :
  spec_slot point p_tm M m out
  = fill_slot (fun v => v) (point_at point p_tm M) m out.
Proof.
  unfold spec_slot, fill_slot, point_at.
  rewrite !bind_assoc. apply bind_ext; intros t2.
  rewrite !bind_assoc. reflexivity.
Qed.

Lemma complex0_mm_fill r_ck i_ck K1 K2 r_h1 i_h1 r_h2 i_h2 J1 J2 L1 L2 p_tm M mm priv :
  complex0_mm r_ck i_ck K1 K2 r_h1 i_h1 r_h2 i_h2 J1 J2 L1 L2 p_tm M mm priv
  = fill_slot Some
      (point_at (complex0_point r_ck i_ck K1 K2 r_h1 i_h1 r_h2 i_h2 J1 J2 L1 L2)
         p_tm M) mm priv.
Proof.
  unfold complex0_mm, fill_slot, point_at. destruct priv as [pr pi].
  rewrite !bind_assoc. apply bind_ext; intros t2.
  rewrite !bind_assoc. apply bind_ext; intros t1.
  destruct (complex0_point _ _ _ _ _ _ _ _ _ _ _ _ _ _) as [[fr fi]|]; reflexivity.
Qed.

Lemma rd_cell_app_mid pre v rest :
  rd_cell (pre ++ Some v :: rest) (Z.of_nat (length pre)) = Ok v.
Proof. unfold rd_cell. rewrite rd_app_mid. reflexivity. Qed.

Lemma Qc_zero_plus (v : double) : (Q2Qc 0 + v)%Qc = v.
Proof. ring. Qed.

Lemma merge_step pa v qa pb w qb pre_r x post_r pre_i y post_i :
  length pa = length pre_r -> length pb = length pre_r ->
  length pre_i = length pre_r ->
  complex0_merge (pa ++ Some v :: qa, pb ++ Some w :: qb)
    (Z.of_nat (length pre_r)) (pre_r ++ x :: post_r, pre_i ++ y :: post_i)
  = Ok (pre_r ++ (x + v)%Qc :: post_r, pre_i ++ (y + w)%Qc :: post_i).
Proof.
  intros Hpa Hpb Hpi. unfold complex0_merge.
  rewrite rd_app_mid. simpl.
  rewrite <- Hpa at 1. rewrite rd_cell_app_mid. simpl.
  rewrite wr_app_mid. simpl.
  rewrite <- Hpi at 1. rewrite rd_app_mid. simpl.
  rewrite <- Hpb at 1. rewrite rd_cell_app_mid. simpl.
  rewrite <- Hpi at 1. rewrite wr_app_mid. reflexivity.
Qed.

(** Merging fully written private buffers into cleared output slots copies
    the private values. *)
Lemma merge_written :
  forall n pa va qa pb vb qb pre_r post_r pre_i post_i,
    length pa = length pre_r -> length pb = length pre_r ->
    length pre_i = length pre_r ->
    length va = n -> length vb = n ->
    for_k n (Z.of_nat (length pre_r))
      (complex0_merge (pa ++ map Some va ++ qa, pb ++ map Some vb ++ qb))
      (pre_r ++ repeat (Q2Qc 0) n ++ post_r, pre_i ++ repeat (Q2Qc 0) n ++ post_i)
    = Ok (pre_r ++ va ++ post_r, pre_i ++ vb ++ post_i).
Proof.
  induction n as [|n IH];
    intros pa va qa pb vb qb pre_r post_r pre_i post_i Hpa Hpb Hpi Hva Hvb.
  - destruct va; [|discriminate]. destruct vb; [|discriminate]. reflexivity.
  - destruct va as [|v va]; [discriminate|].
    destruct vb as [|w vb]; [discriminate|].
    simpl in Hva, Hvb. injection Hva as Hva. injection Hvb as Hvb.
    cbn [for_k map repeat app].
    rewrite merge_step by assumption. cbn [bind].
    rewrite !Qc_zero_plus.
    rewrite (app_cons_assoc pa), (app_cons_assoc pb),
      (app_cons_assoc pre_r), (app_cons_assoc pre_i).
    replace (Z.of_nat (length pre_r) + 1)
      with (Z.of_nat (length (pre_r ++ [v])))
      by (rewrite length_app; simpl; lia).
    rewrite IH by (rewrite ?length_app; simpl; lia).
    rewrite <- !app_cons_assoc. reflexivity.
Qed.

Lemma merge_written_all n va vb post_r post_i :
  length va = n -> length vb = n ->
  for_k n 0 (complex0_merge (map Some va ++ [], map Some vb ++ []))
    (repeat (Q2Qc 0) n ++ post_r, repeat (Q2Qc 0) n ++ post_i)
  = Ok (va ++ post_r, vb ++ post_i).
Proof.
  intros Hva Hvb.
  exact (merge_written n [] va [] [] vb [] [] post_r [] post_i
           eq_refl eq_refl eq_refl Hva Hvb).
Qed.

Lemma memset0_inv a M a' :
  memset0 a M = Ok a' ->
  a' = repeat (Q2Qc 0) (Z.to_nat M) ++ skipn (Z.to_nat M) a.
Proof.
  unfold memset0. destruct (_ && _); [|discriminate]. now intros [= <-].
Qed.

Lemma complex0_single_worker r_ck i_ck K1 K2 r_h1 i_h1 r_h2 i_h2 J1 J2 L1 L2
    p_tm M r_fm i_fm :
  interp2_table0_complex_per r_ck i_ck K1 K2 r_h1 i_h1 r_h2 i_h2 J1 J2 L1 L2
    [iota M] p_tm M r_fm i_fm
  = spec_eval_cleared
      (complex0_point r_ck i_ck K1 K2 r_h1 i_h1 r_h2 i_h2 J1 J2 L1 L2)
      p_tm M r_fm i_fm.
Proof.
  unfold interp2_table0_complex_per, spec_eval_cleared.
  destruct (memset0 r_fm M) as [r0|e] eqn:Hr; simpl; [|reflexivity].
  destruct (memset0 i_fm M) as [i0|e] eqn:Hi; simpl; [|reflexivity].
  apply memset0_inv in Hr, Hi. subst r0 i0.
  unfold complex0_worker, spec_eval.
  rewrite (for_each_ext _ _ (complex0_mm_fill r_ck i_ck K1 K2 r_h1 i_h1 r_h2 i_h2
                               J1 J2 L1 L2 p_tm M)).
  rewrite (for_each_ext _ _ (spec_slot_fill _ p_tm M)).
  unfold malloc.
  rewrite <- (app_nil_r (repeat None (Z.to_nat M))).
  rewrite !fill_slots_iota by apply repeat_length.
  destruct (points_of _ _) as [vs|e] eqn:Hvs; simpl; [|reflexivity].
  apply points_of_length in Hvs. rewrite iota_length in Hvs.
  rewrite !map_id.
  rewrite merge_written_all by now rewrite length_map.
  reflexivity.
Qed.

(** ** Arithmetic of the numeric model *)

Ltac to_Q :=
  unfold Qcle, Qclt, Qcdiv, Qcminus, half in *;
  unfold Qcplus, Qcopp, Qcmult, Qcinv, of_int, Q2Qc in *;
  cbn [this] in *; rewrite ?Qred_correct in *.

Lemma floor_div k K : floor (of_int k / of_int K)%Qc = k / K.
Proof.
  unfold floor. rewrite Zdiv_Qdiv. apply Qfloor_comp.
  to_Q. reflexivity.
Qed.

Lemma floor_spec x :
  (of_int (floor x) <= x)%Qc /\ (x < of_int (floor x) + Q2Qc 1)%Qc.
Proof.
  unfold floor. split; to_Q.
  - apply Qfloor_le.
  - pose proof (Qlt_floor (this x)) as H. rewrite inject_Z_plus in H. exact H.
Qed.

Lemma floor_unique x n :
  (of_int n <= x)%Qc -> (x < of_int n + Q2Qc 1)%Qc -> floor x = n.
Proof.
  intros H1 H2. unfold floor. to_Q.
  pose proof (Qfloor_le (this x)) as H3. pose proof (Qlt_floor (this x)) as H4.
  rewrite inject_Z_plus in H4. change (inject_Z 1) with 1%Q in H4.
  assert (inject_Z (Qfloor (this x)) < inject_Z n + 1)%Q as A by lra.
  assert (inject_Z n < inject_Z (Qfloor (this x)) + 1)%Q as B by lra.
  change 1%Q with (inject_Z 1) in A, B. rewrite <- inject_Z_plus in A, B.
  rewrite <- Zlt_Qlt in A, B. lia.
Qed.

Lemma floor_add_int x n : floor (x + of_int n)%Qc = floor x + n.
Proof.
  apply floor_unique; pose proof (floor_spec x) as [H1 H2]; to_Q;
    rewrite inject_Z_plus; lra.
Qed.

Lemma floor_of_int n : floor (of_int n) = n.
Proof.
  apply floor_unique; to_Q; lra.
Qed.

Lemma of_int_add a b : of_int (a + b) = (of_int a + of_int b)%Qc.
Proof.
  apply Qc_is_canon. to_Q. rewrite inject_Z_plus. reflexivity.
Qed.

Lemma ncenter_div J L : ncenter J L = J * L / 2.
Proof. unfold ncenter. apply floor_div. Qed.

(** ** The periodic indexer *)

Lemma wrap_of_div k K : K <> 0 -> wrap_of k K = Ok (k / K).
Proof.
  intros HK. unfold wrap_of.
  destruct (Z.eqb_spec K 0) as [->|_]; [contradiction|].
  now rewrite floor_div.
Qed.

Lemma periodic_mod k K : K <> 0 -> periodic k K = Ok (k mod K, k / K).
Proof.
  intros HK. unfold periodic. rewrite (wrap_of_div k K HK). simpl.
  now rewrite Z.mod_eq by assumption.
Qed.

Lemma periodic_zero k : periodic k 0 = Err DivByZero.
Proof. reflexivity. Qed.

(** C2. For a period [K > 0] and any integer offset [k], the periodic
    indexing of the evaluators (the two lines [wrap = floor(k / (double) K)],
    [kmod = k - K * wrap] of the real-table evaluators, and [mymod] in the
    complex one) yields [(kmod, wrap)] with [0 <= kmod < K],
    [k = kmod + K * wrap], and [wrap] the floor of the quotient
    ([K * wrap <= k < K * (wrap + 1)], so it rounds towards minus infinity
    for negative [k], where truncation would not). *)
Theorem periodic_index_floor (k K : int) :
  0 < K ->
  exists kmod wrap,
    periodic k K = Ok (kmod, wrap) /\
    mymod k K = Ok kmod /\
    0 <= kmod < K /\
    k = kmod + K * wrap /\
    wrap = k / K /\
    K * wrap <= k < K * (wrap + 1).
Proof.
  intros HK. exists (k mod K), (k / K).
  assert (periodic k K = Ok (k mod K, k / K)) as Hp by (apply periodic_mod; lia).
  pose proof (Z.mod_pos_bound k K HK) as Hb.
  pose proof (Z.div_mod k K ltac:(lia)) as Hd.
  split; [exact Hp|]. split; [unfold mymod; now rewrite Hp|].
  repeat split; try lia.
Qed.

Lemma periodic_index_floor_witness :
  0 < 4 /\
  exists kmod wrap,
    periodic (-3) 4 = Ok (kmod, wrap) /\
    mymod (-3) 4 = Ok kmod /\
    0 <= kmod < 4 /\
    -3 = kmod + 4 * wrap /\
    wrap = (-3) / 4 /\
    4 * wrap <= -3 < 4 * (wrap + 1).
Proof.
  split; [reflexivity | apply (periodic_index_floor (-3) 4); reflexivity].
Defined.

(** On a negative offset the wrap count is the floor, not the truncated
    quotient. *)
Example periodic_negative : periodic (-3) 4 = Ok (1, -1) /\ Z.quot (-3) 4 = 0.
Proof. split; reflexivity. Qed.

(** ** The double sum depends on its leaves pointwise *)

Section SpecPointExt.
Context {W : Type}.
Variables (s1 s2 s1' s2' : double -> int -> result W).
Variables (x1 x2 x1' x2' : int -> result (int * int)).
Variables (f1 f2 f1' f2' : int -> W -> W).
Variables (mul mul' : W -> cplx -> cplx).
Variables (c c' : int -> result cplx).
Hypothesis Hs1 : forall t k, s1 t k = s1' t k.
Hypothesis Hs2 : forall t k, s2 t k = s2' t k.
Hypothesis Hx1 : forall k, x1 k = x1' k.
Hypothesis Hx2 : forall k, x2 k = x2' k.
Hypothesis Hf1 : forall w v, f1 w v = f1' w v.
Hypothesis Hf2 : forall w v, f2 w v = f2' w v.
Hypothesis Hmul : forall w v, mul w v = mul' w v.
Hypothesis Hc : forall kk, c kk = c' kk.

Lemma spec_term1_ext K1 t1 k2mod k1 :
  spec_term1 s1 x1 f1 mul c K1 t1 k2mod k1
  = spec_term1 s1' x1' f1' mul' c' K1 t1 k2mod k1.
Proof.
  unfold spec_term1. rewrite Hs1, Hx1.
  apply bind_ext; intros w. apply bind_ext; intros [kmod wrap].
  rewrite Hc. apply bind_ext; intros v. now rewrite Hf1, Hmul.
Qed.

Lemma spec_term2_ext K1 J1 t1 t2 ks1 k2 :
  spec_term2 s1 s2 x1 x2 f1 f2 mul c K1 J1 t1 t2 ks1 k2
  = spec_term2 s1' s2' x1' x2' f1' f2' mul' c' K1 J1 t1 t2 ks1 k2.
Proof.
  unfold spec_term2. rewrite Hs2, Hx2.
  apply bind_ext; intros w. apply bind_ext; intros [kmod wrap].
  rewrite (sum_over_ext _ _ _ (fun jj => spec_term1_ext K1 t1 kmod _)).
  apply bind_ext; intros v. now rewrite Hf2, Hmul.
Qed.

Lemma spec_point_ext K1 J1 J2 t1 t2 :
  spec_point s1 s2 x1 x2 f1 f2 mul c K1 J1 J2 t1 t2
  = spec_point s1' s2' x1' x2' f1' f2' mul' c' K1 J1 J2 t1 t2.
Proof.
  unfold spec_point. apply sum_over_ext. intros jj. apply spec_term2_ext.
Qed.
End SpecPointExt.

(** C1. Each evaluator computes, for every query point, the separable
    double sum of the specification: start neighbours
    [1 + floor(t_a - J_a/2)], outer sum over [jj2 = 0 .. J2-1], inner sum
    over [jj1 = 0 .. J1-1], each term the axis-1 weight times the grid
    coefficient at [k2mod * K1 + k1mod], the inner sum times the axis-2
    weight; the value of point [m] goes to output slot [m].  For the
    parallel evaluator this is the result of a single worker, and for any
    worker the value written to slot [mm] of its private buffers. *)
Theorem separable_double_sum
    r_ck i_ck K1 K2 r_h1 i_h1 r_h2 i_h2 flips J1 J2 L1 L2 p_tm M r_fm i_fm :
  interp2_table0_real_per r_ck i_ck K1 K2 r_h1 r_h2 flips J1 J2 L1 L2
    p_tm M r_fm i_fm
  = spec_eval (spec_real0_point r_ck i_ck K1 K2 r_h1 r_h2 flips J1 J2 L1 L2)
      p_tm M r_fm i_fm
  /\
  interp2_table1_real_per r_ck i_ck K1 K2 r_h1 r_h2 flips J1 J2 L1 L2
    p_tm M r_fm i_fm
  = spec_eval (spec_real1_point r_ck i_ck K1 K2 r_h1 r_h2 flips J1 J2 L1 L2)
      p_tm M r_fm i_fm
  /\
  interp2_table0_complex_per r_ck i_ck K1 K2 r_h1 i_h1 r_h2 i_h2 J1 J2 L1 L2
    [iota M] p_tm M r_fm i_fm
  = spec_eval_cleared
      (spec_complex0_point r_ck i_ck K1 K2 r_h1 i_h1 r_h2 i_h2 J1 J2 L1 L2)
      p_tm M r_fm i_fm
  /\
  (forall mm priv,
      complex0_mm r_ck i_ck K1 K2 r_h1 i_h1 r_h2 i_h2 J1 J2 L1 L2 p_tm M mm priv
      = (t2 <- rd p_tm (M + mm) ;;
         t1 <- rd p_tm mm ;;
         f <- spec_complex0_point r_ck i_ck K1 K2 r_h1 i_h1 r_h2 i_h2
                J1 J2 L1 L2 t1 t2 ;;
         r_fm_private <- wr (fst priv) mm (Some (fst f)) ;;
         i_fm_private <- wr (snd priv) mm (Some (snd f)) ;;
         Ok (r_fm_private, i_fm_private))).
Proof.
  split; [|split; [|split]].
  - rewrite real0_eval_points. apply spec_eval_ext. intros t1 t2.
    apply real0_point_spec.
  - rewrite real1_eval_points. apply spec_eval_ext. intros t1 t2.
    apply real1_point_spec.
  - rewrite complex0_single_worker. unfold spec_eval_cleared.
    do 2 (apply bind_ext; intros ?).
    apply spec_eval_ext. intros t1 t2. apply complex0_point_spec.
  - intros mm [pr pi]. unfold complex0_mm.
    do 2 (apply bind_ext; intros ?).
    rewrite complex0_point_spec.
    destruct (spec_complex0_point _ _ _ _ _ _ _ _ _ _ _ _ _ _) as [[fr fi]|];
      reflexivity.
Qed.

(** ** The table samplers *)

Ltac floor_facts y :=
  let m := fresh "m" in
  pose proof (floor_spec y) as [? ?]; set (m := floor y) in *; clearbody m.




(** On a ramp table (sample [n] holds the value [n]) the 1st-order lookup
    returns the offset itself. *)
Lemma coef1_ramp h nc t k L :
  rd h (nc + floor (offset t k L)) = Ok (of_int (floor (offset t k L))) ->
  rd h (nc + floor (offset t k L) + 1) = Ok (of_int (floor (offset t k L) + 1)) ->
  coef1 h nc t k L = Ok (offset t k L).
Proof.
  intros Ha Hb. unfold coef1. rewrite Ha, Hb. simpl. f_equal.
  rewrite of_int_add. change (of_int 1) with (Q2Qc 1). ring.
Qed.

Lemma iround_nonneg x : (0 <= x)%Qc -> iround x = floor (x + half)%Qc.
Proof.
  intros H. unfold iround.
  destruct (Qle_bool 0 (this x)) eqn:E; [reflexivity|].
  change (0 <= this x)%Q in H. apply Qle_bool_iff in H. congruence.
Qed.

Lemma iround_neg x : (x < 0)%Qc -> iround x = - floor (- x + half)%Qc.
Proof.
  intros H. unfold iround.
  destruct (Qle_bool 0 (this x)) eqn:E; [|reflexivity].
  apply Qle_bool_iff in E. change (this x < 0)%Q in H. lra.
Qed.

Lemma of_int_opp n : of_int (- n) = (- of_int n)%Qc.
Proof.
  apply Qc_is_canon. to_Q. rewrite inject_Z_opp. reflexivity.
Qed.

Lemma iround_nearest x :
  (of_int (iround x) - half <= x)%Qc /\ (x <= of_int (iround x) + half)%Qc.
Proof.
  destruct (Qclt_le_dec x 0) as [Hn|Hp].
  - rewrite (iround_neg x Hn), of_int_opp.
    floor_facts (- x + half)%Qc. split; to_Q; lra.
  - rewrite (iround_nonneg x Hp).
    floor_facts (x + half)%Qc. split; to_Q; lra.
Qed.

Lemma of_nat_nonneg n : (0 <= of_int (Z.of_nat n))%Qc.
Proof.
  to_Q. change 0%Q with (inject_Z 0). rewrite <- Zle_Qle. lia.
Qed.

Lemma iround_tie_up n :
  iround (of_int (Z.of_nat n) + half)%Qc = Z.of_nat n + 1.
Proof.
  pose proof (of_nat_nonneg n) as Hn.
  rewrite iround_nonneg by (to_Q; lra).
  apply floor_unique; rewrite of_int_add; change (of_int 1) with (Q2Qc 1);
    to_Q; lra.
Qed.

Lemma iround_tie_down n :
  iround (- (of_int (Z.of_nat n) + half))%Qc = - (Z.of_nat n + 1).
Proof.
  pose proof (of_nat_nonneg n) as Hn.
  rewrite iround_neg by (to_Q; lra).
  f_equal.
  apply floor_unique; rewrite of_int_add; change (of_int 1) with (Q2Qc 1);
    to_Q; lra.
Qed.

(** C5. The 0th-order evaluators take as weight the table value at the
    re-centred index [round(p)], [p = (t - k) * L], with no blending of
    neighbouring samples: each axis weight of [interp2_table0_real_per] and
    each part of each axis weight of [interp2_table0_complex_per] is the
    single sample [table[J * L / 2 + round((t - k) * L)]].  [round] is the
    nearest integer ([|x - round x| <= 1/2]) and a tie [n + 1/2] goes away
    from zero. *)
Theorem coef0_nearest_sample
    r_ck i_ck K1 K2 r_h1 i_h1 r_h2 i_h2 flips J1 J2 L1 L2 t1 t2 h J L t k x n :
  let sampler h J L t k :=
    rd h (J * L / 2 + iround ((t - of_int k) * of_int L)%Qc) in
  let sampler_c r_h i_h J L t k :=
    re <- sampler r_h J L t k ;; im <- sampler i_h J L t k ;; Ok (re, im) in
  real0_point r_ck i_ck K1 K2 r_h1 r_h2 flips J1 J2 L1 L2 t1 t2
  = spec_point (sampler r_h1 J1 L1) (sampler r_h2 J2 L2)
      (fun k => periodic k K1) (fun k => periodic k K2)
      (flip_sign (option_map fst flips)) (flip_sign (option_map snd flips))
      smul (grid_at r_ck i_ck) K1 J1 J2 t1 t2 /\
  complex0_point r_ck i_ck K1 K2 r_h1 i_h1 r_h2 i_h2 J1 J2 L1 L2 t1 t2
  = spec_point (sampler_c r_h1 i_h1 J1 L1) (sampler_c r_h2 i_h2 J2 L2)
      (fun k => periodic k K1) (fun k => periodic k K2)
      no_flip no_flip cmul (grid_at r_ck i_ck) K1 J1 J2 t1 t2 /\
  coef0 h (ncenter J L) t k L = sampler h J L t k /\
  (of_int (iround x) - half <= x)%Qc /\ (x <= of_int (iround x) + half)%Qc /\
  iround (of_int (Z.of_nat n) + half)%Qc = Z.of_nat n + 1 /\
  iround (- (of_int (Z.of_nat n) + half))%Qc = - (Z.of_nat n + 1).
Proof.
  intros sampler sampler_c.
  assert (forall h J L t k, coef0 h (ncenter J L) t k L = sampler h J L t k) as Hs.
  { intros. unfold coef0, sampler, offset. now rewrite ncenter_div. }
  split; [|split].
  - rewrite real0_point_spec. unfold spec_real0_point.
    apply spec_point_ext; auto.
  - rewrite complex0_point_spec. unfold spec_complex0_point.
    apply spec_point_ext; auto;
      intros; unfold sampler0_complex, sampler_c; now rewrite !Hs.
  - split; [apply Hs|].
    split; [apply iround_nearest|]. split; [apply iround_nearest|].
    split; [apply iround_tie_up | apply iround_tie_down].
Qed.

Example iround_ties :
  iround (Q2Qc (5 # 2)) = 3 /\ iround (Q2Qc (- 5 # 2)) = -3 /\
  iround (Q2Qc (12 # 5)) = 2 /\ iround (Q2Qc (- 13 # 5)) = -3.
Proof. repeat split; reflexivity. Qed.

(** ** Sign flips *)

Lemma rem2_odd wrap : negb (Z.rem wrap 2 =? 0) = Z.odd wrap.
Proof.
  rewrite <- Z.negb_even. f_equal.
  destruct (Z.eqb_spec (Z.rem wrap 2) 0) as [H|H];
    destruct (Z.even wrap) eqn:E; try reflexivity; exfalso.
  - apply Z.rem_divide in H; [|lia]. destruct H as [z Hz].
    assert (Z.even wrap = true) by (apply Z.even_spec; exists z; lia).
    congruence.
  - apply Z.even_spec in E. destruct E as [z Hz]. apply H.
    apply Z.rem_divide; [lia|]. exists z. lia.
Qed.

Lemma flip_sign_some f wrap w :
  flip_sign (Some f) wrap w
  = if negb (f =? 0) && Z.odd wrap then (- w)%Qc else w.
Proof. unfold flip_sign. now rewrite rem2_odd. Qed.

Lemma flip_sign_off1 flips wrap w :
  flips_off flips -> flip_sign (option_map fst flips) wrap w = w.
Proof. intros [-> | ->]; reflexivity. Qed.

Lemma flip_sign_off2 flips wrap w :
  flips_off flips -> flip_sign (option_map snd flips) wrap w = w.
Proof. intros [-> | ->]; reflexivity. Qed.

(** C7. In the two real-table evaluators built with [Provide_flip], the
    weight of an axis is negated exactly when the flip flag of that axis is
    set and the wrap count of that axis is odd (negative odd counts
    included); built without [Provide_flip] they never negate.  The
    complex-table evaluator has no flip arguments and uses every weight as
    it is read from the table. *)
Theorem sign_flip_per_period
    r_ck i_ck K1 K2 r_h1 i_h1 r_h2 i_h2 flip1 flip2 J1 J2 L1 L2 t1 t2 :
  let flipped (flip wrap : int) (w : double) :=
    if negb (flip =? 0) && Z.odd wrap then (- w)%Qc else w in
  real0_point r_ck i_ck K1 K2 r_h1 r_h2 (Some (flip1, flip2)) J1 J2 L1 L2 t1 t2
  = spec_point (fun t k => coef0 r_h1 (ncenter J1 L1) t k L1)
      (fun t k => coef0 r_h2 (ncenter J2 L2) t k L2)
      (fun k => periodic k K1) (fun k => periodic k K2)
      (flipped flip1) (flipped flip2) smul (grid_at r_ck i_ck) K1 J1 J2 t1 t2
  /\
  real1_point r_ck i_ck K1 K2 r_h1 r_h2 (Some (flip1, flip2)) J1 J2 L1 L2 t1 t2
  = spec_point (fun t k => coef1 r_h1 (ncenter J1 L1) t k L1)
      (fun t k => coef1 r_h2 (ncenter J2 L2) t k L2)
      (fun k => periodic k K1) (fun k => periodic k K2)
      (flipped flip1) (flipped flip2) smul (grid_at r_ck i_ck) K1 J1 J2 t1 t2
  /\
  real0_point r_ck i_ck K1 K2 r_h1 r_h2 None J1 J2 L1 L2 t1 t2
  = spec_point (fun t k => coef0 r_h1 (ncenter J1 L1) t k L1)
      (fun t k => coef0 r_h2 (ncenter J2 L2) t k L2)
      (fun k => periodic k K1) (fun k => periodic k K2)
      no_flip no_flip smul (grid_at r_ck i_ck) K1 J1 J2 t1 t2
  /\
  real1_point r_ck i_ck K1 K2 r_h1 r_h2 None J1 J2 L1 L2 t1 t2
  = spec_point (fun t k => coef1 r_h1 (ncenter J1 L1) t k L1)
      (fun t k => coef1 r_h2 (ncenter J2 L2) t k L2)
      (fun k => periodic k K1) (fun k => periodic k K2)
      no_flip no_flip smul (grid_at r_ck i_ck) K1 J1 J2 t1 t2
  /\
  complex0_point r_ck i_ck K1 K2 r_h1 i_h1 r_h2 i_h2 J1 J2 L1 L2 t1 t2
  = spec_point (sampler0_complex r_h1 i_h1 J1 L1)
      (sampler0_complex r_h2 i_h2 J2 L2)
      (fun k => periodic k K1) (fun k => periodic k K2)
      no_flip no_flip cmul (grid_at r_ck i_ck) K1 J1 J2 t1 t2.
Proof.
  intros flipped.
  split; [|split; [|split; [|split]]].
  - rewrite real0_point_spec. unfold spec_real0_point.
    apply spec_point_ext; auto; intros; apply flip_sign_some.
  - rewrite real1_point_spec. unfold spec_real1_point.
    apply spec_point_ext; auto; intros; apply flip_sign_some.
  - apply real0_point_spec.
  - apply real1_point_spec.
  - apply complex0_point_spec.
Qed.

Example flip_negative_odd_wrap :
  flip_sign (Some 1) (-1) (Q2Qc 1) = (- Q2Qc 1)%Qc /\
  flip_sign (Some 1) (-2) (Q2Qc 1) = Q2Qc 1 /\
  flip_sign (Some 0) (-1) (Q2Qc 1) = Q2Qc 1.
Proof. repeat split. Qed.

(** ** Periodic wraparound *)

Section Wraparound.
Context {W : Type}.
Variables (s1 s2 : double -> int -> result W).
Variables (f1 f2 : int -> W -> W).
Variable mul : W -> cplx -> cplx.
Variables (r_ck i_ck : list double) (K1 K2 J1 J2 : int).
Hypothesis Hf1 : forall wrap w, f1 wrap w = w.
Hypothesis Hf2 : forall wrap w, f2 wrap w = w.


(** Moving to the next period leaves the index and adds one to the wrap
    count. *)
Lemma periodic_next k K :
  periodic (k + K) K = '(kmod, wrap) <- periodic k K ;; Ok (kmod, wrap + 1).
Proof.
  destruct (Z.eq_dec K 0) as [->|HK]; [reflexivity|].
  rewrite !periodic_mod by assumption. cbn [bind]. do 2 f_equal.
  - rewrite <- (Z.mul_1_l K) at 1. apply Z.mod_add. assumption.
  - rewrite <- (Z.mul_1_l K) at 1. apply Z.div_add. assumption.
Qed.

Hypothesis Hs1 : forall t k, s1 (t + of_int K1)%Qc (k + K1) = s1 t k.
Hypothesis Hs2 : forall t k, s2 (t + of_int K2)%Qc (k + K2) = s2 t k.

Lemma k_start_shift t J K :
  1 + floor (t + of_int K - of_int J / of_int 2)%Qc
  = 1 + floor (t - of_int J / of_int 2)%Qc + K.
Proof.
  set (h := (of_int J / of_int 2)%Qc).
  replace (t + of_int K - h)%Qc with (t - h + of_int K)%Qc. 2:{ ring. }
  rewrite floor_add_int. lia.
Qed.

Lemma spec_term1_shift t1 k2mod k1 :
  spec_term1 s1 (fun k => periodic k K1) f1 mul (grid_at r_ck i_ck) K1
    (t1 + of_int K1)%Qc k2mod (k1 + K1)
  = spec_term1 s1 (fun k => periodic k K1) f1 mul (grid_at r_ck i_ck) K1
      t1 k2mod k1.
Proof.
  unfold spec_term1. rewrite Hs1. apply bind_ext; intros w1.
  rewrite periodic_next.
  destruct (periodic k1 K1) as [[kmod wrap]|]; [|reflexivity]. cbn [bind].
  apply bind_ext; intros v. now rewrite !Hf1.
Qed.

Lemma spec_point_shift1 t1 t2 :
  spec_point s1 s2 (fun k => periodic k K1) (fun k => periodic k K2)
    f1 f2 mul (grid_at r_ck i_ck) K1 J1 J2 (t1 + of_int K1)%Qc t2
  = spec_point s1 s2 (fun k => periodic k K1) (fun k => periodic k K2)
      f1 f2 mul (grid_at r_ck i_ck) K1 J1 J2 t1 t2.
Proof.
  unfold spec_point. rewrite k_start_shift.
  apply sum_over_ext; intros jj2. unfold spec_term2.
  apply bind_ext; intros w2. apply bind_ext; intros [kmod wrap].
  f_equal. apply sum_over_ext; intros jj1.
  replace (1 + floor (t1 - of_int J1 / of_int 2)%Qc + K1 + Z.of_nat jj1)
    with (1 + floor (t1 - of_int J1 / of_int 2)%Qc + Z.of_nat jj1 + K1) by lia.
  apply spec_term1_shift.
Qed.

Lemma spec_point_shift2 t1 t2 :
  spec_point s1 s2 (fun k => periodic k K1) (fun k => periodic k K2)
    f1 f2 mul (grid_at r_ck i_ck) K1 J1 J2 t1 (t2 + of_int K2)%Qc
  = spec_point s1 s2 (fun k => periodic k K1) (fun k => periodic k K2)
      f1 f2 mul (grid_at r_ck i_ck) K1 J1 J2 t1 t2.
Proof.
  unfold spec_point. rewrite k_start_shift.
  apply sum_over_ext; intros jj2. unfold spec_term2.
  replace (1 + floor (t2 - of_int J2 / of_int 2)%Qc + K2 + Z.of_nat jj2)
    with (1 + floor (t2 - of_int J2 / of_int 2)%Qc + Z.of_nat jj2 + K2) by lia.
  rewrite Hs2. apply bind_ext; intros w2.
  rewrite periodic_next.
  destruct (periodic _ K2) as [[kmod wrap]|]; [|reflexivity]. cbn [bind].
  apply bind_ext; intros v. now rewrite !Hf2.
Qed.
End Wraparound.

Lemma offset_shift t k K L :
  offset (t + of_int K)%Qc (k + K) L = offset t k L.
Proof.
  unfold offset.
  enough (t + of_int K - of_int (k + K)%Z = t - of_int k)%Qc as -> by reflexivity.
  rewrite of_int_add. ring.
Qed.

Lemma coef0_shift h nc t k K L :
  coef0 h nc (t + of_int K)%Qc (k + K) L = coef0 h nc t k L.
Proof. unfold coef0. now rewrite offset_shift. Qed.

Lemma coef1_shift h nc t k K L :
  coef1 h nc (t + of_int K)%Qc (k + K) L = coef1 h nc t k L.
Proof. unfold coef1. now rewrite offset_shift. Qed.

Lemma sampler0_complex_shift r_h i_h J L t k K :
  sampler0_complex r_h i_h J L (t + of_int K)%Qc (k + K)
  = sampler0_complex r_h i_h J L t k.
Proof. unfold sampler0_complex. now rewrite !coef0_shift. Qed.

(** ** Moving the query points *)

Lemma nth_error_shift {A : Type} (f g : A -> A) :
  forall (l : list A) (n i : nat),
    nth_error (map f (firstn n l) ++ map g (skipn n l)) i
    = option_map (if (i <? n)%nat then f else g) (nth_error l i).
Proof.
  induction l as [|x l IH]; intros n i.
  - rewrite firstn_nil, skipn_nil. simpl. now destruct i.
  - destruct n as [|n].
    + change (nth_error (map g (x :: l)) i
              = option_map (if (i <? 0)%nat then f else g) (nth_error (x :: l) i)).
      rewrite nth_error_map. reflexivity.
    + destruct i as [|i]; [reflexivity|]. exact (IH n i).
Qed.

Lemma rd_shift_coords d1 d2 M p_tm i :
  0 <= i ->
  rd (shift_coords d1 d2 M p_tm) i
  = t <- rd p_tm i ;; Ok (t + (if i <? M then d1 else d2))%Qc.
Proof.
  intros Hi. unfold rd, shift_coords.
  destruct (Z.ltb_spec i 0) as [?|_]; [lia|].
  rewrite nth_error_shift.
  destruct (nth_error p_tm (Z.to_nat i)) as [t|]; [|reflexivity]. simpl.
  destruct (Nat.ltb_spec (Z.to_nat i) (Z.to_nat M));
    destruct (Z.ltb_spec i M); try reflexivity; lia.
Qed.

Lemma spec_slot_shift point d1 d2 p_tm M m out :
  0 <= m < M ->
  spec_slot point (shift_coords d1 d2 M p_tm) M m out
  = spec_slot (fun t1 t2 => point (t1 + d1)%Qc (t2 + d2)%Qc) p_tm M m out.
Proof.
  intros Hm. unfold spec_slot.
  rewrite !rd_shift_coords by lia.
  destruct (Z.ltb_spec (M + m) M) as [?|_]; [lia|].
  destruct (Z.ltb_spec m M) as [_|?]; [|lia].
  rewrite bind_assoc. apply bind_ext; intros t2. cbn [bind].
  rewrite bind_assoc. reflexivity.
Qed.

Lemma for_each_ext_in {St : Type} (b b' : int -> St -> result St) :
  forall idx,
    (forall k, In k idx -> forall s, b k s = b' k s) ->
    forall s, for_each idx b s = for_each idx b' s.
Proof.
  induction idx as [|i idx IH]; intros Hb s; simpl; [reflexivity|].
  rewrite Hb by (now left). apply bind_ext. intros s'.
  apply IH. intros k Hk. apply Hb. now right.
Qed.

Lemma in_iota m M : In m (iota M) -> 0 <= m < M.
Proof.
  unfold iota. rewrite in_map_iff. intros [j [<- Hj]].
  apply in_seq in Hj. lia.
Qed.

Lemma spec_eval_shift point d1 d2 p_tm M r_fm i_fm :
  spec_eval point (shift_coords d1 d2 M p_tm) M r_fm i_fm
  = spec_eval (fun t1 t2 => point (t1 + d1)%Qc (t2 + d2)%Qc) p_tm M r_fm i_fm.
Proof.
  unfold spec_eval. apply for_each_ext_in.
  intros m Hm s. apply spec_slot_shift, in_iota, Hm.
Qed.

Lemma Qc_plus_zero (t : double) : (t + Q2Qc 0)%Qc = t.
Proof. ring. Qed.


Lemma real0_point_period r_ck i_ck K1 K2 r_h1 r_h2 flips J1 J2 L1 L2 :
  flips_off flips ->
  (forall t1 t2,
      real0_point r_ck i_ck K1 K2 r_h1 r_h2 flips J1 J2 L1 L2 (t1 + of_int K1)%Qc t2
      = real0_point r_ck i_ck K1 K2 r_h1 r_h2 flips J1 J2 L1 L2 t1 t2) /\
  (forall t1 t2,
      real0_point r_ck i_ck K1 K2 r_h1 r_h2 flips J1 J2 L1 L2 t1 (t2 + of_int K2)%Qc
      = real0_point r_ck i_ck K1 K2 r_h1 r_h2 flips J1 J2 L1 L2 t1 t2).
Proof.
  intros Hoff. split; intros t1 t2; rewrite !real0_point_spec;
    unfold spec_real0_point.
  - apply spec_point_shift1; intros;
      [now apply flip_sign_off1 | apply coef0_shift].
  - apply spec_point_shift2; intros;
      [now apply flip_sign_off2 | apply coef0_shift].
Qed.

Lemma real1_point_period r_ck i_ck K1 K2 r_h1 r_h2 flips J1 J2 L1 L2 :
  flips_off flips ->
  (forall t1 t2,
      real1_point r_ck i_ck K1 K2 r_h1 r_h2 flips J1 J2 L1 L2 (t1 + of_int K1)%Qc t2
      = real1_point r_ck i_ck K1 K2 r_h1 r_h2 flips J1 J2 L1 L2 t1 t2) /\
  (forall t1 t2,
      real1_point r_ck i_ck K1 K2 r_h1 r_h2 flips J1 J2 L1 L2 t1 (t2 + of_int K2)%Qc
      = real1_point r_ck i_ck K1 K2 r_h1 r_h2 flips J1 J2 L1 L2 t1 t2).
Proof.
  intros Hoff. split; intros t1 t2; rewrite !real1_point_spec;
    unfold spec_real1_point.
  - apply spec_point_shift1; intros;
      [now apply flip_sign_off1 | apply coef1_shift].
  - apply spec_point_shift2; intros;
      [now apply flip_sign_off2 | apply coef1_shift].
Qed.

Lemma complex0_point_period r_ck i_ck K1 K2 r_h1 i_h1 r_h2 i_h2 J1 J2 L1 L2 :
  (forall t1 t2,
      complex0_point r_ck i_ck K1 K2 r_h1 i_h1 r_h2 i_h2 J1 J2 L1 L2
        (t1 + of_int K1)%Qc t2
      = complex0_point r_ck i_ck K1 K2 r_h1 i_h1 r_h2 i_h2 J1 J2 L1 L2 t1 t2) /\
  (forall t1 t2,
      complex0_point r_ck i_ck K1 K2 r_h1 i_h1 r_h2 i_h2 J1 J2 L1 L2
        t1 (t2 + of_int K2)%Qc
      = complex0_point r_ck i_ck K1 K2 r_h1 i_h1 r_h2 i_h2 J1 J2 L1 L2 t1 t2).
Proof.
  split; intros t1 t2; rewrite !complex0_point_spec;
    unfold spec_complex0_point.
  - apply spec_point_shift1; intros;
      [reflexivity | apply sampler0_complex_shift].
  - apply spec_point_shift2; intros;
      [reflexivity | apply sampler0_complex_shift].
Qed.

Lemma map_of_int_shift d1 d2 M zs :
  map of_int (shift_ints d1 d2 M zs)
  = shift_coords (of_int d1) (of_int d2) M (map of_int zs).
Proof.
  unfold shift_ints, shift_coords.
  rewrite map_app, firstn_map, skipn_map, !map_map.
  f_equal; apply map_ext; intros z; apply of_int_add.
Qed.


Lemma int_ranged_small zs J1 J2 :
  forallb (fun z => (- 2 ^ 30 <=? z) && (z <=? 2 ^ 30)) zs = true ->
  J1 <= 2 ^ 30 -> J2 <= 2 ^ 30 -> int_ranged zs J1 J2.
Proof.
  intros H H1 H2. split; [|split; assumption].
  apply Forall_forall. intros z Hz.
  rewrite forallb_forall in H. apply H in Hz.
  apply andb_true_iff in Hz. destruct Hz as [Ha Hb].
  apply Z.leb_le in Ha, Hb. split; assumption.
Defined.



(** ** The outputs are overwritten *)

Lemma spec_eval_overwrites point p_tm M a post_a b post_b :
  length a = Z.to_nat M -> length b = Z.to_nat M ->
  spec_eval point p_tm M (a ++ post_a) (b ++ post_b)
  = vs <- points_of (point_at point p_tm M) (iota M) ;;
    Ok (map fst vs ++ post_a, map snd vs ++ post_b).
Proof.
  intros Ha Hb. unfold spec_eval.
  rewrite (for_each_ext _ _ (spec_slot_fill point p_tm M)).
  rewrite fill_slots_iota by assumption.
  apply bind_ext; intros vs. now rewrite !map_id.
Qed.

Lemma memset0_ok a M :
  0 <= M <= Z.of_nat (length a) ->
  memset0 a M = Ok (repeat (Q2Qc 0) (Z.to_nat M) ++ skipn (Z.to_nat M) a).
Proof.
  intros H. unfold memset0.
  destruct (Z.leb_spec 0 M); [|lia].
  destruct (Z.leb_spec M (Z.of_nat (length a))); [|lia]. reflexivity.
Qed.

(** Clearing the first [M] slots before they are overwritten changes
    nothing. *)
Lemma spec_eval_cleared_same point p_tm M r_fm i_fm :
  0 <= M <= Z.of_nat (length r_fm) -> M <= Z.of_nat (length i_fm) ->
  spec_eval_cleared point p_tm M r_fm i_fm = spec_eval point p_tm M r_fm i_fm.
Proof.
  intros Hr Hi. unfold spec_eval_cleared.
  rewrite !memset0_ok by lia. cbn [bind].
  rewrite spec_eval_overwrites by apply repeat_length.
  assert (spec_eval point p_tm M r_fm i_fm
          = spec_eval point p_tm M
              (firstn (Z.to_nat M) r_fm ++ skipn (Z.to_nat M) r_fm)
              (firstn (Z.to_nat M) i_fm ++ skipn (Z.to_nat M) i_fm)) as ->
    by now rewrite !firstn_skipn.
  rewrite spec_eval_overwrites by (rewrite firstn_length_le; lia).
  reflexivity.
Qed.

(** ** A real table is a complex table with zero imaginary part *)

Lemma rd_map {A B : Type} (f : A -> B) (a : list A) i :
  rd (map f a) i = v <- rd a i ;; Ok (f v).
Proof.
  unfold rd. destruct (i <? 0); [reflexivity|].
  rewrite nth_error_map. now destruct (nth_error a (Z.to_nat i)).
Qed.

(** ** Zeros, infinities and NaN in binary64 *)

Lemma b64_same_refl x : B64.same_number x x.
Proof. now left. Qed.

Lemma b64_same_sym x y : B64.same_number x y -> B64.same_number y x.
Proof. intros [->|[? ?]]; [now left | now right]. Qed.

Lemma b64_same_trans x y z :
  B64.same_number x y -> B64.same_number y z -> B64.same_number x z.
Proof.
  intros [->|[Hx Hy]] [<-|[Hy' Hz]]; try (now left); try (now right).
Qed.

Lemma b64_same_zero x y :
  B64.is_zero x = true -> B64.is_zero y = true -> B64.same_number x y.
Proof. now right. Qed.

Lemma b64_same_finite x y :
  B64.same_number x y -> B64.is_finite x = true -> B64.is_finite y = true.
Proof.
  intros [->|[_ Hy]] H; [assumption|]. now destruct y.
Qed.

Ltac b64_cases :=
  repeat match goal with
         | s : bool |- _ => destruct s
         end;
  cbn; solve [ now left | now right | discriminate | auto ].

Lemma b64_add_same x x' y y' :
  B64.same_number x x' -> B64.same_number y y' ->
  B64.same_number (B64.add x y) (B64.add x' y').
Proof.
  intros [->|[Hx Hx']] [->|[Hy Hy']]; [now left| | |].
  - destruct y as [sy| | |], y' as [sy'| | |]; try discriminate.
    destruct x' as [sx|sx| |sx mx ex]; b64_cases.
  - destruct x as [sx| | |], x' as [sx'| | |]; try discriminate.
    destruct y' as [sy|sy| |sy my ey]; b64_cases.
  - destruct x as [sx| | |], x' as [sx'| | |]; try discriminate.
    destruct y as [sy| | |], y' as [sy'| | |]; try discriminate.
    b64_cases.
Qed.

Lemma b64_mul_same x x' y y' :
  B64.same_number x x' -> B64.same_number y y' ->
  B64.same_number (B64.mul x y) (B64.mul x' y').
Proof.
  intros [->|[Hx Hx']] [->|[Hy Hy']]; [now left| | |].
  - destruct y as [sy| | |], y' as [sy'| | |]; try discriminate.
    destruct x' as [sx|sx| |sx mx ex]; b64_cases.
  - destruct x as [sx| | |], x' as [sx'| | |]; try discriminate.
    destruct y' as [sy|sy| |sy my ey]; b64_cases.
  - destruct x as [sx| | |], x' as [sx'| | |]; try discriminate.
    destruct y as [sy| | |], y' as [sy'| | |]; try discriminate.
    b64_cases.
Qed.

Lemma b64_sub_zero_r x z :
  B64.is_zero z = true -> B64.same_number (B64.sub x z) x.
Proof.
  destruct z as [sz| | |]; try discriminate. intros _.
  destruct x as [sx|sx| |sx mx ex]; b64_cases.
Qed.

Lemma b64_add_zero_r x z :
  B64.is_zero z = true -> B64.same_number (B64.add x z) x.
Proof.
  destruct z as [sz| | |]; try discriminate. intros _.
  destruct x as [sx|sx| |sx mx ex]; b64_cases.
Qed.

Lemma b64_add_zero_l x : B64.same_number (B64.add B64.zero x) x.
Proof. destruct x as [sx|sx| |sx mx ex]; b64_cases. Qed.

Lemma b64_mul_zero_l y :
  B64.is_finite y = true -> B64.is_zero (B64.mul B64.zero y) = true.
Proof. destruct y; try discriminate; reflexivity. Qed.

Lemma b64_add_finite_inv x y :
  B64.is_finite (B64.add x y) = true ->
  B64.is_finite x = true /\ B64.is_finite y = true.
Proof.
  destruct x as [sx|sx| |sx mx ex], y as [sy|sy| |sy my ey]; intros H;
    try (split; reflexivity); exfalso; revert H;
    repeat match goal with s : bool |- _ => destruct s end; discriminate.
Qed.

Lemma b64_mul_finite_inv x y :
  B64.is_finite (B64.mul x y) = true ->
  B64.is_finite x = true /\ B64.is_finite y = true.
Proof.
  destruct x as [sx|sx| |sx mx ex], y as [sy|sy| |sy my ey]; intros H;
    try (split; reflexivity); exfalso; revert H;
    repeat match goal with s : bool |- _ => destruct s end; discriminate.
Qed.

(** ** A real table as a complex table, in binary64 *)

Lemma b64_flip_off1 flips w c :
  flips_off flips -> B64.flip_sign (option_map fst flips) w c = c.
Proof. intros [->| ->]; reflexivity. Qed.

Lemma b64_flip_off2 flips w c :
  flips_off flips -> B64.flip_sign (option_map snd flips) w c = c.
Proof. intros [->| ->]; reflexivity. Qed.

Lemma b64_coef0_zeros h nc t k L c :
  B64.coef0 h nc t k L = Ok c ->
  B64.coef0 (B64.zeros h) nc t k L = Ok B64.zero.
Proof.
  unfold B64.coef0, B64.zeros.
  destruct (B64.iround _) as [n|]; cbn [bind]; [|discriminate].
  rewrite rd_map. intros ->. reflexivity.
Qed.

Lemma b64_mymod_periodic k K kmod wrap :
  B64.periodic k K = Ok (kmod, wrap) -> B64.mymod k K = Ok kmod.
Proof. unfold B64.mymod. intros ->. reflexivity. Qed.

(** A loop that ends in a finite state started from a finite state, when
    no step turns an infinity or a NaN back into a number. *)
Lemma b64_for_k_finite (b : int -> B64.cplx -> result B64.cplx) :
  (forall k s v, b k s = Ok v -> B64.cfinite v -> B64.cfinite s) ->
  forall n k s v, for_k n k b s = Ok v -> B64.cfinite v -> B64.cfinite s.
Proof.
  intros Hb n; induction n as [|n IH]; intros k s v H Hv; simpl in H.
  - now injection H as ->.
  - destruct (b k s) as [s1|] eqn:E; [|discriminate]. cbn [bind] in H.
    eapply Hb; eauto.
Qed.

Lemma b64_for_k_same (b b' : int -> B64.cplx -> result B64.cplx) :
  (forall k s v, b k s = Ok v -> B64.cfinite v -> B64.cfinite s) ->
  (forall k s s' v,
      B64.csame s s' -> b k s = Ok v -> B64.cfinite v ->
      exists v', b' k s' = Ok v' /\ B64.csame v v') ->
  forall n k s s' v,
    B64.csame s s' -> for_k n k b s = Ok v -> B64.cfinite v ->
    exists v', for_k n k b' s' = Ok v' /\ B64.csame v v'.
Proof.
  intros Hfin Hstep n; induction n as [|n IH]; intros k s s' v Hs H Hv;
    simpl in H.
  - injection H as <-. exists s'. split; [reflexivity | assumption].
  - destruct (b k s) as [s1|] eqn:E; [|discriminate]. cbn [bind] in H.
    assert (B64.cfinite s1) as Hs1 by (eapply b64_for_k_finite; eauto).
    destruct (Hstep k s s' s1 Hs E Hs1) as (s1' & E' & Hs1').
    destruct (IH (k + 1) s1 s1' v Hs1' H Hv) as (v' & Hv' & Hsame).
    exists v'. split; [|assumption].
    simpl. rewrite E'. exact Hv'.
Qed.

Section B64RealAsComplex.
Variables (r_ck i_ck : list B64.double) (K1 K2 : int).
Variables (r_h1 r_h2 : list B64.double).
Variable flips : option (int * int).
Variables (J1 J2 L1 L2 nc1 nc2 : int).
Hypothesis Hoff : flips_off flips.

Lemma b64_real0_j1_finite t1 k12mod k1 s v :
  B64.real0_j1 r_ck i_ck K1 r_h1 flips L1 nc1 t1 k12mod k1 s = Ok v ->
  B64.cfinite v -> B64.cfinite s.
Proof.
  unfold B64.real0_j1. destruct s as [sr si].
  destruct (B64.coef0 _ _ _ _ _) as [c|]; [|discriminate]. cbn [bind].
  destruct (B64.periodic k1 K1) as [[kmod wrap]|]; [|discriminate]. cbn [bind].
  destruct (rd r_ck _) as [rck|]; [|discriminate]. cbn [bind].
  destruct (rd i_ck _) as [ick|]; [|discriminate]. cbn [bind].
  intros [= <-] [Hr Hi]. cbn [fst snd] in *.
  apply b64_add_finite_inv in Hr, Hi. split; tauto.
Qed.

Lemma b64_real0_j1_same t1 k12mod k1 s s' v :
  B64.csame s s' ->
  B64.real0_j1 r_ck i_ck K1 r_h1 flips L1 nc1 t1 k12mod k1 s = Ok v ->
  B64.cfinite v ->
  exists v',
    B64.complex0_j1 r_ck i_ck K1 r_h1 (B64.zeros r_h1) L1 nc1 t1 k12mod k1 s'
    = Ok v' /\ B64.csame v v'.
Proof.
  unfold B64.real0_j1, B64.complex0_j1.
  destruct s as [sr si], s' as [sr' si']. intros [Hsr Hsi]. cbn [fst snd] in *.
  destruct (B64.coef0 r_h1 _ _ _ _) as [c|] eqn:Ec; [|discriminate].
  rewrite (b64_coef0_zeros _ _ _ _ _ _ Ec). cbn [bind].
  destruct (B64.periodic k1 K1) as [[kmod wrap]|] eqn:Ep; [|discriminate].
  rewrite (b64_mymod_periodic _ _ _ _ Ep). cbn [bind].
  rewrite (b64_flip_off1 _ _ _ Hoff).
  destruct (rd r_ck _) as [rck|]; [|discriminate]. cbn [bind].
  destruct (rd i_ck _) as [ick|]; [|discriminate]. cbn [bind].
  intros [= <-] [Hr Hi]. cbn [fst snd] in *.
  apply b64_add_finite_inv in Hr, Hi.
  destruct Hr as [_ Hr], Hi as [_ Hi].
  apply b64_mul_finite_inv in Hr, Hi.
  destruct Hr as [_ Hr], Hi as [_ Hi].
  eexists. split; [reflexivity|]. split; cbn [fst snd].
  - apply b64_add_same; [assumption|].
    apply b64_same_sym, b64_sub_zero_r, b64_mul_zero_l, Hi.
  - apply b64_add_same; [assumption|].
    apply b64_same_sym, b64_add_zero_r, b64_mul_zero_l, Hr.
Qed.

Lemma b64_real0_j2_finite t1 t2 koff1 k2 s v :
  B64.real0_j2 r_ck i_ck K1 K2 r_h1 r_h2 flips J1 L1 L2 nc1 nc2
    t1 t2 koff1 k2 s = Ok v ->
  B64.cfinite v -> B64.cfinite s.
Proof.
  unfold B64.real0_j2. destruct s as [sr si].
  destruct (B64.coef0 _ _ _ _ _) as [c|]; [|discriminate]. cbn [bind].
  destruct (B64.periodic k2 K2) as [[kmod wrap]|]; [|discriminate]. cbn [bind].
  destruct (for_k _ _ _ _) as [[s1r s1i]|]; [|discriminate]. cbn [bind].
  intros [= <-] [Hr Hi]. cbn [fst snd] in *.
  apply b64_add_finite_inv in Hr, Hi. split; tauto.
Qed.

Lemma b64_real0_j2_same t1 t2 koff1 k2 s s' v :
  B64.csame s s' ->
  B64.real0_j2 r_ck i_ck K1 K2 r_h1 r_h2 flips J1 L1 L2 nc1 nc2
    t1 t2 koff1 k2 s = Ok v ->
  B64.cfinite v ->
  exists v',
    B64.complex0_j2 r_ck i_ck K1 K2 r_h1 (B64.zeros r_h1) r_h2 (B64.zeros r_h2)
      J1 L1 L2 nc1 nc2 t1 t2 koff1 k2 s' = Ok v' /\ B64.csame v v'.
Proof.
  unfold B64.real0_j2, B64.complex0_j2.
  destruct s as [sr si], s' as [sr' si']. intros [Hsr Hsi]. cbn [fst snd] in *.
  destruct (B64.coef0 r_h2 _ _ _ _) as [c|] eqn:Ec; [|discriminate].
  rewrite (b64_coef0_zeros _ _ _ _ _ _ Ec). cbn [bind].
  destruct (B64.periodic k2 K2) as [[kmod wrap]|] eqn:Ep; [|discriminate].
  rewrite (b64_mymod_periodic _ _ _ _ Ep). cbn [bind].
  rewrite (b64_flip_off2 _ _ _ Hoff).
  destruct (for_k _ _ (B64.real0_j1 _ _ _ _ _ _ _ _ _) _) as [[s1r s1i]|] eqn:E1;
    [|discriminate]. cbn [bind].
  intros [= <-] [Hr Hi]. cbn [fst snd] in *.
  apply b64_add_finite_inv in Hr, Hi.
  destruct Hr as [_ Hr], Hi as [_ Hi].
  apply b64_mul_finite_inv in Hr, Hi.
  destruct Hr as [_ Hr], Hi as [_ Hi].
  destruct (b64_for_k_same _ _
              (b64_real0_j1_finite t1 (kmod * K1))
              (b64_real0_j1_same t1 (kmod * K1))
              (Z.to_nat J1) koff1 B64.czero B64.czero (s1r, s1i))
    as ([s1r' s1i'] & E1' & H1r & H1i);
    [split; apply b64_same_refl | exact E1 | split; assumption |].
  cbn [fst snd] in *. rewrite E1'. cbn [bind].
  eexists. split; [reflexivity|]. split; cbn [fst snd].
  - apply b64_add_same; [assumption|].
    eapply b64_same_trans;
      [|apply b64_same_sym, b64_sub_zero_r, b64_mul_zero_l;
        eapply b64_same_finite; eassumption].
    apply b64_mul_same; [apply b64_same_refl | assumption].
  - apply b64_add_same; [assumption|].
    eapply b64_same_trans;
      [|apply b64_same_sym, b64_add_zero_r, b64_mul_zero_l;
        eapply b64_same_finite; eassumption].
    apply b64_mul_same; [apply b64_same_refl | assumption].
Qed.

Lemma b64_real0_point_same t1 t2 v :
  B64.real0_point r_ck i_ck K1 K2 r_h1 r_h2 flips J1 J2 L1 L2 nc1 nc2 t1 t2
  = Ok v ->
  B64.cfinite v ->
  exists v',
    B64.complex0_point r_ck i_ck K1 K2 r_h1 (B64.zeros r_h1)
      r_h2 (B64.zeros r_h2) J1 J2 L1 L2 nc1 nc2 t1 t2 = Ok v'
    /\ B64.csame v v'.
Proof.
  unfold B64.real0_point, B64.complex0_point.
  destruct (B64.koff t1 J1) as [koff1|]; [|discriminate]. cbn [bind].
  destruct (B64.koff t2 J2) as [k2|]; [|discriminate]. cbn [bind].
  intros H Hv.
  apply (b64_for_k_same _ _
           (b64_real0_j2_finite t1 t2 koff1)
           (b64_real0_j2_same t1 t2 koff1)
           (Z.to_nat J2) k2 B64.czero B64.czero v); try assumption.
  split; apply b64_same_refl.
Qed.
End B64RealAsComplex.

(** ** The binary64 evaluators, slot by slot *)

Lemma b64_fill_slots {A : Type} (inj : B64.double -> A)
    (pt : int -> result B64.cplx) :
  forall n pre_a mid_a post_a pre_b mid_b post_b,
    length pre_b = length pre_a ->
    length mid_a = n -> length mid_b = n ->
    for_each (map Z.of_nat (seq (length pre_a) n)) (B64.fill_slot inj pt)
      (pre_a ++ mid_a ++ post_a, pre_b ++ mid_b ++ post_b)
    = vs <- B64.points_of pt (map Z.of_nat (seq (length pre_a) n)) ;;
      Ok (pre_a ++ map inj (map fst vs) ++ post_a,
          pre_b ++ map inj (map snd vs) ++ post_b).
Proof.
  induction n as [|n IH]; intros pre_a mid_a post_a pre_b mid_b post_b Hb Ha Hm.
  - destruct mid_a; [|discriminate]. destruct mid_b; [|discriminate].
    reflexivity.
  - destruct mid_a as [|xa mid_a]; [discriminate|].
    destruct mid_b as [|xb mid_b]; [discriminate|].
    simpl in Ha, Hm. injection Ha as Ha. injection Hm as Hm.
    simpl. unfold B64.fill_slot at 1. simpl fst; simpl snd.
    destruct (pt (Z.of_nat (length pre_a))) as [[vr vi]|e]; simpl; [|reflexivity].
    rewrite wr_app_mid. simpl.
    rewrite <- Hb at 1. rewrite wr_app_mid. simpl.
    rewrite (app_cons_assoc pre_a), (app_cons_assoc pre_b).
    replace (S (length pre_a)) with (length (pre_a ++ [inj vr]))
      by (rewrite length_app; simpl; lia).
    rewrite IH; [| rewrite !length_app; simpl; lia | assumption | assumption].
    destruct (B64.points_of _ _) as [vs|e]; simpl; [|reflexivity].
    rewrite <- !app_cons_assoc. reflexivity.
Qed.

Lemma b64_fill_slots_iota {A : Type} (inj : B64.double -> A)
    (pt : int -> result B64.cplx) M (a b post_a post_b : list A) :
  length a = Z.to_nat M -> length b = Z.to_nat M ->
  for_each (iota M) (B64.fill_slot inj pt) (a ++ post_a, b ++ post_b)
  = vs <- B64.points_of pt (iota M) ;;
    Ok (map inj (map fst vs) ++ post_a, map inj (map snd vs) ++ post_b).
Proof.
  intros Ha Hb.
  apply (b64_fill_slots inj pt (Z.to_nat M) [] a post_a [] b post_b); auto.
Qed.

Lemma b64_points_of_length pt idx vs :
  B64.points_of pt idx = Ok vs -> length vs = length idx.
Proof.
  revert vs; induction idx as [|m idx IH]; intros vs H; simpl in H.
  - injection H as <-. reflexivity.
  - destruct (pt m); [|discriminate]. simpl in H.
    destruct (B64.points_of pt idx) as [ws|]; [|discriminate]. simpl in H.
    injection H as <-. simpl. now rewrite (IH ws).
Qed.

Lemma b64_real0_mm_fill r_ck i_ck K1 K2 r_h1 r_h2 flips J1 J2 L1 L2 nc1 nc2
    p_tm M mm out :
  B64.real0_mm r_ck i_ck K1 K2 r_h1 r_h2 flips J1 J2 L1 L2 nc1 nc2 p_tm M mm out
  = B64.fill_slot (fun v => v)
      (B64.point_at
         (B64.real0_point r_ck i_ck K1 K2 r_h1 r_h2 flips J1 J2 L1 L2 nc1 nc2)
         p_tm M) mm out.
Proof.
  unfold B64.real0_mm, B64.fill_slot, B64.point_at. destruct out as [r_fm i_fm].
  rewrite (Z.add_comm mm M).
  rewrite !bind_assoc. apply bind_ext; intros t2.
  rewrite !bind_assoc. apply bind_ext; intros t1.
  destruct (B64.real0_point _ _ _ _ _ _ _ _ _ _ _ _ _ _ _) as [[fr fi]|];
    reflexivity.
Qed.

Lemma b64_complex0_mm_fill r_ck i_ck K1 K2 r_h1 i_h1 r_h2 i_h2 J1 J2 L1 L2
    nc1 nc2 p_tm M mm priv :
  B64.complex0_mm r_ck i_ck K1 K2 r_h1 i_h1 r_h2 i_h2 J1 J2 L1 L2 nc1 nc2
    p_tm M mm priv
  = B64.fill_slot Some
      (B64.point_at
         (B64.complex0_point r_ck i_ck K1 K2 r_h1 i_h1 r_h2 i_h2
            J1 J2 L1 L2 nc1 nc2) p_tm M) mm priv.
Proof.
  unfold B64.complex0_mm, B64.fill_slot, B64.point_at. destruct priv as [pr pi].
  rewrite !bind_assoc. apply bind_ext; intros t2.
  rewrite !bind_assoc. apply bind_ext; intros t1.
  destruct (B64.complex0_point _ _ _ _ _ _ _ _ _ _ _ _ _ _ _ _) as [[fr fi]|];
    reflexivity.
Qed.

Lemma b64_rd_cell_app_mid pre v rest :
  B64.rd_cell (pre ++ Some v :: rest) (Z.of_nat (length pre)) = Ok v.
Proof. unfold B64.rd_cell. rewrite rd_app_mid. reflexivity. Qed.

Lemma b64_merge_step pa v qa pb w qb pre_r x post_r pre_i y post_i :
  length pa = length pre_r -> length pb = length pre_r ->
  length pre_i = length pre_r ->
  B64.complex0_merge (pa ++ Some v :: qa, pb ++ Some w :: qb)
    (Z.of_nat (length pre_r)) (pre_r ++ x :: post_r, pre_i ++ y :: post_i)
  = Ok (pre_r ++ B64.add x v :: post_r, pre_i ++ B64.add y w :: post_i).
Proof.
  intros Hpa Hpb Hpi. unfold B64.complex0_merge.
  rewrite rd_app_mid. cbn [bind].
  rewrite <- Hpa at 1. rewrite b64_rd_cell_app_mid. cbn [bind].
  rewrite wr_app_mid. cbn [bind].
  rewrite <- Hpi at 1. rewrite rd_app_mid. cbn [bind].
  rewrite <- Hpb at 1. rewrite b64_rd_cell_app_mid. cbn [bind].
  rewrite <- Hpi at 1. rewrite wr_app_mid. reflexivity.
Qed.

(** Merging fully written private buffers into cleared output slots adds
    each private value to [0.0]. *)
Lemma b64_merge_written :
  forall n pa va qa pb vb qb pre_r post_r pre_i post_i,
    length pa = length pre_r -> length pb = length pre_r ->
    length pre_i = length pre_r ->
    length va = n -> length vb = n ->
    for_k n (Z.of_nat (length pre_r))
      (B64.complex0_merge (pa ++ map Some va ++ qa, pb ++ map Some vb ++ qb))
      (pre_r ++ repeat B64.zero n ++ post_r, pre_i ++ repeat B64.zero n ++ post_i)
    = Ok (pre_r ++ map (B64.add B64.zero) va ++ post_r,
          pre_i ++ map (B64.add B64.zero) vb ++ post_i).
Proof.
  induction n as [|n IH];
    intros pa va qa pb vb qb pre_r post_r pre_i post_i Hpa Hpb Hpi Hva Hvb.
  - destruct va; [|discriminate]. destruct vb; [|discriminate]. reflexivity.
  - destruct va as [|v va]; [discriminate|].
    destruct vb as [|w vb]; [discriminate|].
    simpl in Hva, Hvb. injection Hva as Hva. injection Hvb as Hvb.
    cbn [for_k map repeat app].
    rewrite b64_merge_step by assumption. cbn [bind].
    rewrite (app_cons_assoc pa), (app_cons_assoc pb),
      (app_cons_assoc pre_r), (app_cons_assoc pre_i).
    replace (Z.of_nat (length pre_r) + 1)
      with (Z.of_nat (length (pre_r ++ [B64.add B64.zero v])))
      by (rewrite length_app; simpl; lia).
    rewrite IH by (rewrite ?length_app; simpl; lia).
    rewrite <- !app_cons_assoc. reflexivity.
Qed.

Lemma b64_memset0_ok a M :
  0 <= M <= Z.of_nat (length a) ->
  B64.memset0 a M = Ok (repeat B64.zero (Z.to_nat M) ++ skipn (Z.to_nat M) a).
Proof.
  intros H. unfold B64.memset0.
  destruct (Z.leb_spec 0 M); [|lia].
  destruct (Z.leb_spec M (Z.of_nat (length a))); [|lia]. reflexivity.
Qed.

(** The sequential real-table evaluator writes the values of the points. *)
Lemma b64_real0_result r_ck i_ck K1 K2 r_h1 r_h2 flips J1 J2 L1 L2 nc1 nc2
    p_tm M r_fm i_fm :
  0 <= M <= Z.of_nat (length r_fm) -> M <= Z.of_nat (length i_fm) ->
  for_k (Z.to_nat M) 0
    (B64.real0_mm r_ck i_ck K1 K2 r_h1 r_h2 flips J1 J2 L1 L2 nc1 nc2 p_tm M)
    (r_fm, i_fm)
  = vs <- B64.points_of
            (B64.point_at
               (B64.real0_point r_ck i_ck K1 K2 r_h1 r_h2 flips
                  J1 J2 L1 L2 nc1 nc2) p_tm M) (iota M) ;;
    Ok (map fst vs ++ skipn (Z.to_nat M) r_fm,
        map snd vs ++ skipn (Z.to_nat M) i_fm).
Proof.
  intros Hr Hi. rewrite for_k_iota. fold (iota M).
  rewrite (for_each_ext _ _ (b64_real0_mm_fill r_ck i_ck K1 K2 r_h1 r_h2 flips
                               J1 J2 L1 L2 nc1 nc2 p_tm M)).
  rewrite <- (firstn_skipn (Z.to_nat M) r_fm) at 1.
  rewrite <- (firstn_skipn (Z.to_nat M) i_fm) at 1.
  rewrite b64_fill_slots_iota by (rewrite firstn_length_le; lia).
  apply bind_ext; intros vs. now rewrite !map_id.
Qed.

(** The parallel evaluator with one worker adds the values of the points
    to the cleared slots. *)
Lemma b64_complex0_result r_ck i_ck K1 K2 r_h1 i_h1 r_h2 i_h2 J1 J2 L1 L2
    nc1 nc2 p_tm M r_fm i_fm :
  0 <= M <= Z.of_nat (length r_fm) -> M <= Z.of_nat (length i_fm) ->
  (r0 <- B64.memset0 r_fm M ;;
   i0 <- B64.memset0 i_fm M ;;
   B64.complex0_workers r_ck i_ck K1 K2 r_h1 i_h1 r_h2 i_h2 J1 J2 L1 L2
     nc1 nc2 p_tm M [iota M] (r0, i0))
  = vs <- B64.points_of
            (B64.point_at
               (B64.complex0_point r_ck i_ck K1 K2 r_h1 i_h1 r_h2 i_h2
                  J1 J2 L1 L2 nc1 nc2) p_tm M) (iota M) ;;
    Ok (map (B64.add B64.zero) (map fst vs) ++ skipn (Z.to_nat M) r_fm,
        map (B64.add B64.zero) (map snd vs) ++ skipn (Z.to_nat M) i_fm).
Proof.
  intros Hr Hi. rewrite !b64_memset0_ok by lia. cbn [bind].
  cbn [B64.complex0_workers]. unfold B64.complex0_worker.
  rewrite (for_each_ext _ _ (b64_complex0_mm_fill r_ck i_ck K1 K2
                               r_h1 i_h1 r_h2 i_h2 J1 J2 L1 L2 nc1 nc2 p_tm M)).
  unfold B64.malloc.
  rewrite <- (app_nil_r (repeat None (Z.to_nat M))).
  rewrite b64_fill_slots_iota by apply repeat_length.
  destruct (B64.points_of _ _) as [vs|e] eqn:Hvs; cbn [bind]; [|reflexivity].
  apply b64_points_of_length in Hvs. rewrite iota_length in Hvs.
  pose proof (b64_merge_written (Z.to_nat M) [] (map fst vs) [] [] (map snd vs) []
                [] (skipn (Z.to_nat M) r_fm) [] (skipn (Z.to_nat M) i_fm)) as Hm.
  cbn [app length] in Hm. change (Z.of_nat 0) with 0 in Hm.
  rewrite Hm by (rewrite ?length_map; auto). reflexivity.
Qed.

Lemma b64_points_of_same (pt pt' : int -> result B64.cplx) :
  (forall m v, pt m = Ok v -> B64.cfinite v ->
               exists v', pt' m = Ok v' /\ B64.csame v v') ->
  forall idx vs,
    B64.points_of pt idx = Ok vs -> Forall B64.cfinite vs ->
    exists vs', B64.points_of pt' idx = Ok vs' /\ Forall2 B64.csame vs vs'.
Proof.
  intros H idx; induction idx as [|m idx IH]; intros vs Hvs Hfin; simpl in Hvs.
  - injection Hvs as <-. exists []. split; [reflexivity | constructor].
  - destruct (pt m) as [v|] eqn:Ev; [|discriminate]. cbn [bind] in Hvs.
    destruct (B64.points_of pt idx) as [ws|] eqn:Ews; [|discriminate].
    cbn [bind] in Hvs. injection Hvs as <-.
    inversion Hfin as [|? ? Hv Hws]; subst.
    destruct (H m v Ev Hv) as (v' & Ev' & Hsame).
    destruct (IH ws eq_refl Hws) as (ws' & Ews' & Hall).
    exists (v' :: ws'). split; [|now constructor].
    simpl. rewrite Ev'. cbn [bind]. rewrite Ews'. reflexivity.
Qed.

Lemma b64_point_at_same (point point' : B64.double -> B64.double -> result B64.cplx)
    p_tm M m v :
  (forall t1 t2 v, point t1 t2 = Ok v -> B64.cfinite v ->
                   exists v', point' t1 t2 = Ok v' /\ B64.csame v v') ->
  B64.point_at point p_tm M m = Ok v -> B64.cfinite v ->
  exists v', B64.point_at point' p_tm M m = Ok v' /\ B64.csame v v'.
Proof.
  intros H. unfold B64.point_at.
  destruct (rd p_tm (M + m)) as [t2|]; [|discriminate]. cbn [bind].
  destruct (rd p_tm m) as [t1|]; [|discriminate]. cbn [bind].
  apply H.
Qed.

Lemma b64_cfinite_parts vs :
  Forall (fun x => B64.is_finite x = true) (map fst vs) ->
  Forall (fun x => B64.is_finite x = true) (map snd vs) ->
  Forall B64.cfinite vs.
Proof.
  induction vs as [|v vs IH]; intros Hr Hi; [constructor|].
  simpl in Hr, Hi. inversion Hr; inversion Hi; subst.
  constructor; [split; assumption | auto].
Qed.

Lemma b64_outputs_same (vs vs' : list B64.cplx) (post : list B64.double)
    (part : B64.cplx -> B64.double) :
  (forall v v', B64.csame v v' -> B64.same_number (part v) (part v')) ->
  Forall2 B64.csame vs vs' ->
  Forall2 B64.same_number (map part vs ++ post)
    (map (B64.add B64.zero) (map part vs') ++ post).
Proof.
  intros Hpart H. apply Forall2_app.
  - induction H as [|v v' vs vs' Hv _ IH]; simpl; constructor; [|assumption].
    eapply b64_same_trans; [apply Hpart, Hv|].
    apply b64_same_sym, b64_add_zero_l.
  - induction post; constructor; [apply b64_same_refl | assumption].
Qed.

Lemma firstn_app_exact {A : Type} (a b : list A) n :
  length a = n -> firstn n (a ++ b) = a.
Proof.
  intros <-. rewrite firstn_app, Nat.sub_diag, firstn_0, app_nil_r.
  apply firstn_all.
Qed.

(** C10. In binary64, with the sign flips off and output arrays of at
    least [M] slots: whenever the real-table 0th-order evaluator completes
    with finite outputs (neither an infinity nor a NaN in the [M] output
    slots), the complex-table 0th-order evaluator (one worker, i.e. its
    sequential semantics) given the same grid, the same real table parts
    and imaginary table parts that are [0.0] throughout completes with the
    same outputs; a zero output may differ in sign. *)
Theorem real_table_as_complex_table_when_finite
    r_ck i_ck K1 K2 r_h1 r_h2 flips J1 J2 L1 L2 p_tm M r_fm i_fm r_out i_out :
  flips_off flips ->
  0 <= M <= Z.of_nat (length r_fm) -> M <= Z.of_nat (length i_fm) ->
  B64.interp2_table0_real_per r_ck i_ck K1 K2 r_h1 r_h2 flips J1 J2 L1 L2
    p_tm M r_fm i_fm = Ok (r_out, i_out) ->
  Forall (fun x => B64.is_finite x = true) (firstn (Z.to_nat M) r_out) ->
  Forall (fun x => B64.is_finite x = true) (firstn (Z.to_nat M) i_out) ->
  exists r_out' i_out',
    B64.interp2_table0_complex_per r_ck i_ck K1 K2
      r_h1 (B64.zeros r_h1) r_h2 (B64.zeros r_h2) J1 J2 L1 L2
      [iota M] p_tm M r_fm i_fm = Ok (r_out', i_out') /\
    Forall2 B64.same_number r_out r_out' /\
    Forall2 B64.same_number i_out i_out'.
Proof.
  intros Hoff Hr Hi. unfold B64.interp2_table0_real_per,
    B64.interp2_table0_complex_per.
  destruct (B64.ncenter J1 L1) as [nc1|]; [|discriminate]. cbn [bind].
  destruct (B64.ncenter J2 L2) as [nc2|]; [|discriminate]. cbn [bind].
  rewrite b64_real0_result, b64_complex0_result by assumption.
  destruct (B64.points_of _ _) as [vs|] eqn:Evs; [|discriminate]. cbn [bind].
  intros [= <- <-] Hfr Hfi.
  pose proof (b64_points_of_length _ _ _ Evs) as Hlen.
  rewrite iota_length in Hlen.
  rewrite firstn_app_exact in Hfr, Hfi by now rewrite length_map.
  destruct (b64_points_of_same _
              (B64.point_at
                 (B64.complex0_point r_ck i_ck K1 K2 r_h1 (B64.zeros r_h1)
                    r_h2 (B64.zeros r_h2) J1 J2 L1 L2 nc1 nc2) p_tm M)
              (fun m v => b64_point_at_same _ _ p_tm M m v
                            (b64_real0_point_same r_ck i_ck K1 K2 r_h1 r_h2
                               flips J1 J2 L1 L2 nc1 nc2 Hoff))
              (iota M) vs Evs (b64_cfinite_parts vs Hfr Hfi))
    as (vs' & Evs' & Hsame).
  rewrite Evs'. cbn [bind]. do 2 eexists. split; [reflexivity|].
  split; apply b64_outputs_same; try assumption; intros v v' [H1 H2]; assumption.
Qed.

Lemma real_table_as_complex_table_when_finite_witness :
  (flips_off None /\
   0 <= 1 <= Z.of_nat (length [B64.zero]) /\
   1 <= Z.of_nat (length [B64.zero]) /\
   B64.interp2_table0_real_per B64.delta_grid_r B64.delta_grid_i 4 4
     B64.tent_table B64.tent_table None 2 2 1 1
     [B64.below_minus_one; B64.zero] 1 [B64.zero] [B64.zero]
   = Ok ([B64.half], [B64.zero]) /\
   Forall (fun x => B64.is_finite x = true) (firstn (Z.to_nat 1) [B64.half]) /\
   Forall (fun x => B64.is_finite x = true) (firstn (Z.to_nat 1) [B64.zero])) /\
  exists r_out' i_out',
    B64.interp2_table0_complex_per B64.delta_grid_r B64.delta_grid_i 4 4
      B64.tent_table (B64.zeros B64.tent_table)
      B64.tent_table (B64.zeros B64.tent_table) 2 2 1 1
      [iota 1] [B64.below_minus_one; B64.zero] 1 [B64.zero] [B64.zero]
    = Ok (r_out', i_out') /\
    Forall2 B64.same_number [B64.half] r_out' /\
    Forall2 B64.same_number [B64.zero] i_out'.
Proof.
  assert (flips_off None) as Hoff by (left; reflexivity).
  assert (0 <= 1 <= Z.of_nat (length [B64.zero])) as Hr by (simpl; lia).
  assert (1 <= Z.of_nat (length [B64.zero])) as Hi by (simpl; lia).
  assert (B64.interp2_table0_real_per B64.delta_grid_r B64.delta_grid_i 4 4
            B64.tent_table B64.tent_table None 2 2 1 1
            [B64.below_minus_one; B64.zero] 1 [B64.zero] [B64.zero]
          = Ok ([B64.half], [B64.zero])) as He by (vm_compute; reflexivity).
  assert (Forall (fun x => B64.is_finite x = true)
            (firstn (Z.to_nat 1) [B64.half])) as Hfr
    by (repeat constructor).
  assert (Forall (fun x => B64.is_finite x = true)
            (firstn (Z.to_nat 1) [B64.zero])) as Hfi
    by (repeat constructor).
  split; [repeat split; try assumption; apply Hr|].
  exact (real_table_as_complex_table_when_finite
           B64.delta_grid_r B64.delta_grid_i 4 4 B64.tent_table B64.tent_table
           None 2 2 1 1 [B64.below_minus_one; B64.zero] 1 [B64.zero] [B64.zero]
           [B64.half] [B64.zero] Hoff Hr Hi He Hfr Hfi).
Defined.

(** Finite inputs are not enough.  With the grid coefficients
    [3 * 2^1022] the inner sum of the imaginary parts overflows to an
    infinity; the complex-table evaluator then subtracts [0 * inf], a NaN,
    from the real part, where the real-table evaluator returns [4]. *)
Lemma real_table_differs_on_overflow :
  B64.is_finite B64.huge = true /\
  B64.interp2_table0_real_per
    [B64.one; B64.one; B64.one; B64.one]
    [B64.huge; B64.huge; B64.huge; B64.huge] 2 2
    B64.ones_table B64.ones_table None 2 2 1 1
    [B64.zero; B64.zero] 1 [B64.zero] [B64.zero]
  = Ok ([B64.of_int 4], [S754_infinity false]) /\
  B64.interp2_table0_complex_per
    [B64.one; B64.one; B64.one; B64.one]
    [B64.huge; B64.huge; B64.huge; B64.huge] 2 2
    B64.ones_table (B64.zeros B64.ones_table)
    B64.ones_table (B64.zeros B64.ones_table) 2 2 1 1
    [iota 1] [B64.zero; B64.zero] 1 [B64.zero] [B64.zero]
  = Ok ([S754_nan], [S754_infinity false]).
Proof. repeat split; vm_compute; reflexivity. Qed.

(** ** The end-to-end example *)

(** C9. [K1 = K2 = 4], [J1 = J2 = 2], [L1 = L2 = 1], both tables
    [[0, 1, 0]], the grid 1 at [(0,0)] and 0 elsewhere: the real-table
    0th-order evaluator returns [(1, 0)] for the query point [(0, 0)] and
    the same for the query point [(4, 0)], whatever the output slot held
    before. *)
Theorem end_to_end_example (r0 i0 : double) :
  interp2_table0_real_per delta_grid_r delta_grid_i 4 4 delta_table delta_table
    None 2 2 1 1 [Q2Qc 0; Q2Qc 0] 1 [r0] [i0]
  = Ok ([Q2Qc 1], [Q2Qc 0])
  /\
  interp2_table0_real_per delta_grid_r delta_grid_i 4 4 delta_table delta_table
    None 2 2 1 1 [Q2Qc 4; Q2Qc 0] 1 [r0] [i0]
  = Ok ([Q2Qc 1], [Q2Qc 0])
  /\
  interp2_table0_real_per delta_grid_r delta_grid_i 4 4 delta_table delta_table
    (Some (0, 0)) 2 2 1 1 [Q2Qc 0; Q2Qc 0] 1 [r0] [i0]
  = Ok ([Q2Qc 1], [Q2Qc 0])
  /\
  interp2_table0_real_per delta_grid_r delta_grid_i 4 4 delta_table delta_table
    (Some (0, 0)) 2 2 1 1 [Q2Qc 4; Q2Qc 0] 1 [r0] [i0]
  = Ok ([Q2Qc 1], [Q2Qc 0]).
Proof. repeat split; vm_compute; reflexivity. Qed.

(** ** Degenerate inputs *)

Lemma faults_bind_l {A B : Type} (m : result A) (f : A -> result B) :
  faults m -> faults (bind m f).
Proof. intros [e ->]. now exists e. Qed.

Lemma faults_bind_r {A B : Type} (m : result A) (f : A -> result B) :
  (forall a, faults (f a)) -> faults (bind m f).
Proof. intros H. destruct m as [a|e]; [apply H | now exists e]. Qed.

Lemma faults_not_completes {A : Type} (r : result A) :
  faults r -> ~ completes r.
Proof. intros [e ->] [a H]. discriminate. Qed.

Lemma sum_from_first_faults term acc n :
  faults (term 0%nat) -> faults (sum_from acc (seq 0 (S n)) term).
Proof. intros H. simpl. now apply faults_bind_l. Qed.

Lemma to_nat_pos J : 0 < J -> exists n, Z.to_nat J = S n.
Proof.
  intros H. exists (Nat.pred (Z.to_nat J)). lia.
Qed.

(** With a zero extent on an axis and a non-empty window, the double sum
    faults in its first term. *)
Lemma spec_point_zero_extent {W : Type} (s1 s2 : double -> int -> result W)
    f1 f2 mul c K1 K2 J1 J2 t1 t2 :
  K1 = 0 \/ K2 = 0 -> 0 < J1 -> 0 < J2 ->
  faults (spec_point s1 s2 (fun k => periodic k K1) (fun k => periodic k K2)
            f1 f2 mul c K1 J1 J2 t1 t2).
Proof.
  intros HK HJ1 HJ2.
  destruct (to_nat_pos J1 HJ1) as [n1 Hn1].
  destruct (to_nat_pos J2 HJ2) as [n2 Hn2].
  unfold spec_point, sum_over. rewrite Hn2.
  apply sum_from_first_faults. unfold spec_term2.
  apply faults_bind_r; intros w2.
  destruct (Z.eq_dec K2 0) as [->|HK2].
  - rewrite periodic_zero. now exists DivByZero.
  - destruct HK as [->|?]; [|contradiction].
    apply faults_bind_r; intros [kmod wrap]. apply faults_bind_l.
    unfold sum_over. rewrite Hn1. apply sum_from_first_faults.
    unfold spec_term1. apply faults_bind_r; intros w1.
    rewrite periodic_zero. now exists DivByZero.
Qed.

Lemma iota_pos M : 0 < M -> exists rest, iota M = 0 :: rest.
Proof.
  intros H. destruct (to_nat_pos M H) as [n Hn].
  unfold iota. rewrite Hn. simpl. eauto.
Qed.

Lemma spec_slot_faults point p_tm M m out :
  (forall t1 t2, faults (point t1 t2)) ->
  faults (spec_slot point p_tm M m out).
Proof.
  intros H. unfold spec_slot.
  do 2 (apply faults_bind_r; intros ?). apply faults_bind_l, H.
Qed.

Lemma spec_eval_faults point p_tm M r_fm i_fm :
  0 < M -> (forall t1 t2, faults (point t1 t2)) ->
  faults (spec_eval point p_tm M r_fm i_fm).
Proof.
  intros HM H. unfold spec_eval.
  destruct (iota_pos M HM) as [rest ->]. simpl.
  apply faults_bind_l, spec_slot_faults, H.
Qed.

Lemma merge_unwritten_faults M r_fm i_fm :
  0 < M ->
  faults (for_k (Z.to_nat M) 0 (complex0_merge (malloc M, malloc M))
            (r_fm, i_fm)).
Proof.
  intros HM. unfold malloc.
  destruct (to_nat_pos M HM) as [n ->]. simpl.
  apply faults_bind_l. apply faults_bind_r; intros r.
  now exists Uninitialised.
Qed.

Lemma complex0_workers_no_index r_ck i_ck K1 K2 r_h1 i_h1 r_h2 i_h2 J1 J2 L1 L2
    p_tm nworkers out :
  complex0_workers r_ck i_ck K1 K2 r_h1 i_h1 r_h2 i_h2 J1 J2 L1 L2 p_tm 0
    (repeat [] nworkers) out
  = Ok out.
Proof.
  induction nworkers as [|n IH]; [reflexivity|]. simpl. exact IH.
Qed.

Lemma memset0_none a : memset0 a 0 = Ok a.
Proof.
  unfold memset0. simpl.
  destruct (Z.leb_spec 0 (Z.of_nat (length a))); [reflexivity|lia].
Qed.

(** C6, as the code has it.  With [M = 0] every evaluator returns without
    a fault and leaves both output arrays as they were, whatever the grid
    extents are (zero included).  A zero extent with [M > 0] and non-empty
    windows ([J1, J2 > 0]) is outside what the evaluators support: each of
    them faults in the first window iteration, at the latest on the
    division by the zero extent. *)
Theorem empty_input_and_zero_extent
    r_ck i_ck K1 K2 r_h1 i_h1 r_h2 i_h2 flips J1 J2 L1 L2 p_tm M r_fm i_fm
    nworkers sched :
  (interp2_table0_real_per r_ck i_ck K1 K2 r_h1 r_h2 flips J1 J2 L1 L2
     p_tm 0 r_fm i_fm = Ok (r_fm, i_fm) /\
   interp2_table1_real_per r_ck i_ck K1 K2 r_h1 r_h2 flips J1 J2 L1 L2
     p_tm 0 r_fm i_fm = Ok (r_fm, i_fm) /\
   interp2_table0_complex_per r_ck i_ck K1 K2 r_h1 i_h1 r_h2 i_h2 J1 J2 L1 L2
     (repeat [] nworkers) p_tm 0 r_fm i_fm = Ok (r_fm, i_fm))
  /\
  (K1 = 0 \/ K2 = 0 -> 0 < M -> 0 < J1 -> 0 < J2 -> sched <> [] ->
   faults (interp2_table0_real_per r_ck i_ck K1 K2 r_h1 r_h2 flips J1 J2 L1 L2
             p_tm M r_fm i_fm) /\
   faults (interp2_table1_real_per r_ck i_ck K1 K2 r_h1 r_h2 flips J1 J2 L1 L2
             p_tm M r_fm i_fm) /\
   faults (interp2_table0_complex_per r_ck i_ck K1 K2 r_h1 i_h1 r_h2 i_h2
             J1 J2 L1 L2 sched p_tm M r_fm i_fm)).
Proof.
  split.
  - split; [reflexivity|]. split; [reflexivity|].
    unfold interp2_table0_complex_per. rewrite !memset0_none. cbn [bind].
    apply complex0_workers_no_index.
  - intros HK HM HJ1 HJ2 Hsched. split; [|split].
    + rewrite real0_eval_points. apply spec_eval_faults; [assumption|].
      intros t1 t2. rewrite real0_point_spec.
      now apply spec_point_zero_extent.
    + rewrite real1_eval_points. apply spec_eval_faults; [assumption|].
      intros t1 t2. rewrite real1_point_spec.
      now apply spec_point_zero_extent.
    + unfold interp2_table0_complex_per.
      do 2 (apply faults_bind_r; intros ?).
      destruct sched as [|idx rest]; [contradiction|]. simpl.
      apply faults_bind_l. unfold complex0_worker.
      destruct idx as [|mm idx]; cbn [for_each bind].
      * now apply merge_unwritten_faults.
      * apply faults_bind_l, faults_bind_l.
        rewrite complex0_mm_fill. unfold fill_slot, point_at.
        apply faults_bind_l. do 2 (apply faults_bind_r; intros ?).
        rewrite complex0_point_spec. now apply spec_point_zero_extent.
Qed.

Lemma empty_input_and_zero_extent_witness :
  (0 = 0 \/ 0 = 0) /\ 0 < 1 /\ 0 < 2 /\ 0 < 2 /\ [iota 1] <> [] /\
  faults (interp2_table0_real_per [] [] 0 0 delta_table delta_table None
            2 2 1 1 [Q2Qc 0; Q2Qc 0] 1 [Q2Qc 0] [Q2Qc 0]) /\
  faults (interp2_table1_real_per [] [] 0 0 delta_table delta_table None
            2 2 1 1 [Q2Qc 0; Q2Qc 0] 1 [Q2Qc 0] [Q2Qc 0]) /\
  faults (interp2_table0_complex_per [] [] 0 0
            delta_table zero_table delta_table zero_table
            2 2 1 1 [iota 1] [Q2Qc 0; Q2Qc 0] 1 [Q2Qc 0] [Q2Qc 0]).
Proof.
  assert (0 = 0 \/ 0 = 0) as HK by (left; reflexivity).
  assert (0 < 1) as HM by reflexivity.
  assert (0 < 2) as HJ by reflexivity.
  assert ([iota 1] <> []) as Hs by discriminate.
  repeat (split; [assumption|]).
  exact (proj2 (empty_input_and_zero_extent [] [] 0 0
                  delta_table zero_table delta_table zero_table None 2 2 1 1
                  [Q2Qc 0; Q2Qc 0] 1 [Q2Qc 0] [Q2Qc 0] 1%nat [iota 1])
           HK HM HJ HJ Hs).
Defined.

(** The claim as the specification states it fails: with a zero grid extent
    and one query point the evaluation does not complete; it stops on the
    division by the extent. *)
Lemma zero_extent_does_not_complete :
  interp2_table0_real_per [] [] 0 0 delta_table delta_table None
    2 2 1 1 [Q2Qc 0; Q2Qc 0] 1 [Q2Qc 0] [Q2Qc 0]
  = Err DivByZero
  /\
  ~ completes
      (interp2_table0_real_per [] [] 0 0 delta_table delta_table None
         2 2 1 1 [Q2Qc 0; Q2Qc 0] 1 [Q2Qc 0] [Q2Qc 0]).
Proof.
  split; [reflexivity|]. intros [out H]. discriminate.
Qed.

(** ** The private buffers of the parallel evaluator *)

(** C3 does not hold of the code.  The private buffers come from [malloc]
    and are not cleared.  With [M = 2] query points handed to two workers,
    one index each, the merge of the first worker reads slot 1 of its
    private buffer, which was never written: the evaluation faults on an
    uninitialised read.  The same input with a single worker completes. *)
Theorem private_buffers_not_cleared :
  malloc 2 = [None; None]
  /\
  interp2_table0_complex_per delta_grid_r delta_grid_i 4 4
    delta_table zero_table delta_table zero_table 2 2 1 1
    [[0]; [1]] [Q2Qc 0; Q2Qc 4; Q2Qc 0; Q2Qc 0] 2
    [Q2Qc 0; Q2Qc 0] [Q2Qc 0; Q2Qc 0]
  = Err Uninitialised
  /\
  interp2_table0_complex_per delta_grid_r delta_grid_i 4 4
    delta_table zero_table delta_table zero_table 2 2 1 1
    [[0; 1]] [Q2Qc 0; Q2Qc 4; Q2Qc 0; Q2Qc 0] 2
    [Q2Qc 0; Q2Qc 0] [Q2Qc 0; Q2Qc 0]
  = Ok ([Q2Qc 1; Q2Qc 1], [Q2Qc 0; Q2Qc 0]).
Proof. repeat split; vm_compute; reflexivity. Qed.

(** * Further properties of the evaluators *)

(** ** Table and grid reads stay in range *)

Ltac to_Q2 := to_Q; change (/ inject_Z 2)%Q with (1 # 2)%Q in *.

Lemma of_nat_range jj J :
  (jj < Z.to_nat J)%nat ->
  (0 <= of_int (Z.of_nat jj))%Qc /\
  (of_int (Z.of_nat jj) + 1 <= of_int J)%Qc.
Proof.
  intros H. split; [apply of_nat_nonneg|].
  change (Q2Qc 1) with (of_int 1). rewrite <- of_int_add.
  to_Q. rewrite <- Zle_Qle. lia.
Qed.

(** Every neighbour [k] of the window of [t] has [-J/2 <= t - k < J/2]. *)
Lemma window_offset t J jj :
  (jj < Z.to_nat J)%nat ->
  (- (of_int J / of_int 2) <= t - of_int (koff t J + Z.of_nat jj)%Z)%Qc /\
  (t - of_int (koff t J + Z.of_nat jj)%Z < of_int J / of_int 2)%Qc.
Proof.
  intros Hjj. destruct (of_nat_range jj J Hjj) as [H0 H1].
  unfold koff. floor_facts (t - of_int J / of_int 2)%Qc.
  rewrite !of_int_add. change (of_int 1) with (Q2Qc 1).
  split; to_Q2; lra.
Qed.


Lemma of_int_lt a b : (of_int a < of_int b)%Qc -> a < b.
Proof. intros H. to_Q. now rewrite <- Zlt_Qlt in H. Qed.

Lemma of_int_le a b : (of_int a <= of_int b)%Qc -> a <= b.
Proof. intros H. to_Q. now rewrite <- Zle_Qle in H. Qed.

Lemma of_int_pos L : 0 < L -> (0 < of_int L)%Qc.
Proof.
  intros H. to_Q. change 0%Q with (inject_Z 0). now rewrite <- Zlt_Qlt.
Qed.

(** With [J * L = 2 * H] and [L > 0], the offsets of the window lie in
    [-H <= p < H]. *)
Lemma window_offset_scaled t J L H jj :
  0 < L -> J * L = 2 * H -> (jj < Z.to_nat J)%nat ->
  (of_int (- H)%Z <= offset t (koff t J + Z.of_nat jj)%Z L)%Qc /\
  (offset t (koff t J + Z.of_nat jj)%Z L < of_int H)%Qc.
Proof.
  intros HL HJL Hjj.
  destruct (window_offset t J jj Hjj) as [Hlo Hhi].
  pose proof (of_int_pos L HL) as HLq.
  assert (inject_Z H == (1 # 2) * (inject_Z J * inject_Z L))%Q as E.
  { rewrite <- inject_Z_mult, HJL, inject_Z_mult.
    change (inject_Z 2) with 2%Q. field. }
  unfold offset. rewrite of_int_opp.
  set (d := (t - of_int (koff t J + Z.of_nat jj)%Z)%Qc) in *. clearbody d.
  split; to_Q2; rewrite E; nra.
Qed.

Lemma floor_range p (H : int) :
  (of_int (- H)%Z <= p)%Qc -> (p < of_int H)%Qc -> - H <= floor p <= H - 1.
Proof.
  intros Hlo Hhi. floor_facts p.
  assert (of_int m < of_int H)%Qc as A by (to_Q; lra).
  assert (of_int (- H)%Z < of_int (m + 1)%Z)%Qc as B
    by (rewrite of_int_add; change (of_int 1) with (Q2Qc 1); to_Q; lra).
  apply of_int_lt in A, B. lia.
Qed.

Lemma iround_range p (H : int) :
  (of_int (- H)%Z <= p)%Qc -> (p < of_int H)%Qc -> - H <= iround p <= H.
Proof.
  intros Hlo Hhi. destruct (iround_nearest p) as [H1 H2].
  set (r := iround p) in *. clearbody r.
  assert (of_int r < of_int (H + 1)%Z)%Qc as A
    by (rewrite of_int_add; change (of_int 1) with (Q2Qc 1); to_Q; lra).
  assert (of_int (- H + - 1)%Z < of_int r)%Qc as B
    by (rewrite of_int_add; change (of_int (- 1)%Z) with (Q2Qc (- 1)); to_Q; lra).
  apply of_int_lt in A, B. lia.
Qed.

Lemma rd_in_range {A : Type} (a : list A) i :
  0 <= i < Z.of_nat (length a) -> completes (rd a i).
Proof.
  intros Hi. unfold rd, completes.
  destruct (Z.ltb_spec i 0); [lia|].
  destruct (nth_error a (Z.to_nat i)) as [v|] eqn:E; [eauto|].
  apply nth_error_None in E. lia.
Qed.

Lemma table_sized_half h J L :
  table_sized h J L ->
  0 < L /\ J * L = 2 * ncenter J L /\
  Z.of_nat (length h) = 2 * ncenter J L + 1.
Proof.
  intros (HL & Hev & Hlen). rewrite ncenter_div.
  apply Z.even_spec in Hev. destruct Hev as [H' E].
  assert (J * L / 2 = H') as ->
    by (rewrite E, (Z.mul_comm 2 H'); apply Z.div_mul; lia).
  repeat split; lia.
Qed.

Lemma coef0_in_range h J L t jj :
  table_sized h J L -> (jj < Z.to_nat J)%nat ->
  completes (coef0 h (ncenter J L) t (koff t J + Z.of_nat jj) L).
Proof.
  intros Hs Hjj. destruct (table_sized_half h J L Hs) as (HL & HJL & Hlen).
  destruct (window_offset_scaled t J L _ jj HL HJL Hjj) as [Hlo Hhi].
  pose proof (iround_range _ _ Hlo Hhi).
  unfold coef0. apply rd_in_range. lia.
Qed.

Lemma coef1_in_range h J L t jj :
  table_sized h J L -> (jj < Z.to_nat J)%nat ->
  completes (coef1 h (ncenter J L) t (koff t J + Z.of_nat jj) L).
Proof.
  intros Hs Hjj. destruct (table_sized_half h J L Hs) as (HL & HJL & Hlen).
  destruct (window_offset_scaled t J L _ jj HL HJL Hjj) as [Hlo Hhi].
  pose proof (floor_range _ _ Hlo Hhi).
  unfold coef1.
  destruct (rd_in_range h (ncenter J L + floor (offset t (koff t J + Z.of_nat jj) L)))
    as [a ->]; [lia|].
  destruct (rd_in_range h (ncenter J L + floor (offset t (koff t J + Z.of_nat jj) L) + 1))
    as [b ->]; [lia|].
  simpl. eexists. reflexivity.
Qed.

Lemma grid_at_in_range r_ck i_ck K1 K2 k1mod k2mod :
  grid_sized r_ck K1 K2 -> grid_sized i_ck K1 K2 ->
  0 <= k1mod < K1 -> 0 <= k2mod < K2 ->
  completes (grid_at r_ck i_ck (k2mod * K1 + k1mod)).
Proof.
  intros (H1 & H2 & Hr) (_ & _ & Hi) Hk1 Hk2. unfold grid_at.
  destruct (rd_in_range r_ck (k2mod * K1 + k1mod)) as [r ->]; [nia|].
  destruct (rd_in_range i_ck (k2mod * K1 + k1mod)) as [i ->]; [nia|].
  simpl. eexists. reflexivity.
Qed.

Lemma sum_from_completes term l :
  (forall jj, In jj l -> completes (term jj)) ->
  forall acc, completes (sum_from acc l term).
Proof.
  induction l as [|jj l IH]; intros H acc; simpl; [eexists; reflexivity|].
  destruct (H jj (or_introl eq_refl)) as [v ->]. simpl.
  apply IH. intros jj' Hin. apply H. now right.
Qed.

Lemma sum_over_completes term n :
  (forall jj, (jj < n)%nat -> completes (term jj)) ->
  completes (sum_over n term).
Proof.
  intros H. apply sum_from_completes. intros jj Hin.
  apply in_seq in Hin. apply H. lia.
Qed.

(** The double sum completes when the samplers complete on the window and
    the grid has [K1 * K2] coefficients. *)
Lemma spec_point_completes {W : Type} (s1 s2 : double -> int -> result W)
    f1 f2 mul r_ck i_ck K1 K2 J1 J2 t1 t2 :
  grid_sized r_ck K1 K2 -> grid_sized i_ck K1 K2 ->
  (forall jj, (jj < Z.to_nat J1)%nat ->
              completes (s1 t1 (koff t1 J1 + Z.of_nat jj))) ->
  (forall jj, (jj < Z.to_nat J2)%nat ->
              completes (s2 t2 (koff t2 J2 + Z.of_nat jj))) ->
  completes (spec_point s1 s2 (fun k => periodic k K1) (fun k => periodic k K2)
               f1 f2 mul (grid_at r_ck i_ck) K1 J1 J2 t1 t2).
Proof.
  intros Hr Hi Hs1 Hs2.
  assert (0 < K1 /\ 0 < K2) as [HK1 HK2] by (destruct Hr as (? & ? & _); auto).
  unfold spec_point. fold (koff t1 J1). fold (koff t2 J2).
  apply sum_over_completes. intros jj2 Hjj2.
  unfold spec_term2.
  destruct (Hs2 jj2 Hjj2) as [w2 ->]. cbn [bind].
  rewrite periodic_mod by lia. cbn [bind].
  match goal with
  | |- completes (bind ?s _) => assert (completes s) as [v ->]
  end; [|cbn [bind]; eexists; reflexivity].
  apply sum_over_completes. intros jj1 Hjj1. unfold spec_term1.
  destruct (Hs1 jj1 Hjj1) as [w1 ->]. cbn [bind].
  rewrite periodic_mod by lia. cbn [bind].
  destruct (grid_at_in_range r_ck i_ck K1 K2
              ((koff t1 J1 + Z.of_nat jj1) mod K1)
              ((koff t2 J2 + Z.of_nat jj2) mod K2) Hr Hi) as [c ->];
    try (apply Z.mod_pos_bound; lia).
  cbn [bind]. eexists. reflexivity.
Qed.

Lemma points_of_completes pt idx :
  (forall m, In m idx -> completes (pt m)) -> completes (points_of pt idx).
Proof.
  induction idx as [|m idx IH]; intros H; simpl; [eexists; reflexivity|].
  destruct (H m (or_introl eq_refl)) as [v ->]. simpl.
  destruct IH as [vs ->]; [intros; apply H; now right|].
  simpl. eexists. reflexivity.
Qed.

Lemma point_at_completes point p_tm M m :
  points_sized p_tm M -> 0 <= m < M ->
  (forall t1 t2, completes (point t1 t2)) ->
  completes (point_at point p_tm M m).
Proof.
  intros Hp Hm H. unfold points_sized in Hp. unfold point_at.
  destruct (rd_in_range p_tm (M + m)) as [t2 ->]; [lia|].
  destruct (rd_in_range p_tm m) as [t1 ->]; [lia|].
  simpl. apply H.
Qed.

(** The outputs of a completed evaluation: the values of the points, then
    the slots past [M] as they were. *)
Lemma spec_eval_result point p_tm M r_fm i_fm :
  output_sized r_fm M -> output_sized i_fm M ->
  spec_eval point p_tm M r_fm i_fm
  = vs <- points_of (point_at point p_tm M) (iota M) ;;
    Ok (map fst vs ++ skipn (Z.to_nat M) r_fm,
        map snd vs ++ skipn (Z.to_nat M) i_fm).
Proof.
  intros Hr Hi. unfold output_sized in *.
  rewrite <- (firstn_skipn (Z.to_nat M) r_fm) at 1.
  rewrite <- (firstn_skipn (Z.to_nat M) i_fm) at 1.
  apply spec_eval_overwrites; rewrite firstn_length_le; lia.
Qed.

Lemma spec_eval_completes point p_tm M r_fm i_fm :
  points_sized p_tm M -> output_sized r_fm M -> output_sized i_fm M ->
  (forall t1 t2, completes (point t1 t2)) ->
  completes (spec_eval point p_tm M r_fm i_fm).
Proof.
  intros Hp Hr Hi H. rewrite spec_eval_result by assumption.
  destruct (points_of_completes (point_at point p_tm M) (iota M)) as [vs ->].
  - intros m Hm. apply point_at_completes; auto. now apply in_iota.
  - simpl. eexists. reflexivity.
Qed.

(** X1. With arrays of the documented sizes (tables of [J*L+1] samples
    with [J*L] even and [L > 0], grids of [K1*K2] coefficients with
    [K1, K2 > 0], [2*M] coordinates, outputs of at least [M] slots) and
    query points at integer coordinates within the range of [int], the
    1st-order evaluator never reads or writes out of range and never
    divides by zero: it completes.  At integer coordinates the window
    start and the table offsets are computed without rounding in double
    precision as well. *)
Theorem interp2_table1_real_per_in_bounds
    r_ck i_ck K1 K2 r_h1 r_h2 flips J1 J2 L1 L2 zs M r_fm i_fm :
  grid_sized r_ck K1 K2 -> grid_sized i_ck K1 K2 ->
  table_sized r_h1 J1 L1 -> table_sized r_h2 J2 L2 ->
  int_ranged zs J1 J2 ->
  points_sized (map of_int zs) M ->
  output_sized r_fm M -> output_sized i_fm M ->
  completes
    (interp2_table1_real_per r_ck i_ck K1 K2 r_h1 r_h2 flips J1 J2 L1 L2
       (map of_int zs) M r_fm i_fm).
Proof.
  intros Hr Hi H1 H2 _ Hp Hor Hoi.
  rewrite real1_eval_points. apply spec_eval_completes; try assumption.
  intros t1 t2. rewrite real1_point_spec. unfold spec_real1_point.
  apply spec_point_completes; try assumption; intros jj Hjj;
    now apply coef1_in_range.
Qed.

(** X2. The same for the real-table 0th-order evaluator: at integer
    coordinates the rounded table index stays inside a table of [J*L+1]
    samples when [J*L] is even. *)
Theorem interp2_table0_real_per_in_bounds
    r_ck i_ck K1 K2 r_h1 r_h2 flips J1 J2 L1 L2 zs M r_fm i_fm :
  grid_sized r_ck K1 K2 -> grid_sized i_ck K1 K2 ->
  table_sized r_h1 J1 L1 -> table_sized r_h2 J2 L2 ->
  int_ranged zs J1 J2 ->
  points_sized (map of_int zs) M ->
  output_sized r_fm M -> output_sized i_fm M ->
  completes
    (interp2_table0_real_per r_ck i_ck K1 K2 r_h1 r_h2 flips J1 J2 L1 L2
       (map of_int zs) M r_fm i_fm).
Proof.
  intros Hr Hi H1 H2 _ Hp Hor Hoi.
  rewrite real0_eval_points. apply spec_eval_completes; try assumption.
  intros t1 t2. rewrite real0_point_spec. unfold spec_real0_point.
  apply spec_point_completes; try assumption; intros jj Hjj;
    now apply coef0_in_range.
Qed.

Lemma sampler0_complex_in_range r_h i_h J L t jj :
  table_sized r_h J L -> table_sized i_h J L -> (jj < Z.to_nat J)%nat ->
  completes (sampler0_complex r_h i_h J L t (koff t J + Z.of_nat jj)).
Proof.
  intros Hr Hi Hjj. unfold sampler0_complex.
  destruct (coef0_in_range r_h J L t jj Hr Hjj) as [re ->].
  destruct (coef0_in_range i_h J L t jj Hi Hjj) as [im ->].
  simpl. eexists. reflexivity.
Qed.

(** X3. The same for the complex-table evaluator when one worker is handed
    all the indices. *)
Theorem interp2_table0_complex_per_in_bounds
    r_ck i_ck K1 K2 r_h1 i_h1 r_h2 i_h2 J1 J2 L1 L2 zs M r_fm i_fm :
  grid_sized r_ck K1 K2 -> grid_sized i_ck K1 K2 ->
  table_sized r_h1 J1 L1 -> table_sized i_h1 J1 L1 ->
  table_sized r_h2 J2 L2 -> table_sized i_h2 J2 L2 ->
  int_ranged zs J1 J2 ->
  points_sized (map of_int zs) M ->
  output_sized r_fm M -> output_sized i_fm M ->
  completes
    (interp2_table0_complex_per r_ck i_ck K1 K2 r_h1 i_h1 r_h2 i_h2
       J1 J2 L1 L2 [iota M] (map of_int zs) M r_fm i_fm).
Proof.
  intros Hr Hi H1r H1i H2r H2i _ Hp Hor Hoi.
  rewrite complex0_single_worker.
  rewrite spec_eval_cleared_same
    by (unfold output_sized in *; assumption || lia).
  apply spec_eval_completes; try assumption.
  intros t1 t2. rewrite complex0_point_spec. unfold spec_complex0_point.
  apply spec_point_completes; try assumption; intros jj Hjj;
    now apply sampler0_complex_in_range.
Qed.

Lemma delta_sizes :
  grid_sized delta_grid_r 4 4 /\ grid_sized delta_grid_i 4 4 /\
  table_sized delta_table 2 1 /\ table_sized zero_table 2 1 /\
  points_sized [Q2Qc (7 # 2); Q2Qc (- 1 # 3)] 1 /\
  output_sized [Q2Qc 0] 1.
Proof.
  unfold grid_sized, table_sized, points_sized, output_sized. simpl.
  repeat split; reflexivity || lia || discriminate.
Defined.

Lemma integer_points_sizes :
  int_ranged [3; -1] 2 2 /\ points_sized (map of_int [3; -1]) 1.
Proof.
  split; [apply int_ranged_small; [reflexivity | lia | lia] | reflexivity].
Defined.

Lemma interp2_table1_real_per_in_bounds_witness :
  (grid_sized delta_grid_r 4 4 /\ grid_sized delta_grid_i 4 4 /\
   table_sized delta_table 2 1 /\
   int_ranged [3; -1] 2 2 /\ points_sized (map of_int [3; -1]) 1 /\
   output_sized [Q2Qc 0] 1) /\
  completes
    (interp2_table1_real_per delta_grid_r delta_grid_i 4 4
       delta_table delta_table None 2 2 1 1
       (map of_int [3; -1]) 1 [Q2Qc 0] [Q2Qc 0]).
Proof.
  destruct delta_sizes as (Hr & Hi & Ht & _ & _ & Ho).
  destruct integer_points_sizes as (Hz & Hp).
  split; [exact (conj Hr (conj Hi (conj Ht (conj Hz (conj Hp Ho)))))|].
  exact (interp2_table1_real_per_in_bounds delta_grid_r delta_grid_i 4 4
           delta_table delta_table None 2 2 1 1
           [3; -1] 1 [Q2Qc 0] [Q2Qc 0]
           Hr Hi Ht Ht Hz Hp Ho Ho).
Defined.

Lemma interp2_table0_real_per_in_bounds_witness :
  (grid_sized delta_grid_r 4 4 /\ grid_sized delta_grid_i 4 4 /\
   table_sized delta_table 2 1 /\
   int_ranged [3; -1] 2 2 /\ points_sized (map of_int [3; -1]) 1 /\
   output_sized [Q2Qc 0] 1) /\
  completes
    (interp2_table0_real_per delta_grid_r delta_grid_i 4 4
       delta_table delta_table None 2 2 1 1
       (map of_int [3; -1]) 1 [Q2Qc 0] [Q2Qc 0]).
Proof.
  destruct delta_sizes as (Hr & Hi & Ht & _ & _ & Ho).
  destruct integer_points_sizes as (Hz & Hp).
  split; [exact (conj Hr (conj Hi (conj Ht (conj Hz (conj Hp Ho)))))|].
  exact (interp2_table0_real_per_in_bounds delta_grid_r delta_grid_i 4 4
           delta_table delta_table None 2 2 1 1
           [3; -1] 1 [Q2Qc 0] [Q2Qc 0]
           Hr Hi Ht Ht Hz Hp Ho Ho).
Defined.

Lemma interp2_table0_complex_per_in_bounds_witness :
  (grid_sized delta_grid_r 4 4 /\ grid_sized delta_grid_i 4 4 /\
   table_sized delta_table 2 1 /\ table_sized zero_table 2 1 /\
   int_ranged [3; -1] 2 2 /\ points_sized (map of_int [3; -1]) 1 /\
   output_sized [Q2Qc 0] 1) /\
  completes
    (interp2_table0_complex_per delta_grid_r delta_grid_i 4 4
       delta_table zero_table delta_table zero_table 2 2 1 1
       [iota 1] (map of_int [3; -1]) 1 [Q2Qc 0] [Q2Qc 0]).
Proof.
  destruct delta_sizes as (Hr & Hi & Ht & Hz & _ & Ho).
  destruct integer_points_sizes as (Hn & Hp).
  split; [exact (conj Hr (conj Hi (conj Ht (conj Hz (conj Hn (conj Hp Ho))))))|].
  exact (interp2_table0_complex_per_in_bounds delta_grid_r delta_grid_i 4 4
           delta_table zero_table delta_table zero_table 2 2 1 1
           [3; -1] 1 [Q2Qc 0] [Q2Qc 0]
           Hr Hi Ht Hz Ht Hz Hn Hp Ho Ho).
Defined.

(** ** What a completed evaluation leaves in the output arrays *)

Lemma skipn_app_exact {A : Type} (a b : list A) n :
  length a = n -> skipn n (a ++ b) = b.
Proof.
  intros <-. rewrite skipn_app, skipn_all, Nat.sub_diag. reflexivity.
Qed.

Lemma spec_eval_outputs point p_tm M r_fm i_fm r_out i_out :
  output_sized r_fm M -> output_sized i_fm M ->
  spec_eval point p_tm M r_fm i_fm = Ok (r_out, i_out) ->
  (length r_out = length r_fm /\ length i_out = length i_fm) /\
  (skipn (Z.to_nat M) r_out = skipn (Z.to_nat M) r_fm /\
   skipn (Z.to_nat M) i_out = skipn (Z.to_nat M) i_fm) /\
  (forall r_fm' i_fm',
      length r_fm' = length r_fm -> length i_fm' = length i_fm ->
      skipn (Z.to_nat M) r_fm' = skipn (Z.to_nat M) r_fm ->
      skipn (Z.to_nat M) i_fm' = skipn (Z.to_nat M) i_fm ->
      spec_eval point p_tm M r_fm' i_fm' = Ok (r_out, i_out)).
Proof.
  intros Hr Hi H. rewrite spec_eval_result in H by assumption.
  destruct (points_of _ _) as [vs|] eqn:Hvs; [|discriminate].
  simpl in H. injection H as <- <-.
  pose proof (points_of_length _ _ _ Hvs) as Hlen. rewrite iota_length in Hlen.
  unfold output_sized in *.
  split; [|split].
  - rewrite !length_app, !length_map, !length_skipn. unfold cplx in *. lia.
  - unfold cplx in *. split; apply skipn_app_exact; now rewrite length_map.
  - intros r' i' Hlr Hli Hsr Hsi.
    rewrite spec_eval_result by (unfold output_sized; lia).
    rewrite Hvs. simpl. now rewrite Hsr, Hsi.
Qed.

(** X4. An evaluation that completes on output arrays of at least [M]
    slots keeps their lengths, leaves the slots from [M] on as they were,
    and does not depend on what the first [M] slots held: any other arrays
    with the same length and the same slots from [M] on give the same
    result.  (The parallel evaluator is taken with one worker.) *)
Theorem outputs_overwritten
    r_ck i_ck K1 K2 r_h1 i_h1 r_h2 i_h2 flips J1 J2 L1 L2 p_tm M r_fm i_fm :
  output_sized r_fm M -> output_sized i_fm M ->
  let overwrites (run : list double -> list double
                        -> result (list double * list double)) :=
    forall r_out i_out,
      run r_fm i_fm = Ok (r_out, i_out) ->
      (length r_out = length r_fm /\ length i_out = length i_fm) /\
      (skipn (Z.to_nat M) r_out = skipn (Z.to_nat M) r_fm /\
       skipn (Z.to_nat M) i_out = skipn (Z.to_nat M) i_fm) /\
      (forall r_fm' i_fm',
          length r_fm' = length r_fm -> length i_fm' = length i_fm ->
          skipn (Z.to_nat M) r_fm' = skipn (Z.to_nat M) r_fm ->
          skipn (Z.to_nat M) i_fm' = skipn (Z.to_nat M) i_fm ->
          run r_fm' i_fm' = Ok (r_out, i_out)) in
  overwrites
    (interp2_table0_real_per r_ck i_ck K1 K2 r_h1 r_h2 flips J1 J2 L1 L2
       p_tm M) /\
  overwrites
    (interp2_table1_real_per r_ck i_ck K1 K2 r_h1 r_h2 flips J1 J2 L1 L2
       p_tm M) /\
  overwrites
    (interp2_table0_complex_per r_ck i_ck K1 K2 r_h1 i_h1 r_h2 i_h2
       J1 J2 L1 L2 [iota M] p_tm M).
Proof.
  intros Hr Hi overwrites. subst overwrites. cbv beta.
  split; [|split]; intros r_out i_out H.
  - rewrite real0_eval_points in H.
    destruct (spec_eval_outputs _ _ _ _ _ _ _ Hr Hi H) as (A & B & C).
    split; [exact A|]. split; [exact B|]. intros r' i' H1 H2 H3 H4.
    rewrite real0_eval_points. now apply C.
  - rewrite real1_eval_points in H.
    destruct (spec_eval_outputs _ _ _ _ _ _ _ Hr Hi H) as (A & B & C).
    split; [exact A|]. split; [exact B|]. intros r' i' H1 H2 H3 H4.
    rewrite real1_eval_points. now apply C.
  - rewrite complex0_single_worker in H.
    rewrite spec_eval_cleared_same in H
      by (unfold output_sized in *; assumption || lia).
    destruct (spec_eval_outputs _ _ _ _ _ _ _ Hr Hi H) as (A & B & C).
    split; [exact A|]. split; [exact B|]. intros r' i' H1 H2 H3 H4.
    rewrite complex0_single_worker.
    rewrite spec_eval_cleared_same
      by (unfold output_sized in *; rewrite ?H1, ?H2; assumption || lia).
    now apply C.
Qed.

Lemma outputs_overwritten_witness :
  (output_sized [Q2Qc 5; Q2Qc 6] 1 /\ output_sized [Q2Qc 7; Q2Qc 8] 1) /\
  interp2_table0_real_per delta_grid_r delta_grid_i 4 4
    delta_table delta_table None 2 2 1 1 [Q2Qc 4; Q2Qc 0] 1
    [Q2Qc 9; Q2Qc 6] [Q2Qc 9; Q2Qc 8]
  = Ok ([Q2Qc 1; Q2Qc 6], [Q2Qc 0; Q2Qc 8]).
Proof.
  assert (output_sized [Q2Qc 5; Q2Qc 6] 1) as Hr
    by (unfold output_sized; simpl; lia).
  assert (output_sized [Q2Qc 7; Q2Qc 8] 1) as Hi
    by (unfold output_sized; simpl; lia).
  split; [split; assumption|].
  pose proof (outputs_overwritten delta_grid_r delta_grid_i 4 4
                delta_table zero_table delta_table zero_table None 2 2 1 1
                [Q2Qc 4; Q2Qc 0] 1 [Q2Qc 5; Q2Qc 6] [Q2Qc 7; Q2Qc 8] Hr Hi)
    as H.
  cbv zeta beta in H. destruct H as [H _].
  destruct (H [Q2Qc 1; Q2Qc 6] [Q2Qc 0; Q2Qc 8] eq_refl) as (_ & _ & C).
  apply C; reflexivity.
Defined.

(** ** Sign flips and the period *)

Lemma spec_eval_exact point p_tm M r_fm i_fm :
  Z.of_nat (length r_fm) = M -> Z.of_nat (length i_fm) = M ->
  spec_eval point p_tm M r_fm i_fm
  = vs <- points_of (point_at point p_tm M) (iota M) ;;
    Ok (map fst vs, map snd vs).
Proof.
  intros Hr Hi. rewrite spec_eval_result by (unfold output_sized; lia).
  rewrite !skipn_all2 by lia.
  apply bind_ext; intros vs. now rewrite !app_nil_r.
Qed.

Lemma flip_sign_next f wrap w :
  flip_sign (Some f) (wrap + 1) w
  = dsign (negb (f =? 0)) (flip_sign (Some f) wrap w).
Proof.
  rewrite !flip_sign_some. destruct (f =? 0); [reflexivity|]. simpl.
  change (wrap + 1) with (Z.succ wrap). rewrite Z.odd_succ, <- Z.negb_odd.
  destruct (Z.odd wrap); simpl; [|reflexivity].
  symmetry. apply Qcopp_involutive.
Qed.

Lemma smul_dsign s w v : smul (dsign s w) v = csign s (smul w v).
Proof.
  destruct s; [|reflexivity].
  unfold csign, dsign, cneg, smul. cbn [fst snd]. f_equal; ring.
Qed.

Lemma smul_csign s w v : smul w (csign s v) = csign s (smul w v).
Proof.
  destruct s; [|reflexivity].
  unfold csign, cneg, smul. cbn [fst snd]. f_equal; ring.
Qed.

Lemma cadd_csign s v w : cadd (csign s v) (csign s w) = csign s (cadd v w).
Proof.
  destruct s; [|reflexivity].
  unfold csign, cneg, cadd. cbn [fst snd]. f_equal; ring.
Qed.

Lemma csign_czero s : csign s czero = czero.
Proof.
  destruct s; [|reflexivity].
  unfold csign, cneg, czero. cbn [fst snd]. f_equal; ring.
Qed.

Lemma sum_from_csign s f g :
  (forall jj, g jj = v <- f jj ;; Ok (csign s v)) ->
  forall l acc,
    sum_from (csign s acc) l g = v <- sum_from acc l f ;; Ok (csign s v).
Proof.
  intros H l; induction l as [|jj l IH]; intros acc; simpl; [reflexivity|].
  rewrite H. destruct (f jj) as [v|e]; simpl; [|reflexivity].
  rewrite cadd_csign. apply IH.
Qed.

Lemma sum_over_csign s f g n :
  (forall jj, g jj = v <- f jj ;; Ok (csign s v)) ->
  sum_over n g = v <- sum_over n f ;; Ok (csign s v).
Proof.
  intros H. unfold sum_over. rewrite <- (csign_czero s) at 1.
  now apply sum_from_csign.
Qed.

Section FlipPeriod.
Variables (s1 s2 : double -> int -> result double).
Variables (flip1 flip2 : int).
Variables (r_ck i_ck : list double) (K1 K2 J1 J2 : int).
Hypothesis Hs1 : forall t k, s1 (t + of_int K1)%Qc (k + K1) = s1 t k.
Hypothesis Hs2 : forall t k, s2 (t + of_int K2)%Qc (k + K2) = s2 t k.

Let point :=
  spec_point s1 s2 (fun k => periodic k K1) (fun k => periodic k K2)
    (flip_sign (Some flip1)) (flip_sign (Some flip2)) smul
    (grid_at r_ck i_ck) K1 J1 J2.

Lemma flip_point_shift1 t1 t2 :
  point (t1 + of_int K1)%Qc t2
  = v <- point t1 t2 ;; Ok (csign (negb (flip1 =? 0)) v).
Proof.
  unfold point, spec_point. rewrite k_start_shift.
  apply sum_over_csign; intros jj2. unfold spec_term2.
  rewrite bind_assoc. apply bind_ext; intros w2.
  rewrite bind_assoc. apply bind_ext; intros [kmod wrap].
  rewrite (sum_over_csign (negb (flip1 =? 0))
             (fun jj1 => spec_term1 s1 (fun k => periodic k K1)
                           (flip_sign (Some flip1)) smul (grid_at r_ck i_ck) K1
                           t1 kmod
                           (1 + floor (t1 - of_int J1 / of_int 2)%Qc
                            + Z.of_nat jj1))).
  - rewrite !bind_assoc. apply bind_ext; intros v. cbn [bind].
    now rewrite smul_csign.
  - intros jj1.
    replace (1 + floor (t1 - of_int J1 / of_int 2)%Qc + K1 + Z.of_nat jj1)
      with (1 + floor (t1 - of_int J1 / of_int 2)%Qc + Z.of_nat jj1 + K1)
      by lia.
    unfold spec_term1. rewrite Hs1.
    rewrite bind_assoc. apply bind_ext; intros w1.
    rewrite periodic_next.
    destruct (periodic _ K1) as [[kmod1 wrap1]|]; [|reflexivity]. cbn [bind].
    rewrite bind_assoc. apply bind_ext; intros v. cbn [bind].
    now rewrite flip_sign_next, smul_dsign.
Qed.

Lemma flip_point_shift2 t1 t2 :
  point t1 (t2 + of_int K2)%Qc
  = v <- point t1 t2 ;; Ok (csign (negb (flip2 =? 0)) v).
Proof.
  unfold point, spec_point. rewrite k_start_shift.
  apply sum_over_csign; intros jj2. unfold spec_term2.
  replace (1 + floor (t2 - of_int J2 / of_int 2)%Qc + K2 + Z.of_nat jj2)
    with (1 + floor (t2 - of_int J2 / of_int 2)%Qc + Z.of_nat jj2 + K2)
    by lia.
  rewrite Hs2. rewrite bind_assoc. apply bind_ext; intros w2.
  rewrite periodic_next.
  destruct (periodic _ K2) as [[kmod wrap]|]; [|reflexivity]. cbn [bind].
  rewrite bind_assoc. apply bind_ext; intros v. cbn [bind].
  now rewrite flip_sign_next, smul_dsign.
Qed.
End FlipPeriod.

Lemma points_of_map (phi : cplx -> cplx) pt pt' :
  (forall m, pt' m = v <- pt m ;; Ok (phi v)) ->
  forall idx,
    points_of pt' idx = vs <- points_of pt idx ;; Ok (map phi vs).
Proof.
  intros H idx; induction idx as [|m idx IH]; simpl; [reflexivity|].
  rewrite H, IH. destruct (pt m); simpl; [|reflexivity].
  destruct (points_of pt idx); reflexivity.
Qed.

Lemma map_fst_csign s (vs : list cplx) :
  map fst (map (csign s) vs) = map (dsign s) (map fst vs).
Proof.
  rewrite !map_map. apply map_ext. intros [x y]. now destruct s.
Qed.

Lemma map_snd_csign s (vs : list cplx) :
  map snd (map (csign s) vs) = map (dsign s) (map snd vs).
Proof.
  rewrite !map_map. apply map_ext. intros [x y]. now destruct s.
Qed.

Lemma spec_eval_csign s point point' p_tm M r_fm i_fm :
  (forall t1 t2, point' t1 t2 = v <- point t1 t2 ;; Ok (csign s v)) ->
  Z.of_nat (length r_fm) = M -> Z.of_nat (length i_fm) = M ->
  spec_eval point' p_tm M r_fm i_fm
  = out <- spec_eval point p_tm M r_fm i_fm ;;
    Ok (map (dsign s) (fst out), map (dsign s) (snd out)).
Proof.
  intros H Hr Hi. rewrite !spec_eval_exact by assumption.
  rewrite (points_of_map (csign s) (point_at point p_tm M)).
  - destruct (points_of _ _) as [vs|]; simpl; [|reflexivity].
    now rewrite map_fst_csign, map_snd_csign.
  - intros m. unfold point_at.
    rewrite bind_assoc. apply bind_ext; intros t2.
    rewrite bind_assoc. apply bind_ext; intros t1. apply H.
Qed.

Lemma real0_flip_period r_ck i_ck K1 K2 r_h1 r_h2 flip1 flip2 J1 J2 L1 L2 t1 t2 :
  real0_point r_ck i_ck K1 K2 r_h1 r_h2 (Some (flip1, flip2)) J1 J2 L1 L2
    (t1 + of_int K1)%Qc t2
  = (v <- real0_point r_ck i_ck K1 K2 r_h1 r_h2 (Some (flip1, flip2))
            J1 J2 L1 L2 t1 t2 ;;
     Ok (csign (negb (flip1 =? 0)) v))
  /\
  real0_point r_ck i_ck K1 K2 r_h1 r_h2 (Some (flip1, flip2)) J1 J2 L1 L2
    t1 (t2 + of_int K2)%Qc
  = (v <- real0_point r_ck i_ck K1 K2 r_h1 r_h2 (Some (flip1, flip2))
            J1 J2 L1 L2 t1 t2 ;;
     Ok (csign (negb (flip2 =? 0)) v)).
Proof.
  rewrite !real0_point_spec. unfold spec_real0_point. cbn [option_map fst snd].
  split.
  - apply flip_point_shift1. intros; apply coef0_shift.
  - apply flip_point_shift2. intros; apply coef0_shift.
Qed.

Lemma real1_flip_period r_ck i_ck K1 K2 r_h1 r_h2 flip1 flip2 J1 J2 L1 L2 t1 t2 :
  real1_point r_ck i_ck K1 K2 r_h1 r_h2 (Some (flip1, flip2)) J1 J2 L1 L2
    (t1 + of_int K1)%Qc t2
  = (v <- real1_point r_ck i_ck K1 K2 r_h1 r_h2 (Some (flip1, flip2))
            J1 J2 L1 L2 t1 t2 ;;
     Ok (csign (negb (flip1 =? 0)) v))
  /\
  real1_point r_ck i_ck K1 K2 r_h1 r_h2 (Some (flip1, flip2)) J1 J2 L1 L2
    t1 (t2 + of_int K2)%Qc
  = (v <- real1_point r_ck i_ck K1 K2 r_h1 r_h2 (Some (flip1, flip2))
            J1 J2 L1 L2 t1 t2 ;;
     Ok (csign (negb (flip2 =? 0)) v)).
Proof.
  rewrite !real1_point_spec. unfold spec_real1_point. cbn [option_map fst snd].
  split.
  - apply flip_point_shift1. intros; apply coef1_shift.
  - apply flip_point_shift2. intros; apply coef1_shift.
Qed.

(** X6. Built with [Provide_flip], the real-table evaluators extend the
    grid with alternating sign.  For query points at integer coordinates
    (within the range of [int]), moving the points by one period along an
    axis negates every output when the flip flag of that axis is set, and
    leaves the outputs unchanged when it is zero (output arrays of [M]
    slots). *)
Theorem flip_alternates_with_period
    r_ck i_ck K1 K2 r_h1 r_h2 flip1 flip2 J1 J2 L1 L2 zs M r_fm i_fm :
  Z.of_nat (length r_fm) = M -> Z.of_nat (length i_fm) = M ->
  int_ranged zs J1 J2 ->
  int_ranged (shift_ints K1 0 M zs) J1 J2 ->
  int_ranged (shift_ints 0 K2 M zs) J1 J2 ->
  let real0 :=
    interp2_table0_real_per r_ck i_ck K1 K2 r_h1 r_h2 (Some (flip1, flip2))
      J1 J2 L1 L2 in
  let real1 :=
    interp2_table1_real_per r_ck i_ck K1 K2 r_h1 r_h2 (Some (flip1, flip2))
      J1 J2 L1 L2 in
  let at_integers := map of_int zs in
  let along1 := map of_int (shift_ints K1 0 M zs) in
  let along2 := map of_int (shift_ints 0 K2 M zs) in
  let signed (flip : int) (r : result (list double * list double)) :=
    out <- r ;;
    Ok (map (dsign (negb (flip =? 0))) (fst out),
        map (dsign (negb (flip =? 0))) (snd out)) in
  real0 along1 M r_fm i_fm = signed flip1 (real0 at_integers M r_fm i_fm) /\
  real0 along2 M r_fm i_fm = signed flip2 (real0 at_integers M r_fm i_fm) /\
  real1 along1 M r_fm i_fm = signed flip1 (real1 at_integers M r_fm i_fm) /\
  real1 along2 M r_fm i_fm = signed flip2 (real1 at_integers M r_fm i_fm).
Proof.
  intros Hr Hi _ _ _ real0 real1 at_integers along1 along2 signed.
  subst real0 real1 at_integers along1 along2 signed. cbv beta.
  rewrite !map_of_int_shift. change (of_int 0) with (Q2Qc 0).
  rewrite !real0_eval_points, !real1_eval_points, !spec_eval_shift.
  repeat split; apply spec_eval_csign; try assumption; intros t1 t2;
    rewrite Qc_plus_zero.
  - apply real0_flip_period.
  - apply real0_flip_period.
  - apply real1_flip_period.
  - apply real1_flip_period.
Qed.

Lemma flip_alternates_with_period_witness :
  (Z.of_nat (length [Q2Qc 0]) = 1 /\
   int_ranged [0; 0] 2 2 /\
   int_ranged (shift_ints 4 0 1 [0; 0]) 2 2 /\
   int_ranged (shift_ints 0 4 1 [0; 0]) 2 2) /\
  interp2_table0_real_per delta_grid_r delta_grid_i 4 4 delta_table delta_table
    (Some (1, 0)) 2 2 1 1
    (map of_int (shift_ints 4 0 1 [0; 0])) 1 [Q2Qc 0] [Q2Qc 0]
  = Ok ([Q2Qc (- 1)], [Q2Qc 0]).
Proof.
  assert (Z.of_nat (length [Q2Qc 0]) = 1) as Ho by reflexivity.
  assert (int_ranged [0; 0] 2 2) as H0
    by (apply int_ranged_small; [reflexivity | lia | lia]).
  assert (int_ranged (shift_ints 4 0 1 [0; 0]) 2 2) as H1
    by (apply int_ranged_small; [reflexivity | lia | lia]).
  assert (int_ranged (shift_ints 0 4 1 [0; 0]) 2 2) as H2
    by (apply int_ranged_small; [reflexivity | lia | lia]).
  split; [exact (conj Ho (conj H0 (conj H1 H2)))|].
  pose proof (flip_alternates_with_period delta_grid_r delta_grid_i 4 4
                delta_table delta_table 1 0 2 2 1 1 [0; 0] 1
                [Q2Qc 0] [Q2Qc 0] Ho Ho H0 H1 H2) as H.
  cbv zeta beta in H. destruct H as [H _].
  refine (eq_trans H _). vm_compute. reflexivity.
Defined.

(** ** The private buffers of a worker that was not handed every index *)

Lemma nth_error_set_nth_other {A : Type} (v : A) :
  forall a n m, n <> m -> nth_error (set_nth a n v) m = nth_error a m.
Proof.
  induction a as [|x a IH]; intros n m Hnm; [now destruct n|].
  destruct n as [|n]; destruct m as [|m]; simpl; try reflexivity.
  - contradiction.
  - apply IH. congruence.
Qed.

Lemma rd_wr_other {A : Type} (a a' : list A) j v i :
  wr a j v = Ok a' -> i <> j -> rd a' i = rd a i.
Proof.
  unfold wr, rd. intros H Hij.
  destruct ((0 <=? j) && (j <? Z.of_nat (length a))) eqn:E; [|discriminate].
  injection H as <-. apply andb_true_iff in E. destruct E as [E1 _].
  apply Z.leb_le in E1.
  destruct (Z.ltb_spec i 0); [reflexivity|].
  rewrite nth_error_set_nth_other by lia. reflexivity.
Qed.

Lemma complex0_mm_other r_ck i_ck K1 K2 r_h1 i_h1 r_h2 i_h2 J1 J2 L1 L2
    p_tm M mm priv priv' m :
  complex0_mm r_ck i_ck K1 K2 r_h1 i_h1 r_h2 i_h2 J1 J2 L1 L2 p_tm M mm priv
  = Ok priv' ->
  m <> mm -> rd (fst priv') m = rd (fst priv) m.
Proof.
  rewrite complex0_mm_fill. unfold fill_slot. intros H Hm.
  destruct (point_at _ _ _ _) as [v|]; [|discriminate]. simpl in H.
  destruct (wr (fst priv) mm _) as [a|] eqn:Ea; [|discriminate]. simpl in H.
  destruct (wr (snd priv) mm _) as [b|]; [|discriminate]. simpl in H.
  injection H as <-. simpl. exact (rd_wr_other _ _ _ _ _ Ea Hm).
Qed.

Lemma for_each_mm_other r_ck i_ck K1 K2 r_h1 i_h1 r_h2 i_h2 J1 J2 L1 L2
    p_tm M m :
  forall idx priv priv',
    for_each idx
      (complex0_mm r_ck i_ck K1 K2 r_h1 i_h1 r_h2 i_h2 J1 J2 L1 L2 p_tm M)
      priv = Ok priv' ->
    ~ In m idx -> rd (fst priv') m = rd (fst priv) m.
Proof.
  induction idx as [|mm idx IH]; intros priv priv' H Hin; simpl in H.
  - now injection H as <-.
  - destruct (complex0_mm _ _ _ _ _ _ _ _ _ _ _ _ _ _ mm priv) as [p1|] eqn:E;
      [|discriminate].
    simpl in H. rewrite (IH p1 priv' H) by (intros ?; apply Hin; now right).
    apply (complex0_mm_other _ _ _ _ _ _ _ _ _ _ _ _ _ _ _ _ _ _ E).
    intros ->. apply Hin. now left.
Qed.

Lemma rd_malloc M m : 0 <= m < M -> rd (malloc M) m = Ok None.
Proof.
  intros Hm. unfold rd, malloc.
  destruct (Z.ltb_spec m 0); [lia|].
  rewrite nth_error_repeat by lia. reflexivity.
Qed.

Lemma for_k_faults_at {St : Type} (body : int -> St -> result St) :
  forall n j k s,
    (j < n)%nat -> (forall s', faults (body (k + Z.of_nat j) s')) ->
    faults (for_k n k body s).
Proof.
  induction n as [|n IH]; intros j k s Hj H; [lia|]. simpl.
  destruct j as [|j].
  - apply faults_bind_l. rewrite <- (Z.add_0_r k). apply H.
  - apply faults_bind_r; intros s'. apply (IH j); [lia|].
    intros s''. replace (k + 1 + Z.of_nat j) with (k + Z.of_nat (S j)) by lia.
    apply H.
Qed.

Lemma merge_unwritten_slot priv m out :
  rd (fst priv) m = Ok None -> faults (complex0_merge priv m out).
Proof.
  intros H. unfold complex0_merge. destruct priv as [pr pi].
  destruct out as [r_fm i_fm]. simpl in H.
  apply faults_bind_r; intros r. apply faults_bind_l.
  unfold rd_cell. rewrite H. now exists Uninitialised.
Qed.

Lemma worker_misses_index r_ck i_ck K1 K2 r_h1 i_h1 r_h2 i_h2 J1 J2 L1 L2
    p_tm M idx out m :
  0 <= m < M -> ~ In m idx ->
  faults (complex0_worker r_ck i_ck K1 K2 r_h1 i_h1 r_h2 i_h2 J1 J2 L1 L2
            p_tm M idx out).
Proof.
  intros Hm Hin. unfold complex0_worker.
  destruct (for_each idx _ _) as [priv|e] eqn:E; [|now exists e].
  cbn [bind].
  apply (for_k_faults_at _ (Z.to_nat M) (Z.to_nat m)); [lia|].
  intros s'. rewrite Z.add_0_l, Z2Nat.id by lia.
  apply merge_unwritten_slot.
  rewrite (for_each_mm_other _ _ _ _ _ _ _ _ _ _ _ _ _ _ m _ _ _ E Hin).
  now apply rd_malloc.
Qed.

Lemma completes_bind {A B : Type} (m : result A) (f : A -> result B) :
  completes (bind m f) -> exists a, m = Ok a /\ completes (f a).
Proof.
  destruct m as [a|e]; simpl; intros H; [eauto|].
  destruct H as [b H]. discriminate.
Qed.

(** X7. The parallel evaluator completes only when every worker was handed
    every index [0 .. M-1].  A worker that misses an index reaches the merge
    with that slot of its private buffers unwritten (or stops on an earlier
    fault); so under any schedule that shares [M > 0] indices among two or
    more workers the evaluation does not complete. *)
Theorem parallel_completes_only_if_all_indices
    r_ck i_ck K1 K2 r_h1 i_h1 r_h2 i_h2 J1 J2 L1 L2 sched p_tm M r_fm i_fm :
  completes
    (interp2_table0_complex_per r_ck i_ck K1 K2 r_h1 i_h1 r_h2 i_h2
       J1 J2 L1 L2 sched p_tm M r_fm i_fm) ->
  forall idx, In idx sched -> forall m, 0 <= m < M -> In m idx.
Proof.
  unfold interp2_table0_complex_per. intros H.
  apply completes_bind in H. destruct H as (r0 & _ & H).
  apply completes_bind in H. destruct H as (i0 & _ & H).
  revert H. generalize (r0, i0). clear r0 i0.
  induction sched as [|idx0 sched IH]; intros out H idx Hin m Hm;
    [contradiction|].
  simpl in H. apply completes_bind in H. destruct H as (out' & Hw & H).
  destruct Hin as [<-|Hin].
  - destruct (in_dec Z.eq_dec m idx0) as [Hm0|Hm0]; [assumption|].
    exfalso.
    apply (faults_not_completes _
             (worker_misses_index r_ck i_ck K1 K2 r_h1 i_h1 r_h2 i_h2
                J1 J2 L1 L2 p_tm M idx0 out m Hm Hm0)).
    rewrite Hw. now exists out'.
  - now apply (IH out' H idx Hin m Hm).
Qed.

Lemma parallel_completes_only_if_all_indices_witness :
  completes
    (interp2_table0_complex_per delta_grid_r delta_grid_i 4 4
       delta_table zero_table delta_table zero_table 2 2 1 1
       [[0; 1]] [Q2Qc 0; Q2Qc 4; Q2Qc 0; Q2Qc 0] 2
       [Q2Qc 0; Q2Qc 0] [Q2Qc 0; Q2Qc 0]) /\
  In 1 [0; 1].
Proof.
  assert (completes
            (interp2_table0_complex_per delta_grid_r delta_grid_i 4 4
               delta_table zero_table delta_table zero_table 2 2 1 1
               [[0; 1]] [Q2Qc 0; Q2Qc 4; Q2Qc 0; Q2Qc 0] 2
               [Q2Qc 0; Q2Qc 0] [Q2Qc 0; Q2Qc 0])) as Hc
    by (eexists; vm_compute; reflexivity).
  split; [exact Hc|].
  apply (parallel_completes_only_if_all_indices _ _ _ _ _ _ _ _ _ _ _ _ _ _ _
           _ _ Hc [0; 1] (or_introl eq_refl) 1).
  lia.
Defined.

(** ** Tables with an odd number of intervals *)

Lemma sum_from_faults_at term jj :
  faults (term jj) ->
  forall l acc, In jj l -> faults (sum_from acc l term).
Proof.
  intros H l; induction l as [|j l IH]; intros acc Hin; [contradiction|].
  simpl. destruct Hin as [->|Hin].
  - now apply faults_bind_l.
  - apply faults_bind_r; intros v. now apply IH.
Qed.

Lemma sum_over_faults_at term n jj :
  (jj < n)%nat -> faults (term jj) -> faults (sum_over n term).
Proof.
  intros Hjj H. apply (sum_from_faults_at term jj H).
  apply in_seq. lia.
Qed.

Lemma koff_half_integer z J :
  koff (of_int z + of_int J / of_int 2)%Qc J = 1 + z.
Proof.
  unfold koff. set (h := (of_int J / of_int 2)%Qc).
  replace (of_int z + h - h)%Qc with (of_int z + Q2Qc 0)%Qc by ring.
  now rewrite Qc_plus_zero, floor_of_int.
Qed.

(** With [J * L] odd and [t - J/2] an integer, the last neighbour of the
    window has the offset [-J*L/2], whose floor lies one sample before the
    table. *)
Lemma coef1_odd_last h J L z :
  Z.odd (J * L) = true -> 0 < J ->
  coef1 h (ncenter J L) (of_int z + of_int J / of_int 2)%Qc
    (koff (of_int z + of_int J / of_int 2)%Qc J + Z.of_nat (Z.to_nat J - 1)) L
  = Err OutOfRange.
Proof.
  intros Hodd HJ. rewrite koff_half_integer.
  apply Z.odd_spec in Hodd. destruct Hodd as [c Hc].
  assert (ncenter J L = c) as Hn.
  { rewrite ncenter_div, Hc. symmetry.
    apply (Z.div_unique (2 * c + 1) 2 c 1); lia. }
  assert (floor (offset (of_int z + of_int J / of_int 2)%Qc
                   (1 + z + Z.of_nat (Z.to_nat J - 1)) L) = - (c + 1)) as Hf.
  { replace (1 + z + Z.of_nat (Z.to_nat J - 1)) with (z + J) by lia.
    assert (inject_Z J * inject_Z L == 2 * inject_Z c + 1)%Q as E.
    { rewrite <- inject_Z_mult, Hc, inject_Z_plus, inject_Z_mult.
      reflexivity. }
    apply floor_unique; unfold offset; rewrite of_int_opp, !of_int_add;
      change (of_int 1) with (Q2Qc 1); to_Q2.
    - setoid_replace
        ((inject_Z z + inject_Z J * (1 # 2) + - (inject_Z z + inject_Z J))
         * inject_Z L)%Q
        with (- (1 # 2) * (inject_Z J * inject_Z L))%Q by ring.
      rewrite E. lra.
    - setoid_replace
        ((inject_Z z + inject_Z J * (1 # 2) + - (inject_Z z + inject_Z J))
         * inject_Z L)%Q
        with (- (1 # 2) * (inject_Z J * inject_Z L))%Q by ring.
      rewrite E. lra. }
  unfold coef1. rewrite Hf, Hn.
  replace (c + - (c + 1)) with (-1) by lia. reflexivity.
Qed.

(** X8. Tables with an odd number of intervals are not covered by the
    1st-order evaluator: when [J1 * L1] is odd and the first query
    coordinate [t1] has [t1 - J1/2] an integer, the lookup for the last
    neighbour of the window reads the sample before the table, whatever
    the table holds; with non-empty windows the evaluation faults. *)
Theorem interp2_table1_real_per_odd_table
    r_ck i_ck K1 K2 r_h1 r_h2 flips J1 J2 L1 L2 p_tm M r_fm i_fm z :
  Z.odd (J1 * L1) = true -> 0 < J1 -> 0 < J2 -> 0 < M ->
  rd p_tm 0 = Ok (of_int z + of_int J1 / of_int 2)%Qc ->
  faults
    (interp2_table1_real_per r_ck i_ck K1 K2 r_h1 r_h2 flips J1 J2 L1 L2
       p_tm M r_fm i_fm).
Proof.
  intros Hodd HJ1 HJ2 HM Ht1.
  rewrite real1_eval_points. unfold spec_eval.
  destruct (iota_pos M HM) as [rest ->]. cbn [for_each].
  apply faults_bind_l. unfold spec_slot.
  apply faults_bind_r; intros t2.
  change (@rd double p_tm 0) with (@rd Qc p_tm 0). rewrite Ht1. cbn [bind].
  apply faults_bind_l.
  rewrite real1_point_spec. unfold spec_real1_point, spec_point.
  apply (sum_over_faults_at _ _ 0%nat); [lia|].
  unfold spec_term2.
  apply faults_bind_r; intros w2. apply faults_bind_r; intros [kmod wrap].
  apply faults_bind_l.
  apply (sum_over_faults_at _ _ (Z.to_nat J1 - 1)%nat); [lia|].
  unfold spec_term1. apply faults_bind_l.
  fold (koff (of_int z + of_int J1 / of_int 2)%Qc J1).
  rewrite coef1_odd_last by assumption. now exists OutOfRange.
Qed.

Lemma interp2_table1_real_per_odd_table_witness :
  (Z.odd (1 * 1) = true /\ 0 < 1 /\ 0 < 1 /\ 0 < 1 /\
   rd [Q2Qc (1 # 2); Q2Qc 0] 0 = Ok (of_int 0%Z + of_int 1%Z / of_int 2%Z)%Qc) /\
  faults
    (interp2_table1_real_per delta_grid_r delta_grid_i 4 4
       [Q2Qc 1; Q2Qc 0] [Q2Qc 1; Q2Qc 0] None 1 1 1 1
       [Q2Qc (1 # 2); Q2Qc 0] 1 [Q2Qc 0] [Q2Qc 0]).
Proof.
  assert (Z.odd (1 * 1) = true) as Ho by reflexivity.
  assert (0 < 1) as H1 by reflexivity.
  assert (rd [Q2Qc (1 # 2); Q2Qc 0] 0
          = Ok (of_int 0%Z + of_int 1%Z / of_int 2%Z)%Qc) as Ht
    by (vm_compute; reflexivity).
  split; [repeat split; assumption|].
  exact (interp2_table1_real_per_odd_table delta_grid_r delta_grid_i 4 4
           [Q2Qc 1; Q2Qc 0] [Q2Qc 1; Q2Qc 0] None 1 1 1 1
           [Q2Qc (1 # 2); Q2Qc 0] 1 [Q2Qc 0] [Q2Qc 0] 0 Ho H1 H1 H1 Ht).
Defined.

(** ** A table read before the first sample, in binary64 *)

Lemma b64_coef1_before_table (h : list B64.double) :
  B64.coef1 h 1 B64.below_minus_one 0 1 = Err OutOfRange.
Proof. vm_compute. reflexivity. Qed.

(** X14. In binary64 the documented array sizes do not keep the table
    reads of the 1st-order evaluator in range.  With [J1 = 2], [L1 = 1] (a
    table of 3 samples, centre index 1) and the axis-1 coordinate
    [t1 = -(1 + 2^-52)], the difference [t1 - J1 / 2.] rounds to [-2], so
    the window starts at [k1 = -1]; for its second neighbour [k1 = 0] the
    offset [p1 = t1] has floor [-2] and the lookup reads [r_h1[-1]], the
    cell before the table.  With a non-empty window on axis 2 the
    evaluation faults, whatever the tables, the grid and the other
    arguments are. *)
Theorem interp2_table1_real_per_reads_before_table
    r_ck i_ck K1 K2 r_h1 r_h2 flips J2 L2 p_tm M r_fm i_fm :
  0 < J2 -> 0 < M ->
  rd p_tm 0 = Ok B64.below_minus_one ->
  faults
    (B64.interp2_table1_real_per r_ck i_ck K1 K2 r_h1 r_h2 flips 2 J2 1 L2
       p_tm M r_fm i_fm).
Proof.
  intros HJ2 HM Ht1. unfold B64.interp2_table1_real_per.
  assert (B64.ncenter 2 1 = Ok 1) as -> by (vm_compute; reflexivity).
  cbn [bind]. apply faults_bind_r; intros nc2.
  apply (for_k_faults_at _ _ 0%nat); [lia|]. intros [r i].
  unfold B64.real1_mm. apply faults_bind_r; intros t2.
  cbn [Z.of_nat Z.add]. rewrite Ht1. cbn [bind].
  apply faults_bind_l. unfold B64.real1_point.
  assert (B64.koff B64.below_minus_one 2 = Ok (-1)) as ->
    by (vm_compute; reflexivity).
  cbn [bind]. apply faults_bind_r; intros k2.
  apply (for_k_faults_at _ _ 0%nat); [lia|]. intros [sum2r sum2i].
  unfold B64.real1_j2.
  apply faults_bind_r; intros coef2r.
  apply faults_bind_r; intros [k2mod wrap2].
  apply faults_bind_l.
  apply (for_k_faults_at _ _ 1%nat); [simpl; lia|]. intros [sum1r sum1i].
  unfold B64.real1_j1. apply faults_bind_l.
  change (-1 + Z.of_nat 1) with 0.
  rewrite b64_coef1_before_table. now exists OutOfRange.
Qed.

Lemma interp2_table1_real_per_reads_before_table_witness :
  (0 < 2 /\ 0 < 1 /\
   rd [B64.below_minus_one; B64.zero] 0 = Ok B64.below_minus_one) /\
  faults
    (B64.interp2_table1_real_per B64.delta_grid_r B64.delta_grid_i 4 4
       B64.tent_table B64.tent_table None 2 2 1 1
       [B64.below_minus_one; B64.zero] 1 [B64.zero] [B64.zero]).
Proof.
  assert (0 < 2) as H2 by reflexivity.
  assert (0 < 1) as H1 by reflexivity.
  assert (rd [B64.below_minus_one; B64.zero] 0 = Ok B64.below_minus_one)
    as Ht by reflexivity.
  split; [exact (conj H2 (conj H1 Ht))|].
  exact (interp2_table1_real_per_reads_before_table
           B64.delta_grid_r B64.delta_grid_i 4 4
           B64.tent_table B64.tent_table None 2 1
           [B64.below_minus_one; B64.zero] 1 [B64.zero] [B64.zero] H2 H1 Ht).
Defined.

(** ** The 1st-order lookup between and at the table samples *)







(** ** Any number of periods *)

Lemma period_any (f : double -> result cplx) K :
  (forall t, f (t + of_int K)%Qc = f t) ->
  forall (n : int) t, f (t + of_int (n * K)%Z)%Qc = f t.
Proof.
  intros H n. pattern n. apply Z.peano_ind; clear n.
  - intros t. change (of_int (0 * K)%Z) with (Q2Qc 0). now rewrite Qc_plus_zero.
  - intros n IH t.
    replace (Z.succ n * K) with (n * K + K) by lia.
    rewrite of_int_add.
    replace (t + (of_int (n * K)%Z + of_int K))%Qc
      with (t + of_int (n * K)%Z + of_int K)%Qc by ring.
    now rewrite H, IH.
  - intros n IH t.
    rewrite <- (H (t + of_int (Z.pred n * K)%Z)%Qc).
    replace (t + of_int (Z.pred n * K)%Z + of_int K)%Qc
      with (t + of_int (n * K)%Z)%Qc; [apply IH|].
    replace (n * K) with (Z.pred n * K + K) by lia.
    rewrite of_int_add. ring.
Qed.

Lemma spec_eval_periods point K1 K2 n1 n2 p_tm M r_fm i_fm :
  (forall t1 t2, point (t1 + of_int K1)%Qc t2 = point t1 t2) ->
  (forall t1 t2, point t1 (t2 + of_int K2)%Qc = point t1 t2) ->
  spec_eval point (shift_coords (of_int (n1 * K1)%Z) (of_int (n2 * K2)%Z) M p_tm)
    M r_fm i_fm
  = spec_eval point p_tm M r_fm i_fm.
Proof.
  intros H1 H2. rewrite spec_eval_shift. apply spec_eval_ext; intros t1 t2.
  rewrite (period_any (fun t => point t (t2 + of_int (n2 * K2)%Z)%Qc) K1)
    by (intros; apply H1).
  apply (period_any (fun t => point t1 t) K2). intros; apply H2.
Qed.

(** X11. With the sign flips off the outputs have the periods of the grid
    in both coordinates.  For query points at integer coordinates, moving
    the points by any integer numbers of periods [n1 * K1] and [n2 * K2] at
    once (negative numbers included, the moved coordinates still within the
    range of [int]) leaves the result of every evaluator unchanged.  (The
    parallel evaluator is taken with one worker.) *)
Theorem periodic_in_both_coordinates
    r_ck i_ck K1 K2 r_h1 i_h1 r_h2 i_h2 flips J1 J2 L1 L2 (n1 n2 : int)
    zs M r_fm i_fm :
  flips_off flips ->
  int_ranged zs J1 J2 ->
  int_ranged (shift_ints (n1 * K1) (n2 * K2) M zs) J1 J2 ->
  let at_integers := map of_int zs in
  let moved := map of_int (shift_ints (n1 * K1) (n2 * K2) M zs) in
  interp2_table0_real_per r_ck i_ck K1 K2 r_h1 r_h2 flips J1 J2 L1 L2
    moved M r_fm i_fm
  = interp2_table0_real_per r_ck i_ck K1 K2 r_h1 r_h2 flips J1 J2 L1 L2
      at_integers M r_fm i_fm
  /\
  interp2_table1_real_per r_ck i_ck K1 K2 r_h1 r_h2 flips J1 J2 L1 L2
    moved M r_fm i_fm
  = interp2_table1_real_per r_ck i_ck K1 K2 r_h1 r_h2 flips J1 J2 L1 L2
      at_integers M r_fm i_fm
  /\
  interp2_table0_complex_per r_ck i_ck K1 K2 r_h1 i_h1 r_h2 i_h2 J1 J2 L1 L2
    [iota M] moved M r_fm i_fm
  = interp2_table0_complex_per r_ck i_ck K1 K2 r_h1 i_h1 r_h2 i_h2 J1 J2 L1 L2
      [iota M] at_integers M r_fm i_fm.
Proof.
  intros Hoff _ _ at_integers moved. subst at_integers moved.
  rewrite map_of_int_shift. split; [|split].
  - rewrite !real0_eval_points.
    destruct (real0_point_period r_ck i_ck K1 K2 r_h1 r_h2 flips J1 J2 L1 L2 Hoff)
      as [H1 H2].
    now apply spec_eval_periods.
  - rewrite !real1_eval_points.
    destruct (real1_point_period r_ck i_ck K1 K2 r_h1 r_h2 flips J1 J2 L1 L2 Hoff)
      as [H1 H2].
    now apply spec_eval_periods.
  - rewrite !complex0_single_worker. unfold spec_eval_cleared.
    destruct (complex0_point_period r_ck i_ck K1 K2 r_h1 i_h1 r_h2 i_h2 J1 J2 L1 L2)
      as [H1 H2].
    do 2 (apply bind_ext; intros ?). now apply spec_eval_periods.
Qed.

Lemma periodic_in_both_coordinates_witness :
  (flips_off None /\
   int_ranged [1; 0] 2 2 /\
   int_ranged (shift_ints (-3 * 4) (2 * 4) 1 [1; 0]) 2 2) /\
  interp2_table1_real_per delta_grid_r delta_grid_i 4 4
    delta_table delta_table None 2 2 1 1
    (map of_int (shift_ints (-3 * 4) (2 * 4) 1 [1; 0])) 1 [Q2Qc 0] [Q2Qc 0]
  = interp2_table1_real_per delta_grid_r delta_grid_i 4 4
      delta_table delta_table None 2 2 1 1 (map of_int [1; 0]) 1
      [Q2Qc 0] [Q2Qc 0].
Proof.
  assert (flips_off None) as Hoff by (left; reflexivity).
  assert (int_ranged [1; 0] 2 2) as H0
    by (apply int_ranged_small; [reflexivity | lia | lia]).
  assert (int_ranged (shift_ints (-3 * 4) (2 * 4) 1 [1; 0]) 2 2) as H1
    by (apply int_ranged_small; [reflexivity | lia | lia]).
  split; [exact (conj Hoff (conj H0 H1))|].
  pose proof (periodic_in_both_coordinates delta_grid_r delta_grid_i 4 4
                delta_table zero_table delta_table zero_table None 2 2 1 1
                (-3) 2 [1; 0] 1 [Q2Qc 0] [Q2Qc 0] Hoff H0 H1) as H.
  cbv zeta in H. exact (proj1 (proj2 H)).
Defined.

(** ** Interpolating kernels reproduce the grid at its nodes *)









Section Node.
Variables (s1 s2 : double -> int -> result double).
Variables (f1 f2 : int -> double -> double).
Variables (r_ck i_ck : list double) (K1 K2 J1 J2 z1 z2 : int).
Hypothesis Hf1 : forall wrap w, f1 wrap w = w.
Hypothesis Hf2 : forall wrap w, f2 wrap w = w.
Hypothesis Hr : grid_sized r_ck K1 K2.
Hypothesis Hi : grid_sized i_ck K1 K2.
Hypothesis HJ1 : 0 < J1.
Hypothesis HJ2 : 0 < J2.
Hypothesis Hw1 :
  forall k, koff (of_int z1) J1 <= k < koff (of_int z1) J1 + J1 ->
            s1 (of_int z1) k = Ok (if k =? z1 then Q2Qc 1 else Q2Qc 0).
Hypothesis Hw2 :
  forall k, koff (of_int z2) J2 <= k < koff (of_int z2) J2 + J2 ->
            s2 (of_int z2) k = Ok (if k =? z2 then Q2Qc 1 else Q2Qc 0).


End Node.






(** ** Real and imaginary parts under a real table *)

Lemma rd_err {A : Type} (a : list A) i e : rd a i = Err e -> e = OutOfRange.
Proof.
  unfold rd. destruct (i <? 0); [now intros [= <-]|].
  destruct (nth_error a (Z.to_nat i)); [discriminate | now intros [= <-]].
Qed.

Lemma wr_err {A : Type} (a : list A) i v e :
  wr a i v = Err e -> e = OutOfRange.
Proof.
  unfold wr. destruct (_ && _); [discriminate | now intros [= <-]].
Qed.

Lemma grid_at_swap r_ck i_ck kk :
  grid_at i_ck r_ck kk = v <- grid_at r_ck i_ck kk ;; Ok (cswap v).
Proof.
  unfold grid_at.
  destruct (rd r_ck kk) as [x|e1] eqn:Er; destruct (rd i_ck kk) as [y|e2] eqn:Ei;
    try reflexivity; cbn [bind];
    repeat match goal with
           | H : rd _ _ = Err _ |- _ => apply rd_err in H; subst
           end; reflexivity.
Qed.

Lemma sum_from_hom (phi : cplx -> cplx) f g :
  (forall v w, cadd (phi v) (phi w) = phi (cadd v w)) ->
  (forall jj, g jj = v <- f jj ;; Ok (phi v)) ->
  forall l acc,
    sum_from (phi acc) l g = v <- sum_from acc l f ;; Ok (phi v).
Proof.
  intros Hadd H l; induction l as [|jj l IH]; intros acc; simpl; [reflexivity|].
  rewrite H. destruct (f jj) as [v|e]; simpl; [|reflexivity].
  rewrite Hadd. apply IH.
Qed.

Lemma cswap_cadd (v w : cplx) : cadd (cswap v) (cswap w) = cswap (cadd v w).
Proof. reflexivity. Qed.

Lemma smul_cswap w (v : cplx) : smul w (cswap v) = cswap (smul w v).
Proof. reflexivity. Qed.

Lemma spec_point_swap (s1 s2 : double -> int -> result double)
    x1 x2 f1 f2 r_ck i_ck K1 J1 J2 t1 t2 :
  spec_point s1 s2 x1 x2 f1 f2 smul (grid_at i_ck r_ck) K1 J1 J2 t1 t2
  = v <- spec_point s1 s2 x1 x2 f1 f2 smul (grid_at r_ck i_ck) K1 J1 J2 t1 t2 ;;
    Ok (cswap v).
Proof.
  unfold spec_point, sum_over. change czero with (cswap czero) at 1.
  apply (sum_from_hom cswap); [apply cswap_cadd|]. intros jj2.
  unfold spec_term2.
  rewrite bind_assoc. apply bind_ext; intros w2.
  rewrite bind_assoc. apply bind_ext; intros [kmod wrap].
  unfold sum_over. change czero with (cswap czero) at 1.
  rewrite (sum_from_hom cswap
             (fun jj1 => spec_term1 s1 x1 f1 smul (grid_at r_ck i_ck) K1 t1 kmod
                           (1 + floor (t1 - of_int J1 / of_int 2)%Qc
                            + Z.of_nat jj1))).
  - rewrite !bind_assoc. apply bind_ext; intros v. reflexivity.
  - apply cswap_cadd.
  - intros jj1. unfold spec_term1.
    rewrite bind_assoc. apply bind_ext; intros w1.
    rewrite bind_assoc. apply bind_ext; intros [kmod1 wrap1].
    rewrite grid_at_swap, !bind_assoc. apply bind_ext; intros v. reflexivity.
Qed.

Lemma spec_slot_swap point point' p_tm M m (out : list double * list double) :
  (forall t1 t2, point' t1 t2 = v <- point t1 t2 ;; Ok (cswap v)) ->
  spec_slot point' p_tm M m (cswap out)
  = out' <- spec_slot point p_tm M m out ;; Ok (cswap out').
Proof.
  intros H. unfold spec_slot. destruct out as [r_fm i_fm]. cbn [cswap fst snd].
  rewrite bind_assoc. apply bind_ext; intros t2.
  rewrite bind_assoc. apply bind_ext; intros t1.
  rewrite H. destruct (point t1 t2) as [[fr fi]|]; [|reflexivity].
  cbn [bind cswap fst snd].
  destruct (wr r_fm m fr) as [r'|e1] eqn:Er;
    destruct (wr i_fm m fi) as [i'|e2] eqn:Ei; try reflexivity; cbn [bind];
    repeat match goal with
           | H : wr _ _ _ = Err _ |- _ => apply wr_err in H; subst
           end; reflexivity.
Qed.

Lemma spec_eval_swap point point' p_tm M r_fm i_fm :
  (forall t1 t2, point' t1 t2 = v <- point t1 t2 ;; Ok (cswap v)) ->
  spec_eval point' p_tm M i_fm r_fm
  = out <- spec_eval point p_tm M r_fm i_fm ;; Ok (cswap out).
Proof.
  intros H. unfold spec_eval.
  change (i_fm, r_fm) with (cswap (r_fm, i_fm)).
  generalize (r_fm, i_fm). generalize (iota M).
  induction l as [|m l IH]; intros out; simpl; [reflexivity|].
  rewrite (spec_slot_swap point point') by assumption.
  rewrite !bind_assoc. apply bind_ext; intros out'. cbn [bind]. apply IH.
Qed.

(** X13. A real table acts on the real and on the imaginary part of the
    grid in the same way and separately: exchanging the two grid arrays
    (and the two output arrays) exchanges the two outputs of the real-table
    evaluators, faults included. *)
Theorem real_table_parts_exchange
    r_ck i_ck K1 K2 r_h1 r_h2 flips J1 J2 L1 L2 p_tm M r_fm i_fm :
  interp2_table0_real_per i_ck r_ck K1 K2 r_h1 r_h2 flips J1 J2 L1 L2
    p_tm M i_fm r_fm
  = (out <- interp2_table0_real_per r_ck i_ck K1 K2 r_h1 r_h2 flips
               J1 J2 L1 L2 p_tm M r_fm i_fm ;;
     Ok (snd out, fst out))
  /\
  interp2_table1_real_per i_ck r_ck K1 K2 r_h1 r_h2 flips J1 J2 L1 L2
    p_tm M i_fm r_fm
  = (out <- interp2_table1_real_per r_ck i_ck K1 K2 r_h1 r_h2 flips
               J1 J2 L1 L2 p_tm M r_fm i_fm ;;
     Ok (snd out, fst out)).
Proof.
  rewrite !real0_eval_points, !real1_eval_points. split.
  - apply (spec_eval_swap
             (real0_point r_ck i_ck K1 K2 r_h1 r_h2 flips J1 J2 L1 L2)).
    intros t1 t2. rewrite !real0_point_spec. apply spec_point_swap.
  - apply (spec_eval_swap
             (real1_point r_ck i_ck K1 K2 r_h1 r_h2 flips J1 J2 L1 L2)).
    intros t1 t2. rewrite !real1_point_spec. apply spec_point_swap.
Qed.
